(** * Network_Simulator: the routing-decision engine

    A shallow embedding of the three routing engines of the simulator,
    [DijkstraAlgorithm.execute], [BellmanFordAlgorithm.execute] and
    [BGPPathSelection.execute], together with the properties the
    specification states about them.

    Modelling conventions.
    - A JavaScript [number] that the engines compute with is either an
      integer or [Infinity]: type [num].  Edge weights are integers;
      floating-point rounding and [NaN] weights are outside the model.
    - A JavaScript object used as a dictionary is a [gmap string _]; reading
      an absent key yields [undefined], which is [None] of the lookup.
      Properties inherited from [Object.prototype] are outside the model.
    - [previous[k]] holds a node id or [null]: [Some (Some p)], [Some None].
    - Exceptions are outcomes of [execute], see [outcome].  The two
      [while] loops that walk the predecessor links have no bound in the
      source; the model runs them for at most [fuel] iterations and reports
      [OutOfFuel] otherwise.  A result obtained with some fuel is the
      result for every larger fuel ([walk_mono]).  The other loops are
      bounded by the data they run over.
    - [executionTime] is wall-clock telemetry and is not part of the model. *)

From Stdlib Require Import ZArith List Lia QArith Qround Ascii String.
From stdpp Require Import gmap strings list fin_maps pretty.

Local Open Scope string_scope.
Local Open Scope Z_scope.
Local Open Scope list_scope.

(* [set_solver] clears hypotheses that some of its branches no longer have. *)
Local Set Warnings "-clear-no-such-hyp".

(** ** Data model (src/components/NetworkGraph.tsx, algorithms/BellmanFord.ts) *)

Inductive NodeStatus := NSDefault | NSSource | NSDestination | NSVisited | NSPath.
Inductive EdgeStatus := ESDefault | ESVisited | ESPath.

Record Node := mkNode {
  n_id : string;
  n_x : Z;
  n_y : Z;
  n_label : string;
  n_status : NodeStatus
}.

Record Edge := mkEdge {
  e_id : string;
  e_source : string;
  e_target : string;
  e_weight : Z;
  e_status : EdgeStatus
}.

(** A distance: a finite number or [Infinity]. *)
Inductive num := Fin (z : Z) | Inf.

#[global] Instance num_eq_dec : EqDecision num.
Proof. solve_decision. Defined.

(** [a < b] on distances, as JavaScript's [<] decides it. *)
Definition num_ltb (a b : num) : bool :=
  match a, b with
  | Fin x, Fin y => x <? y
  | Fin _, Inf => true
  | Inf, _ => false
  end.

(** [d !== Infinity]. *)
Definition is_fin (a : num) : bool :=
  match a with Fin _ => true | Inf => false end.

(** A value held by the variable [current] of the predecessor walk, and by
    the cells of a reconstructed path: a string, [null] or [undefined]. *)
Inductive jsval := JStr (s : string) | JNull | JUndef.

#[global] Instance jsval_eq_dec : EqDecision jsval.
Proof. solve_decision. Defined.

Record RoutingTableEntry := mkEntry {
  destination : string;
  nextHop : jsval;
  cost : num;
  hops : Z;
  path : list jsval
}.

Record AlgorithmResult := mkResult {
  distances : gmap string num;
  previous : gmap string (option string);
  res_path : list jsval;
  routingTable : list RoutingTableEntry;
  iterations : nat
}.

(** What a call of [execute] does: it returns a result, throws, or the
    bounded model of an unbounded [while] loop ran out of fuel. *)
Inductive js_error :=
| Error (msg : string)   (* [new Error(msg)] *)
| TypeError.             (* property access on [undefined] *)

Inductive outcome (A : Type) :=
| Returned (a : A)
| Thrown (e : js_error)
| OutOfFuel.
Arguments Returned {A} a.
Arguments Thrown {A} e.
Arguments OutOfFuel {A}.

(** ** Code shared by Dijkstra and Bellman-Ford

    Both files initialise the two maps with the same [forEach], and end with
    the same path reconstruction and routing-table loop (BellmanFord.ts
    lines 33-37 and 79-117, DijkstraAlgorithm lines 19-23 and 63-101). *)

Record sp_state := mkSt {
  st_dist : gmap string num;
  st_prev : gmap string (option string)
}.

(** [nodes.forEach(node => { distances[node.id] = node.id === source ? 0 :
    Infinity; previous[node.id] = null; })] *)
Definition init_step (source : string) (st : sp_state) (n : Node) : sp_state :=
  {| st_dist := <[n_id n := if decide (n_id n = source) then Fin 0 else Inf]> (st_dist st);
     st_prev := <[n_id n := None]> (st_prev st) |}.

Definition init_state (nodes : list Node) (source : string) : sp_state :=
  fold_left (init_step source) nodes (mkSt ∅ ∅).

(** [previous[current]] for a [current] that is not [null]; the key of
    [undefined] is the string "undefined". *)
Definition js_key (v : jsval) : string :=
  match v with
  | JStr s => s
  | JNull => "null"
  | JUndef => "undefined"
  end.

Definition prev_get (prev : gmap string (option string)) (current : jsval) : jsval :=
  match prev !! js_key current with
  | Some (Some p) => JStr p
  | Some None => JNull
  | None => JUndef
  end.

(** [while (current !== null) { path.unshift(current); current =
    previous[current]; }] with the number of iterations bounded by [fuel];
    [None] when the bound is reached. *)
Fixpoint walk (fuel : nat) (prev : gmap string (option string))
    (current : jsval) (acc : list jsval) : option (list jsval) :=
  match current with
  | JNull => Some acc
  | _ =>
    match fuel with
    | O => None
    | S f => walk f prev (prev_get prev current) (current :: acc)
    end
  end.

(** [nodePath.length > 1 ? nodePath[1] : node.id] *)
Definition next_hop (nodePath : list jsval) (node_id : string) : jsval :=
  match nodePath with
  | _ :: h :: _ => h
  | _ => JStr node_id
  end.

(** The body of the routing-table [forEach] for one node:
    [if (node.id !== source && distances[node.id] !== Infinity) { ... }].
    Every node of the list is a key of [distances] (see [init_state]; keys
    are never removed), so the lookup is [Some _] whenever the loop runs. *)
Definition table_step (fuel : nat) (st : sp_state) (source : string)
    (acc : option (list RoutingTableEntry)) (n : Node)
    : option (list RoutingTableEntry) :=
  match acc with
  | None => None
  | Some table =>
    if decide (n_id n = source) then Some table
    else match st_dist st !! n_id n with
         | Some (Fin c) =>
           match walk fuel (st_prev st) (JStr (n_id n)) [] with
           | None => None
           | Some nodePath =>
             Some (table ++ [ {| destination := n_id n;
                                 nextHop := next_hop nodePath (n_id n);
                                 cost := Fin c;
                                 hops := Z.of_nat (length nodePath) - 1;
                                 path := nodePath |} ])
           end
         | _ => Some table
         end
  end.

Definition routing_table (fuel : nat) (nodes : list Node) (st : sp_state)
    (source : string) : option (list RoutingTableEntry) :=
  fold_left (table_step fuel st source) nodes (Some []).

(** [path.includes(source) ? path : []] *)
Definition final_path (p : list jsval) (source : string) : list jsval :=
  if decide (JStr source ∈ p) then p else [].

(** Lines "Build path" to the [return]. *)
Definition reconstruct (fuel : nat) (nodes : list Node) (st : sp_state)
    (source dest : string) (iters : nat) : outcome AlgorithmResult :=
  match walk fuel (st_prev st) (JStr dest) [] with
  | None => OutOfFuel
  | Some p =>
    match routing_table fuel nodes st source with
    | None => OutOfFuel
    | Some table =>
      Returned {| distances := st_dist st;
                  previous := st_prev st;
                  res_path := final_path p source;
                  routingTable := table;
                  iterations := iters |}
    end
  end.

(** ** Bellman-Ford (src/algorithms/BellmanFord.ts) *)

Module BellmanFordAlgorithm.

(** [distances[from] !== Infinity && distances[from] + edge.weight <
    distances[to]].  When [from] or [to] is not a key, the sum or the right
    operand is [NaN] and the comparison is false. *)
Definition can_relax (d : gmap string num) (from to : string) (w : Z) : bool :=
  match d !! from, d !! to with
  | Some (Fin a), Some b => num_ltb (Fin (a + w)) b
  | _, _ => false
  end.

(** One direction of one edge; the boolean is [hasUpdate]. *)
Definition relax_dir (w : Z) (acc : sp_state * bool) (from to : string)
    : sp_state * bool :=
  let (st, upd) := acc in
  match st_dist st !! from with
  | Some (Fin a) =>
    if can_relax (st_dist st) from to w
    then ({| st_dist := <[to := Fin (a + w)]> (st_dist st);
             st_prev := <[to := Some from]> (st_prev st) |}, true)
    else acc
  | _ => acc
  end.

(** [directions.forEach(...)] over [source -> target], then
    [target -> source]. *)
Definition relax_edge (acc : sp_state * bool) (e : Edge) : sp_state * bool :=
  relax_dir (e_weight e)
    (relax_dir (e_weight e) acc (e_source e) (e_target e))
    (e_target e) (e_source e).

(** One pass of the outer loop body: [edges.forEach(...)] starting with
    [hasUpdate = false]. *)
Definition pass (edges : list Edge) (st : sp_state) : sp_state * bool :=
  fold_left relax_edge edges (st, false).

(** [for (let i = 0; i < nodes.length - 1; i++) { iterations++; ...;
    if (!hasUpdate) break; }]; [n] is the number of passes still allowed. *)
Fixpoint passes (n : nat) (edges : list Edge) (st : sp_state) (iters : nat)
    : sp_state * nat :=
  match n with
  | O => (st, iters)
  | S n' =>
    let (st', upd) := pass edges st in
    if upd then passes n' edges st' (S iters) else (st', S iters)
  end.

(** The final edge scan: does some direction of some edge still relax? *)
Definition edge_relaxable (d : gmap string num) (e : Edge) : bool :=
  can_relax d (e_source e) (e_target e) (e_weight e)
  || can_relax d (e_target e) (e_source e) (e_weight e).

Definition negative_cycle (edges : list Edge) (st : sp_state) : bool :=
  existsb (edge_relaxable (st_dist st)) edges.

Definition negative_cycle_error : js_error :=
  Error "Graph contains negative cycle".

Definition execute (fuel : nat) (nodes : list Node) (edges : list Edge)
    (source dest : string) : outcome AlgorithmResult :=
  let st0 := init_state nodes source in
  let (st, iters) := passes (length nodes - 1) edges st0 O in
  if negative_cycle edges st then Thrown negative_cycle_error
  else reconstruct fuel nodes st source dest iters.

End BellmanFordAlgorithm.

(** ** Dijkstra (algorithms/DijkstraAlgorithm.ts) *)

Module DijkstraAlgorithm.

(** *** The adjacency objects

    [graph[id]] is a plain object whose keys are enumerated by
    [Object.keys]: first the keys that are array indices, in ascending
    numeric order, then the other keys in insertion order.  An object is
    kept as the list of its properties in insertion order. *)

Definition digit_of (a : ascii) : option N :=
  let n := N_of_ascii a in
  if ((48 <=? n) && (n <=? 57))%N then Some (n - 48)%N else None.

Fixpoint parse_digits (s : string) (acc : N) : option N :=
  match s with
  | EmptyString => Some acc
  | String a r =>
    match digit_of a with
    | Some d => parse_digits r (acc * 10 + d)%N
    | None => None
    end
  end.

(** The array index a property key denotes, if any: a canonical decimal
    numeral below [2^32 - 1]. *)
Definition array_index (k : string) : option N :=
  match k with
  | EmptyString => None
  | String a r =>
    if decide (a = "0"%char) then
      (if decide (r = EmptyString) then Some 0%N else None)
    else
      match parse_digits k 0 with
      | Some n => if (n <=? 4294967294)%N then Some n else None
      | None => None
      end
  end.

Fixpoint insert_index (x : N * string) (l : list (N * string)) : list (N * string) :=
  match l with
  | [] => [x]
  | y :: r => if (x.1 <=? y.1)%N then x :: l else y :: insert_index x r
  end.

Definition sort_index (l : list (N * string)) : list (N * string) :=
  foldr insert_index [] l.

(** [obj[k] = v]: an existing property keeps its place. *)
Fixpoint obj_set (k : string) (v : Z) (o : list (string * Z)) : list (string * Z) :=
  match o with
  | [] => [(k, v)]
  | (k', v') :: r =>
    if decide (k = k') then (k, v) :: r else (k', v') :: obj_set k v r
  end.

Fixpoint obj_get (o : list (string * Z)) (k : string) : option Z :=
  match o with
  | [] => None
  | (k', v) :: r => if decide (k = k') then Some v else obj_get r k
  end.

(** [Object.keys(o)] *)
Definition obj_keys (o : list (string * Z)) : list string :=
  let ks := map fst o in
  map snd (sort_index (omap (fun k => (fun i => (i, k)) <$> array_index k) ks))
  ++ filter (fun k => array_index k = None) ks.

(** *** Building the adjacency list *)

(** [nodes.forEach(node => { graph[node.id] = {}; })] *)
Definition empty_graph (nodes : list Node) : gmap string (list (string * Z)) :=
  fold_left (fun g n => <[n_id n := []]> g) nodes ∅.

(** [graph[edge.source][edge.target] = edge.weight;
     graph[edge.target][edge.source] = edge.weight;]
    Assigning a property of [graph[x]] when [x] is not a node id throws a
    [TypeError]: [None]. *)
Definition add_edge (og : option (gmap string (list (string * Z)))) (e : Edge)
    : option (gmap string (list (string * Z))) :=
  g ← og;
  o1 ← g !! e_source e;
  let g1 := <[e_source e := obj_set (e_target e) (e_weight e) o1]> g in
  o2 ← g1 !! e_target e;
  Some (<[e_target e := obj_set (e_source e) (e_weight e) o2]> g1).

Definition build_graph (nodes : list Node) (edges : list Edge)
    : option (gmap string (list (string * Z))) :=
  fold_left add_edge edges (Some (empty_graph nodes)).

(** *** The main loop *)

(** [new Set(ids)]: insertion order, the first occurrence of an id counts. *)
Definition set_add (l : list string) (x : string) : list string :=
  if decide (x ∈ l) then l else l ++ [x].

Definition new_set (ids : list string) : list string :=
  fold_left set_add ids [].

Record dstate := mkD {
  d_st : sp_state;
  d_visited : gset string;
  d_unvisited : list string;
  d_iters : nat
}.

(** The reducer [(min, node) => distances[node] < distances[min] ? node : min]. *)
Definition pick_min (d : gmap string num) (min node : string) : string :=
  match d !! node, d !! min with
  | Some a, Some b => if num_ltb a b then node else min
  | _, _ => min
  end.

(** The body of [Object.keys(graph[currentNode]).forEach(neighbor => ...)];
    [distances[currentNode]] is read again for every neighbor. *)
Definition relax_neighbor (cur : string) (adj : list (string * Z))
    (visited : gset string) (st : sp_state) (neighbor : string) : sp_state :=
  if decide (neighbor ∈ visited) then st
  else
    match st_dist st !! cur, obj_get adj neighbor, st_dist st !! neighbor with
    | Some (Fin a), Some w, Some b =>
      if num_ltb (Fin (a + w)) b
      then {| st_dist := <[neighbor := Fin (a + w)]> (st_dist st);
              st_prev := <[neighbor := Some cur]> (st_prev st) |}
      else st
    | _, _, _ => st
    end.

(** [while (unvisited.size > 0) { ... }].  Every pass that does not [break]
    deletes one member of [unvisited], so the loop makes at most
    [unvisited.size] passes; [n] bounds the number of passes left and
    [execute] starts it at that size.  [currentNode] is a member of
    [unvisited], hence a node id, so [graph[currentNode]] is defined. *)
Fixpoint loop (n : nat) (graph : gmap string (list (string * Z)))
    (dest : string) (s : dstate) : dstate :=
  match n with
  | O => s
  | S n' =>
    match d_unvisited s with
    | [] => s
    | first :: rest =>
      let iters := S (d_iters s) in
      let cur := fold_left (pick_min (st_dist (d_st s))) rest first in
      match st_dist (d_st s) !! cur with
      | Some Inf => mkD (d_st s) (d_visited s) (d_unvisited s) iters
      | _ =>
        let adj := default [] (graph !! cur) in
        let st' := fold_left (relax_neighbor cur adj (d_visited s))
                             (obj_keys adj) (d_st s) in
        let s' := mkD st' ({[cur]} ∪ d_visited s)
                      (filter (fun x => x ≠ cur) (d_unvisited s)) iters in
        if decide (cur = dest) then s' else loop n' graph dest s'
      end
    end
  end.

Definition execute (fuel : nat) (nodes : list Node) (edges : list Edge)
    (source dest : string) : outcome AlgorithmResult :=
  let unvisited := new_set (map n_id nodes) in
  let st0 := init_state nodes source in
  match build_graph nodes edges with
  | None => Thrown TypeError
  | Some graph =>
    let s := loop (length unvisited) graph dest (mkD st0 ∅ unvisited O) in
    reconstruct fuel nodes (d_st s) source dest (d_iters s)
  end.

End DijkstraAlgorithm.

(** ** BGP-style path selection (src/algorithms/BGPPathSelection.ts) *)

Module BGPPathSelection.

Record BGPPath := mkBGP {
  bp_path : list string;
  weight : Z;
  localPref : Z;
  asPathLength : Z;
  med : Z;
  igpCost : Z
}.

(** *** findAllPaths

    The closure [dfs] shares [visited] and [path] between its calls, and
    undoes its own [add]/[push] before it returns, so every call sees them
    as its caller holds them: they are passed by value.  [dfs] returns at
    once when [depth > maxDepth]; [budget] is [maxDepth + 1 - depth], zero
    exactly in that case.  The result lists the paths in the order in
    which the source pushes them. *)

Definition neighbor_of (edge : Edge) (current : string) : option string :=
  if decide (e_source edge = current) then Some (e_target edge)
  else if decide (e_target edge = current) then Some (e_source edge)
  else None.

Fixpoint dfs (budget : nat) (edges : list Edge) (end_ : string)
    (current : string) (path : list string) (visited : gset string)
    : list (list string) :=
  match budget with
  | O => []
  | S b =>
    if decide (current = end_) then [path ++ [current]]
    else if decide (current ∈ visited) then []
    else
      let visited' := {[current]} ∪ visited in
      let path' := path ++ [current] in
      flat_map (fun edge =>
        match neighbor_of edge current with
        | Some neighbor =>
          (* [if (neighbor && !visited.has(neighbor))]: "" is falsy *)
          if decide (neighbor = "") then []
          else if decide (neighbor ∈ visited') then []
          else dfs b edges end_ neighbor path' visited'
        | None => []
        end) edges
  end.

Definition maxDepth_default : nat := 10.

Definition findAllPaths (nodes : list Node) (edges : list Edge)
    (start end_ : string) : list (list string) :=
  dfs (S maxDepth_default) edges end_ start [] ∅.

(** *** calculatePathWeight *)

Definition joins (a b : string) (e : Edge) : bool :=
  bool_decide ((e_source e = a ∧ e_target e = b) ∨ (e_target e = a ∧ e_source e = b)).

Fixpoint weight_loop (path : list string) (edges : list Edge) (totalWeight : Z) : Z :=
  match path with
  | a :: (b :: _) as rest =>
    weight_loop rest edges
      (match find (joins a b) edges with
       | Some edge => totalWeight + e_weight edge
       | None => totalWeight
       end)
  | _ => totalWeight
  end.

Definition calculatePathWeight (path : list string) (edges : list Edge) : Z :=
  weight_loop path edges 0.

(** *** selectBestPath *)

(** [Math.max(...xs)] and [Math.min(...xs)]; [None] stands for the
    infinite value they return on an empty list, equal to no attribute. *)
Definition math_max (xs : list Z) : option Z :=
  match xs with
  | [] => None
  | x :: r => Some (fold_left Z.max r x)
  end.

Definition math_min (xs : list Z) : option Z :=
  match xs with
  | [] => None
  | x :: r => Some (fold_left Z.min r x)
  end.

Definition keep (attr : BGPPath → Z) (best : option Z) (ps : list BGPPath)
    : list BGPPath :=
  filter (fun p => Some (attr p) = best) ps.

Definition selectBestPath (paths : list BGPPath) : option BGPPath :=
  match paths with
  | [] => None
  | [p] => Some p
  | _ =>
    let bestPaths := paths in
    (* 1. Highest local preference *)
    let maxLocalPref := math_max (map localPref bestPaths) in
    let bestPaths := keep localPref maxLocalPref bestPaths in
    match bestPaths with
    | [p] => Some p
    | _ =>
      (* 2. Shortest AS path *)
      let minAsPath := math_min (map asPathLength bestPaths) in
      let bestPaths := keep asPathLength minAsPath bestPaths in
      match bestPaths with
      | [p] => Some p
      | _ =>
        (* 3. Lowest MED *)
        let minMed := math_min (map med bestPaths) in
        let bestPaths := keep med minMed bestPaths in
        match bestPaths with
        | [p] => Some p
        | _ =>
          (* 4. Lowest IGP cost *)
          let minIgpCost := math_min (map igpCost bestPaths) in
          let bestPaths := keep igpCost minIgpCost bestPaths in
          head bestPaths
        end
      end
    end
  end.

(** *** execute

    [Math.random()] is an input of the call: [rng k] is the value of the
    [k]-th call, a rational in [0, 1).  The counter of calls made so far is
    threaded through the code that draws. *)

Definition draw_localPref (r : Q) : Z := Qfloor (r * 100) + 100.
Definition draw_med (r : Q) : Z := Qfloor (r * 50).

(** The object literal with the six attributes; [localPref] is drawn
    before [med]. *)
Definition attributes (edges : list Edge) (rng : nat → Q) (k : nat)
    (p : list string) : BGPPath :=
  {| bp_path := p;
     weight := calculatePathWeight p edges;
     localPref := draw_localPref (rng k);
     asPathLength := Z.of_nat (length p) - 1;
     med := draw_med (rng (S k));
     igpCost := calculatePathWeight p edges |}.

(** [paths.map(path => ({...}))] starting at call [k] of the generator;
    returns the number of calls made after it. *)
Fixpoint assign (edges : list Edge) (rng : nat → Q) (k : nat)
    (paths : list (list string)) : list BGPPath * nat :=
  match paths with
  | [] => ([], k)
  | p :: r =>
    let b := attributes edges rng k p in
    let (bs, k') := assign edges rng (S (S k)) r in
    (b :: bs, k')
  end.

(** [bestPath.path.forEach((nodeId, index) => {...})] from index [index]
    on; [before] is [bestPath.path[index - 1]]. *)
Fixpoint seed (w : Z) (index : nat) (before : option string)
    (p : list string) (st : sp_state) : sp_state :=
  match p with
  | [] => st
  | nodeId :: r =>
    let d := <[nodeId := if decide (index = O) then Fin 0 else Fin w]> (st_dist st) in
    let pv := match index, before with
              | S _, Some b => <[nodeId := Some b]> (st_prev st)
              | _, _ => st_prev st
              end in
    seed w (S index) (Some nodeId) r (mkSt d pv)
  end.

Definition blank_step (st : sp_state) (n : Node) : sp_state :=
  {| st_dist := <[n_id n := Inf]> (st_dist st);
     st_prev := <[n_id n := None]> (st_prev st) |}.

(** The body of the routing-table [forEach]; the accumulator carries the
    table and the counter of the generator. *)
Definition row_step (edges : list Edge) (rng : nat → Q) (source : string)
    (allPaths : list (list string))
    (acc : list RoutingTableEntry * nat) (n : Node)
    : list RoutingTableEntry * nat :=
  let (table, k) := acc in
  if decide (n_id n = source) then acc
  else
    let pathsToNode := filter (fun p => last p = Some (n_id n)) allPaths in
    match pathsToNode with
    | [] => acc
    | _ =>
      let (cands, k') := assign edges rng k pathsToNode in
      match selectBestPath cands with
      | Some best =>
        (table ++ [ {| destination := n_id n;
                       nextHop := match bp_path best with
                                  | _ :: h :: _ => JStr h
                                  | _ => JStr (n_id n)
                                  end;
                       cost := Fin (weight best);
                       hops := Z.of_nat (length (bp_path best)) - 1;
                       path := map JStr (bp_path best) |} ], k')
      | None => (table, k')
      end
    end.

Definition execute (rng : nat → Q) (nodes : list Node) (edges : list Edge)
    (source dest : string) : AlgorithmResult :=
  let allPaths := findAllPaths nodes edges source dest in
  let iters := length allPaths in
  match allPaths with
  | [] => {| distances := ∅; previous := ∅; res_path := [];
             routingTable := []; iterations := iters |}
  | _ =>
    let (bgpPaths, k) := assign edges rng O allPaths in
    let bestPath := selectBestPath bgpPaths in
    let st := fold_left blank_step nodes (mkSt ∅ ∅) in
    let st := match bestPath with
              | Some best => seed (weight best) O None (bp_path best) st
              | None => st
              end in
    let (table, _) :=
      fold_left (row_step edges rng source allPaths) nodes ([], k) in
    {| distances := st_dist st;
       previous := st_prev st;
       res_path := match bestPath with
                   | Some best => map JStr (bp_path best)
                   | None => []
                   end;
       routingTable := table;
       iterations := iters |}
  end.

End BGPPathSelection.

(** ** The scenario of the specification *)

Definition nd (s : string) : Node := mkNode s 0 0 s NSDefault.
Definition ed (s t : string) (w : Z) : Edge :=
  mkEdge (String.append s (String.append "-" t)) s t w ESDefault.

Definition scenario_nodes : list Node :=
  [nd "A"; nd "B"; nd "C"; nd "D"; nd "E"; nd "F"].

Definition scenario_edges : list Edge :=
  [ed "A" "B" 4; ed "A" "D" 2; ed "B" "C" 3; ed "B" "F" 1;
   ed "C" "E" 2; ed "D" "F" 5; ed "D" "E" 7; ed "F" "E" 3].

(** ** The election of the specification *)

Module Election.
Import BGPPathSelection.

(** The election in the specification's words: the criteria in their order
    of precedence, each keeping the candidates with the best value, the
    election ending as soon as exactly one candidate remains, and the first
    remaining candidate winning after the last criterion. *)
Inductive criterion :=
| Highest (attr : BGPPath → Z)
| Lowest (attr : BGPPath → Z).

Definition criteria : list criterion :=
  [Highest localPref; Lowest asPathLength; Lowest med; Lowest igpCost].

Definition narrow (c : criterion) (ps : list BGPPath) : list BGPPath :=
  match c with
  | Highest attr => keep attr (math_max (map attr ps)) ps
  | Lowest attr => keep attr (math_min (map attr ps)) ps
  end.
Arguments narrow : simpl never.

Fixpoint elect (cs : list criterion) (ps : list BGPPath) : option BGPPath :=
  match ps with
  | [p] => Some p
  | _ =>
    match cs with
    | [] => head ps
    | c :: cs' => elect cs' (narrow c ps)
    end
  end.

(** The candidates left when all four criteria are applied, one after the
    other, without stopping early. *)
Definition cascade (ps : list BGPPath) : list BGPPath :=
  fold_left (fun l c => narrow c l) criteria ps.

(** [b] is at least as good as [q] in the lexicographic order of the four
    criteria. *)
Definition at_least_as_good (b q : BGPPath) : Prop :=
  localPref q < localPref b ∨ (localPref q = localPref b ∧
  (asPathLength b < asPathLength q ∨ (asPathLength b = asPathLength q ∧
  (med b < med q ∨ (med b = med q ∧ igpCost b ≤ igpCost q))))).

(** A candidate with the given local preference, AS-path length, MED and
    IGP cost. *)
Definition cand (lp asl m igp : Z) (p : list string) : BGPPath :=
  mkBGP p igp lp asl m igp.

End Election.

(** What the scenario's theorem observes of an outcome. *)
Definition observe (dest : string) (o : outcome AlgorithmResult)
    : option (option num * list jsval) :=
  match o with
  | Returned r => Some (distances r !! dest, res_path r)
  | _ => None
  end.

(** ** Small topologies used as concrete inputs *)

(** A line A - B - C. *)
Definition line_nodes : list Node := [nd "A"; nd "B"; nd "C"].
Definition line_edges : list Edge := [ed "A" "B" 1; ed "B" "C" 1].

(** A triangle with a costly direct link A - B and a cheap detour by C. *)
Definition tri_nodes : list Node := [nd "A"; nd "B"; nd "C"].
Definition tri_edges : list Edge := [ed "A" "B" 10; ed "A" "C" 1; ed "C" "B" 1].

(** Two generators: one that always returns 0, and one whose seventh call
    returns 0.99. *)
Definition rng_zero : nat → Q := fun _ => 0%Q.
Definition rng_seventh : nat → Q := fun k => if (k =? 6)%nat then (99 # 100)%Q else 0%Q.

(** ** The routing table of the policy selector, described

    [has_row] tells whether the loop body emits a row for a node: the node
    is not the source and some enumerated path ends at it.  [row_ok] is what
    a row holds: an enumerated path ending at the row's destination, with
    the link-weight sum of that path as cost. *)
Definition has_row (source : string) (allPaths : list (list string)) (n : Node) : bool :=
  bool_decide (n_id n ≠ source
               ∧ filter (fun p => last p = Some (n_id n)) allPaths ≠ []).

Definition row_ok (edges : list Edge) (allPaths : list (list string))
    (row : RoutingTableEntry) : Prop :=
  ∃ p, p ∈ allPaths
       ∧ last p = Some (destination row)
       ∧ path row = map JStr p
       ∧ cost row = Fin (BGPPathSelection.calculatePathWeight p edges)
       ∧ hops row = Z.of_nat (length p) - 1.

(** ** Walks of the graph, reachability and shortest distances

    The notions the specification appeals to.  [ids] are the node ids,
    [arc u v w] says that [v] is reached from [u] over a link of weight [w];
    a walk starts at the source and follows arcs. *)

Definition node_ids (nodes : list Node) : gset string :=
  list_to_set (map n_id nodes).

Section Walks.
Variable ids : gset string.
Variable arc : string → string → Z → Prop.
Variable source : string.

(** [wpath x n c]: a walk from the source to [x] with [n] arcs and total
    weight [c]. *)
Inductive wpath : string → nat → Z → Prop :=
| wpath_source : source ∈ ids → wpath source 0 0
| wpath_step u v w n c : wpath u n c → arc u v w → wpath v (S n) (c + w).

Definition reachable (x : string) : Prop := ∃ n c, wpath x n c.

(** [a] is the least total weight of a walk from the source to [x]. *)
Definition shortest (x : string) (a : Z) : Prop :=
  (∃ n, wpath x n a) ∧ ∀ n c, wpath x n c → a ≤ c.

End Walks.

(** The arcs of an edge list: every edge, in both directions, between
    listed nodes. *)
Definition joined (e : Edge) (u v : string) : Prop :=
  (e_source e = u ∧ e_target e = v) ∨ (e_target e = u ∧ e_source e = v).

Definition edge_arc (nodes : list Node) (edges : list Edge)
    (u v : string) (w : Z) : Prop :=
  u ∈ node_ids nodes ∧ v ∈ node_ids nodes
  ∧ ∃ e, e ∈ edges ∧ e_weight e = w ∧ joined e u v.

(** The input conventions of the specification's data model. *)
Definition endpoints_exist (nodes : list Node) (edges : list Edge) : Prop :=
  ∀ e, e ∈ edges → e_source e ∈ node_ids nodes ∧ e_target e ∈ node_ids nodes.

Definition weights_nonneg (edges : list Edge) : Prop :=
  ∀ e, e ∈ edges → 0 ≤ e_weight e.

(** At most one weight per pair of nodes: edges that join the same two
    nodes, in either direction, carry the same weight. *)
Definition one_weight_per_link (edges : list Edge) : Prop :=
  ∀ e1 e2 u v, e1 ∈ edges → e2 ∈ edges → joined e1 u v → joined e2 u v →
               e_weight e1 = e_weight e2.

(** [k] full passes of Bellman-Ford's relaxation loop. *)
Definition k_passes (k : nat) (edges : list Edge) (st : sp_state) : sp_state :=
  Nat.iter k (fun s => (BellmanFordAlgorithm.pass edges s).1) st.

(** A three-node cycle whose weights sum to a negative number. *)
Definition neg_nodes : list Node := [nd "A"; nd "B"; nd "C"].
Definition neg_edges : list Edge := [ed "A" "B" 1; ed "B" "C" (-3); ed "C" "A" 1].

(** ** Predicates on the state of the shortest-path engines *)

(** The keys of both maps are the node ids. *)
Definition keys_ok (ids : gset string) (st : sp_state) : Prop :=
  dom (st_dist st) = ids ∧ dom (st_prev st) = ids.

(** The distance of [x] is finite. *)
Definition fin_at (st : sp_state) (x : string) : Prop :=
  ∃ a, st_dist st !! x = Some (Fin a).

(** Two nodes joined by one link of negative weight. *)
Definition pair_nodes : list Node := [nd "A"; nd "B"].
Definition pair_edge : Edge := ed "A" "B" (-1).

(** ** Reversing an edge *)

(** The edge [(v, u, w)] for the edge [(u, v, w)]. *)
Definition reverse_edge (e : Edge) : Edge :=
  mkEdge (e_id e) (e_target e) (e_source e) (e_weight e) (e_status e).

(** [e'] is [e] or its reversal. *)
Definition same_link (e e' : Edge) : Prop := e' = e ∨ e' = reverse_edge e.

(** An edge of negative weight between two keys of the distance map, one
    of which has a finite distance. *)
Definition hot (st : sp_state) (e : Edge) : Prop :=
  e_weight e < 0
  ∧ is_Some (st_dist st !! e_source e) ∧ is_Some (st_dist st !! e_target e)
  ∧ (fin_at st (e_source e) ∨ fin_at st (e_target e)).

(** Two runs that no longer hold the same state are still in step when
    each holds a state with a hot edge of [E]. *)
Definition in_step (E : Edge → Prop) (st st' : sp_state) : Prop :=
  (∃ e, E e ∧ hot st e) ∧ (∃ e, E e ∧ hot st' e).

(** ** The relaxation both engines perform, and what it preserves *)

(** [if (distances[u] + w < distances[v]) { distances[v] = distances[u] + w;
    previous[v] = u; }], guarded as in the source. *)
Definition relax (st : sp_state) (u v : string) (w : Z) : sp_state :=
  match st_dist st !! u with
  | Some (Fin a) =>
    if BellmanFordAlgorithm.can_relax (st_dist st) u v w
    then {| st_dist := <[v := Fin (a + w)]> (st_dist st);
            st_prev := <[v := Some u]> (st_prev st) |}
    else st
  | _ => st
  end.

(** The arcs of Dijkstra's adjacency list. *)
Definition graph_arc (g : gmap string (list (string * Z))) (u v : string) (w : Z) : Prop :=
  ∃ adj, g !! u = Some adj ∧ DijkstraAlgorithm.obj_get adj v = Some w.

Section Invariants.
Variable ids : gset string.
Variable arc : string → string → Z → Prop.
Variable source : string.

(** Every finite distance is the weight of a walk from the source. *)
Definition witnessed (st : sp_state) : Prop :=
  ∀ x a, st_dist st !! x = Some (Fin a) → ∃ n, wpath ids arc source x n a.

(** A node with a predecessor has a finite distance, and so has the
    predecessor. *)
Definition pred_ok (st : sp_state) : Prop :=
  ∀ x p, st_prev st !! x = Some (Some p) → fin_at st p ∧ fin_at st x.

(** The predecessor links descend in the lexicographic order of distance
    and a rank, so that they form no cycle. *)
Definition ranked (st : sp_state) : Prop :=
  ∃ rank : string → nat, ∀ x p a b,
    st_prev st !! x = Some (Some p) →
    st_dist st !! p = Some (Fin a) → st_dist st !! x = Some (Fin b) →
    0 ≤ a ∧ (a < b ∨ (a = b ∧ (rank p < rank x)%nat)).

Definition source_zero (st : sp_state) : Prop :=
  source ∈ ids → st_dist st !! source = Some (Fin 0).

Definition nonneg_dist (st : sp_state) : Prop :=
  ∀ x a, st_dist st !! x = Some (Fin a) → 0 ≤ a.

Record sp_inv (st : sp_state) : Prop := {
  inv_keys : keys_ok ids st;
  inv_witnessed : witnessed st;
  inv_pred : pred_ok st
}.

Record sp_inv_nonneg (st : sp_state) : Prop := {
  inv_any : sp_inv st;
  inv_ranked : ranked st;
  inv_source : source_zero st;
  inv_nonneg : nonneg_dist st
}.

End Invariants.

(** ** Walks as lists of steps

    A step [(v, w)] goes to [v] over an arc of weight [w]. *)

Section StepWalks.
Variable arc : string → string → Z → Prop.

Fixpoint lwalk (from : string) (steps : list (string * Z)) : Prop :=
  match steps with
  | [] => True
  | (v, w) :: r => arc from v w ∧ lwalk v r
  end.

Fixpoint endv (from : string) (steps : list (string * Z)) : string :=
  match steps with
  | [] => from
  | (v, _) :: r => endv v r
  end.

Definition steps_cost (steps : list (string * Z)) : Z :=
  foldr (fun s acc => s.2 + acc) 0 steps.

End StepWalks.

(** Distances only decrease: what is finite in [st] is finite and not
    larger in [st']. *)
Definition dist_le (st' st : sp_state) : Prop :=
  ∀ x a, st_dist st !! x = Some (Fin a) →
         ∃ a', st_dist st' !! x = Some (Fin a') ∧ a' ≤ a.

(** ** Dijkstra's loop, described *)

(** [a ≤ b] on distances. *)
Definition num_le (a b : num) : Prop := num_ltb b a = false.

(** The total cost the comparison panel reports for a result
    (AlgorithmComparison, [getResultSummary]):
    [result.path.length > 0 ? result.distances[destinationNode] : Infinity]. *)
Definition totalCost (r : AlgorithmResult) (dest : string) : option num :=
  match res_path r with
  | [] => Some Inf
  | _ => distances r !! dest
  end.

(** A node with a finite distance and no predecessor is the source. *)
Definition root_ok (source : string) (st : sp_state) : Prop :=
  ∀ x a, st_dist st !! x = Some (Fin a) → st_prev st !! x = Some None → x = source.

Section DijkstraLoop.
Variable ids : gset string.
Variable g : gmap string (list (string * Z)).
Variable source : string.

(** What holds of the state at the head of every pass: the visited and the
    unvisited nodes split the node ids; a visited node has a finite
    distance, which no walk undercuts ([li_exact]), which bounds the
    distance of its neighbours ([li_closed]) and which is at most the
    distance of any unvisited node ([li_order]). *)
Record loop_inv (s : DijkstraAlgorithm.dstate) : Prop := {
  li_inv : sp_inv_nonneg ids (graph_arc g) source (DijkstraAlgorithm.d_st s);
  li_part : ∀ x, x ∈ ids ↔
              (x ∈ DijkstraAlgorithm.d_visited s ∨ x ∈ DijkstraAlgorithm.d_unvisited s);
  li_disj : ∀ x, x ∈ DijkstraAlgorithm.d_visited s →
                 x ∈ DijkstraAlgorithm.d_unvisited s → False;
  li_nodup : NoDup (DijkstraAlgorithm.d_unvisited s);
  li_fin : ∀ x, x ∈ DijkstraAlgorithm.d_visited s → fin_at (DijkstraAlgorithm.d_st s) x;
  li_closed : ∀ u v w a,
      u ∈ DijkstraAlgorithm.d_visited s → graph_arc g u v w →
      st_dist (DijkstraAlgorithm.d_st s) !! u = Some (Fin a) →
      ∃ b, st_dist (DijkstraAlgorithm.d_st s) !! v = Some (Fin b) ∧ b ≤ a + w;
  li_order : ∀ u y a b,
      u ∈ DijkstraAlgorithm.d_visited s → y ∈ DijkstraAlgorithm.d_unvisited s →
      st_dist (DijkstraAlgorithm.d_st s) !! u = Some (Fin a) →
      st_dist (DijkstraAlgorithm.d_st s) !! y = Some (Fin b) → a ≤ b;
  li_exact : ∀ u a n c,
      u ∈ DijkstraAlgorithm.d_visited s →
      st_dist (DijkstraAlgorithm.d_st s) !! u = Some (Fin a) →
      wpath ids (graph_arc g) source u n c → a ≤ c
}.

(** How the loop ends: the destination has been visited, or no unvisited
    node has a finite distance. *)
Definition loop_done (dest : string) (s : DijkstraAlgorithm.dstate) : Prop :=
  dest ∈ DijkstraAlgorithm.d_visited s
  ∨ ∀ y, y ∈ DijkstraAlgorithm.d_unvisited s →
         st_dist (DijkstraAlgorithm.d_st s) !! y = Some Inf.

End DijkstraLoop.

(** A detour: C is reached from A directly at cost 5, and by B and D at
    cost 3. *)
Definition detour_nodes : list Node := [nd "A"; nd "B"; nd "C"; nd "D"].
Definition detour_edges : list Edge :=
  [ed "A" "B" 1; ed "A" "C" 5; ed "B" "D" 1; ed "D" "C" 1].

(** ** Routes

    [tight] and [linked] say how the predecessor links sit on the arcs:
    [previous[x] = p] lies on an arc from [p] to [x] whose weight, added to
    the distance of [p], is at most ([tight]) or exactly ([linked]) the
    distance of [x]. *)
Definition tight (arc : string → string → Z → Prop) (st : sp_state) : Prop :=
  ∀ x p, st_prev st !! x = Some (Some p) →
    ∃ a b w, st_dist st !! p = Some (Fin a) ∧ st_dist st !! x = Some (Fin b)
             ∧ arc p x w ∧ a + w ≤ b.

Definition linked (arc : string → string → Z → Prop) (st : sp_state) : Prop :=
  ∀ x p, st_prev st !! x = Some (Some p) →
    ∃ a w, st_dist st !! p = Some (Fin a) ∧ arc p x w
           ∧ st_dist st !! x = Some (Fin (a + w)).

(** [p] is a route from [source] to [x] of total weight [a]: the source,
    followed by the nodes that a list of steps along arcs reaches, the
    last of which is [x]. *)
Definition is_route (arc : string → string → Z → Prop) (source x : string)
    (p : list jsval) (a : Z) : Prop :=
  ∃ steps, p = JStr source :: map (λ s, JStr s.1) steps
           ∧ lwalk arc source steps ∧ endv source steps = x
           ∧ steps_cost steps = a.

(** A row of a routing table that describes a route of at least one link:
    its path is the route, its cost the weight of the route, its hop count
    the number of links, and its next hop the node the first link leads
    to. *)
Definition row_is_route (arc : string → string → Z → Prop) (source : string)
    (row : RoutingTableEntry) : Prop :=
  ∃ nh w rest a,
    path row = JStr source :: map (λ s, JStr s.1) ((nh, w) :: rest)
    ∧ lwalk arc source ((nh, w) :: rest)
    ∧ endv source ((nh, w) :: rest) = destination row
    ∧ steps_cost ((nh, w) :: rest) = a
    ∧ cost row = Fin a
    ∧ hops row = Z.of_nat (length ((nh, w) :: rest))
    ∧ nextHop row = JStr nh.

(** The distance of the source never exceeds 0. *)
Definition source_le0 (source : string) (st : sp_state) : Prop :=
  ∀ b, st_dist st !! source = Some b → ∃ a, b = Fin a ∧ a ≤ 0.

(** A link of negative weight that the source A does not reach, and a link
    to a node that is not listed. *)
Definition island_nodes : list Node := [nd "A"; nd "B"; nd "C"; nd "D"].
Definition island_edges : list Edge := [ed "A" "B" 1; ed "C" "D" (-1)].
Definition dangling_edges : list Edge := [ed "A" "B" 1; ed "B" "Z" 1].

(** The edges whose two endpoints are listed nodes. *)
Definition listed_edges (nodes : list Node) (edges : list Edge) : list Edge :=
  filter (λ e, e_source e ∈ node_ids nodes ∧ e_target e ∈ node_ids nodes) edges.

(** ** Loop-free routes, as the policy selector enumerates them

    [chained edges p]: every two consecutive nodes of [p] are joined by a
    link of the list.  A simple route from [start] to [end_] is a chained
    list of distinct nodes that begins at [start] and ends at [end_]; the
    enumeration never follows a link to a node whose id is the empty
    string. *)
Fixpoint chained (edges : list Edge) (p : list string) : Prop :=
  match p with
  | a :: (b :: _) as rest => (∃ e, e ∈ edges ∧ joined e a b) ∧ chained edges rest
  | _ => True
  end.

Definition simple_route (edges : list Edge) (start end_ : string)
    (p : list string) : Prop :=
  head p = Some start ∧ last p = Some end_ ∧ NoDup p ∧ chained edges p
  ∧ "" ∉ tail p.

(** ** The single-engine page (components/RouterSimulation.tsx) *)

Module RouterSimulation.

(** The component state [dijkstraState]. *)
Record DijkstraState := mkDS {
  ds_distances : gmap string num;
  ds_previous : gmap string (option string);
  ds_visited : gset string;
  ds_path : list jsval;
  isRunning : bool;
  currentNode : option string
}.

(** [Object.keys(graph)] for the [graph] of [buildGraph]: its keys are the
    node ids, assigned by [nodes.forEach(node => { graph[node.id] = {}; })],
    and the links add none.  The order is that of [Object.keys], see
    [DijkstraAlgorithm.obj_keys]; the values play no part in it. *)
Definition graph_keys (nodes : list Node) : list string :=
  DijkstraAlgorithm.obj_keys
    (map (λ id, (id, 0)) (DijkstraAlgorithm.new_set (map n_id nodes))).

(** [Object.keys(graph).forEach((node) => { distances[node] = node ===
    sourceNode ? 0 : Infinity; previous[node] = null; })] *)
Definition init_key (sourceNode : string) (st : sp_state) (node : string) : sp_state :=
  {| st_dist := <[node := if decide (node = sourceNode) then Fin 0 else Inf]> (st_dist st);
     st_prev := <[node := None]> (st_prev st) |}.

(** [runDijkstra], as the state it leaves in [dijkstraState]: [prev] when
    the guard returns at once, and otherwise the argument of the last
    [setDijkstraState].  [buildGraph] is the adjacency list of
    [DijkstraAlgorithm.execute], statement for statement, and so is the
    [while] loop, which only lacks the iteration counter; the [await] and
    the status updates between its statements do not touch the variables
    of the loop.  The path is stored as the walk leaves it. *)
Definition runDijkstra (fuel : nat) (nodes : list Node) (edges : list Edge)
    (sourceNode destinationNode : string) (prev : DijkstraState)
    : outcome DijkstraState :=
  (* [!sourceNode || !destinationNode || sourceNode === destinationNode] *)
  if decide (sourceNode = "" ∨ destinationNode = "" ∨ sourceNode = destinationNode)
  then Returned prev
  else
    match DijkstraAlgorithm.build_graph nodes edges with
    | None => Thrown TypeError
    | Some graph =>
      let keys := graph_keys nodes in
      let unvisited := DijkstraAlgorithm.new_set keys in
      let st0 := fold_left (init_key sourceNode) keys (mkSt ∅ ∅) in
      let s := DijkstraAlgorithm.loop (length unvisited) graph destinationNode
                 (DijkstraAlgorithm.mkD st0 ∅ unvisited O) in
      match walk fuel (st_prev (DijkstraAlgorithm.d_st s)) (JStr destinationNode) [] with
      | None => OutOfFuel
      | Some path =>
        Returned {| ds_distances := st_dist (DijkstraAlgorithm.d_st s);
                    ds_previous := st_prev (DijkstraAlgorithm.d_st s);
                    ds_visited := DijkstraAlgorithm.d_visited s;
                    ds_path := path;
                    isRunning := false;
                    currentNode := None |}
      end
    end.

(** [onAddEdge], here and in EnhancedRouterSimulation.tsx: [edges] is the
    list the callback closes over, [prev] the list the updater of
    [setEdges] receives, and [r] the value of [Math.random()]; the result
    is the new list of links. *)
Definition onAddEdge (r : Q) (edges prev : list Edge) (sourceId targetId : string)
    : list Edge :=
  let weight := Qfloor (r * 8) + 1 in
  let edgeId := String.append sourceId (String.append "-" targetId) in
  if existsb (λ e, bool_decide ((e_source e = sourceId ∧ e_target e = targetId)
                                ∨ (e_source e = targetId ∧ e_target e = sourceId)))
             edges
  then prev
  else prev ++ [mkEdge edgeId sourceId targetId weight ESDefault].

End RouterSimulation.

(** No two links of the list join the same two nodes. *)
Definition single_links (edges : list Edge) : Prop :=
  ∀ i j e1 e2 u v, edges !! i = Some e1 → edges !! j = Some e2 →
                   joined e1 u v → joined e2 u v → i = j.

(** A node that stands for a key of the adjacency list. *)
Definition key_node (id : string) : Node := mkNode id 0 0 id NSDefault.

(** Node ids that are array indices, listed out of their numeric order. *)
Definition numbered_nodes : list Node := [nd "10"; nd "9"; nd "b"; nd "2"].
Definition numbered_edges : list Edge := [ed "10" "b" 1; ed "b" "9" 1; ed "9" "2" 1].

(** ** The page with the three tabs (components/EnhancedRouterSimulation.tsx) *)

Module EnhancedRouterSimulation.

(** The four state variables of the component that the callbacks below
    read or set. *)
Record PageState := mkPage {
  nodes : list Node;
  edges : list Edge;
  sourceNode : string;
  destinationNode : string
}.

(** [onTopologyChange(newNodes, newEdges)]; [s] holds the values of
    [sourceNode] and [destinationNode] that the callback closes over.
    [newNodes.find(...)] yields a node, which is truthy, or [undefined];
    the fallback of the destination is
    [newNodes[newNodes.length - 1]?.id || newNodes[0].id]. *)
Definition onTopologyChange (newNodes : list Node) (newEdges : list Edge)
    (s : PageState) : PageState :=
  let found id := existsb (λ n, bool_decide (n_id n = id)) newNodes in
  match newNodes with
  | [] => mkPage newNodes newEdges (sourceNode s) (destinationNode s)
  | first :: _ =>
    mkPage newNodes newEdges
      (if found (sourceNode s) then sourceNode s else n_id first)
      (if found (destinationNode s) then destinationNode s
       else match last newNodes with
            | Some l => if decide (n_id l = "") then n_id first else n_id l
            | None => n_id first
            end)
  end.

End EnhancedRouterSimulation.

(** ** The comparison panel (components/AlgorithmComparison.tsx) *)

Module AlgorithmComparison.

(** The three entries of the array [algorithms]. *)
Inductive algorithm := Dijkstra | BellmanFord | BGP.

Definition name (alg : algorithm) : string :=
  match alg with
  | Dijkstra => "Dijkstra"
  | BellmanFord => "Bellman-Ford"
  | BGP => "BGP"
  end.

Definition algorithms : list algorithm := [Dijkstra; BellmanFord; BGP].

(** [algorithm.execute(nodes, edges, sourceNode, destinationNode)].  Each
    entry holds the static method of its engine as its own property
    [execute], so the call runs the method with [this] bound to the entry.
    The bodies of [DijkstraAlgorithm.execute] and
    [BellmanFordAlgorithm.execute] do not mention [this].  The body of
    [BGPPathSelection.execute] begins with [this.findAllPaths(...)], and
    the entry has no property [findAllPaths]: the call of [undefined]
    throws a [TypeError] before anything else is done. *)
Definition call (alg : algorithm) (fuel : nat) (nodes : list Node) (edges : list Edge)
    (sourceNode destinationNode : string) : outcome AlgorithmResult :=
  match alg with
  | Dijkstra => DijkstraAlgorithm.execute fuel nodes edges sourceNode destinationNode
  | BellmanFord => BellmanFordAlgorithm.execute fuel nodes edges sourceNode destinationNode
  | BGP => Thrown TypeError
  end.

(** The body of [for (const algorithm of algorithms)]: [try { newResults[
    algorithm.name] = algorithm.execute(...); ... } catch (error) {
    console.error(...) }]. *)
Definition run_step (fuel : nat) (nodes : list Node) (edges : list Edge)
    (sourceNode destinationNode : string)
    (acc : outcome (gmap string AlgorithmResult)) (alg : algorithm)
    : outcome (gmap string AlgorithmResult) :=
  match acc with
  | Returned newResults =>
    match call alg fuel nodes edges sourceNode destinationNode with
    | Returned result => Returned (<[name alg := result]> newResults)
    | Thrown _ => Returned newResults
    | OutOfFuel => OutOfFuel
    end
  | _ => acc
  end.

(** [runAllAlgorithms], as the value it leaves in the state [results]:
    [results] itself when the guard returns at once, and otherwise the
    argument of [setResults].  The visualisation that it starts for each
    result and the pauses between the engines touch no variable of the
    loop. *)
Definition runAllAlgorithms (fuel : nat) (nodes : list Node) (edges : list Edge)
    (sourceNode destinationNode : string) (results : gmap string AlgorithmResult)
    : outcome (gmap string AlgorithmResult) :=
  if decide (sourceNode = destinationNode) then Returned results
  else fold_left (run_step fuel nodes edges sourceNode destinationNode) algorithms
                 (Returned ∅).

(** [runSingleAlgorithm(algorithmName)], likewise: the updater of
    [setResults] adds the result to the previous results. *)
Definition runSingleAlgorithm (fuel : nat) (algorithmName : string)
    (nodes : list Node) (edges : list Edge) (sourceNode destinationNode : string)
    (results : gmap string AlgorithmResult) : outcome (gmap string AlgorithmResult) :=
  if decide (sourceNode = destinationNode) then Returned results
  else
    match find (λ alg, bool_decide (name alg = algorithmName)) algorithms with
    | None => Returned results
    | Some alg =>
      match call alg fuel nodes edges sourceNode destinationNode with
      | Returned result => Returned (<[algorithmName := result]> results)
      | Thrown _ => Returned results
      | OutOfFuel => OutOfFuel
      end
    end.

End AlgorithmComparison.

(** ** Checking a topology (utils/NetworkTopology.ts) *)

Module TopologyManager.

(** The topology of [generateSampleTopology]. *)
Definition sample_nodes : list Node :=
  [mkNode "R1" 150 100 "R1" NSDefault; mkNode "R2" 350 80 "R2" NSDefault;
   mkNode "R3" 550 120 "R3" NSDefault; mkNode "R4" 250 280 "R4" NSDefault;
   mkNode "R5" 450 260 "R5" NSDefault; mkNode "SW1" 350 180 "SW1" NSDefault].

Definition sample_edges : list Edge :=
  [mkEdge "R1-R2" "R1" "R2" 10 ESDefault; mkEdge "R1-R4" "R1" "R4" 5 ESDefault;
   mkEdge "R2-R3" "R2" "R3" 8 ESDefault; mkEdge "R2-SW1" "R2" "SW1" 2 ESDefault;
   mkEdge "R3-R5" "R3" "R5" 6 ESDefault; mkEdge "R4-SW1" "R4" "SW1" 4 ESDefault;
   mkEdge "R4-R5" "R4" "R5" 12 ESDefault; mkEdge "SW1-R5" "SW1" "R5" 3 ESDefault].

(** [arr.findIndex(n => n.id === id)]; [None] stands for -1. *)
Definition findIndex (id : string) (arr : list Node) : option nat :=
  fst <$> list_find (λ n, n_id n = id) arr.

(** [nodes.filter((node, index, arr) => arr.findIndex(n => n.id ===
    node.id) !== index)] *)
Definition duplicateNodes (nodes : list Node) : list Node :=
  map snd (filter (λ p, findIndex (n_id p.2) nodes ≠ Some p.1)
                  (imap (λ index node, (index, node)) nodes)).

(** The text of a weight in a message; weights are integers, which a
    template literal prints as decimal numerals. *)
Definition weight_text (w : Z) : string := pretty w.

(** The body of the [forEach] that checks the links: the messages it
    pushes for one link. *)
Definition edge_errors (nodeIds : gset string) (edge : Edge) : list string :=
  (if decide (e_source edge ∈ nodeIds) then []
   else ["Edge " +:+ e_id edge +:+ " references non-existent source node: "
         +:+ e_source edge])
  ++ (if decide (e_target edge ∈ nodeIds) then []
      else ["Edge " +:+ e_id edge +:+ " references non-existent target node: "
            +:+ e_target edge])
  ++ (if decide (e_weight edge ≤ 0)
      then ["Edge " +:+ e_id edge +:+ " has invalid weight: "
            +:+ weight_text (e_weight edge)]
      else []).

Definition validateTopology (nodes : list Node) (edges : list Edge) : list string :=
  let nodeIds : gset string := list_to_set (map n_id nodes) in
  let errors :=
    match duplicateNodes nodes with
    | [] => []
    | _ => ["Duplicate node IDs found"]
    end in
  let errors := errors ++ flat_map (edge_errors nodeIds) edges in
  let connectedNodes : gset string :=
    list_to_set (flat_map (λ edge, [e_source edge; e_target edge]) edges) in
  let isolatedNodes := filter (λ node, n_id node ∉ connectedNodes) nodes in
  match isolatedNodes with
  | [] => errors
  | _ => errors ++ ["Isolated nodes found: "
                    +:+ String.concat ", " (map n_id isolatedNodes)]
  end.

End TopologyManager.

(** A topology with a repeated id, a link to an unlisted node, a link of
    weight 0 and a node without links. *)
Definition faulty_nodes : list Node := [nd "A"; nd "B"; nd "A"; nd "C"].
Definition faulty_edges : list Edge := [ed "A" "B" 0; ed "B" "Z" 2].

(** ** The graph view (components/NetworkGraph.tsx) and the page behind it *)

Module NetworkGraph.

(** The state of the view, [dragging], [dragOffset] and [connecting],
    together with the two lists that the page holds and hands down as the
    props [nodes] and [edges].  Pixel coordinates are integers, as in
    [Node]. *)
Record ViewState := mkView {
  v_nodes : list Node;
  v_edges : list Edge;
  dragging : option string;
  dragOffset : Z * Z;
  connecting : option string
}.

Record MouseEvent := mkMouse { clientX : Z; clientY : Z; shiftKey : bool }.

(** [svgRef.current.getBoundingClientRect()] *)
Record DOMRect := mkRect { r_left : Z; r_top : Z; r_width : Z; r_height : Z }.

(** The callback [onNodeDrag] of the page, the same in RouterSimulation.tsx
    and EnhancedRouterSimulation.tsx, as the updater of [setNodes]. *)
Definition onNodeDrag (nodeId : string) (x y : Z) (prev : list Node) : list Node :=
  map (λ node, if decide (n_id node = nodeId)
               then mkNode (n_id node) x y (n_label node) (n_status node)
               else node) prev.

(** [handleMouseDown(nodeId, event)].  Both pages pass [onAddEdge]; [r] is
    the value of the [Math.random()] that [onAddEdge] draws when it is
    called.  [if (connecting)]: [null] and the empty string are falsy. *)
Definition handleMouseDown (r : Q) (nodeId : string) (event : MouseEvent)
    (s : ViewState) : ViewState :=
  match find (λ n, bool_decide (n_id n = nodeId)) (v_nodes s) with
  | None => s
  | Some node =>
    if shiftKey event then
      match connecting s with
      | Some c =>
        if decide (c = "")
        then mkView (v_nodes s) (v_edges s) (dragging s) (dragOffset s) (Some nodeId)
        else
          mkView (v_nodes s)
                 (if decide (c ≠ nodeId)
                  then RouterSimulation.onAddEdge r (v_edges s) (v_edges s) c nodeId
                  else v_edges s)
                 (dragging s) (dragOffset s) None
      | None => mkView (v_nodes s) (v_edges s) (dragging s) (dragOffset s) (Some nodeId)
      end
    else
      mkView (v_nodes s) (v_edges s) (Some nodeId)
             (clientX event - n_x node, clientY event - n_y node) (connecting s)
  end.

(** [handleMouseMove(event)]; [rect] is the bounding rectangle of the
    [svg] element, which is mounted when it delivers the event. *)
Definition handleMouseMove (event : MouseEvent) (rect : DOMRect) (s : ViewState)
    : ViewState :=
  match dragging s with
  | Some d =>
    if decide (d = "") then s
    else
      let x := clientX event - r_left rect - (dragOffset s).1 in
      let y := clientY event - r_top rect - (dragOffset s).2 in
      mkView (onNodeDrag d (Z.max 30 (Z.min x (r_width rect - 30)))
                           (Z.max 30 (Z.min y (r_height rect - 30))) (v_nodes s))
             (v_edges s) (dragging s) (dragOffset s) (connecting s)
  | None => s
  end.

Definition handleMouseUp (s : ViewState) : ViewState :=
  mkView (v_nodes s) (v_edges s) None (0, 0) (connecting s).

(** What the user does on the graph: press the button on a node, move the
    pointer, release the button (or leave the drawing). *)
Inductive event :=
| MouseDown (r : Q) (nodeId : string) (e : MouseEvent)
| MouseMove (e : MouseEvent) (rect : DOMRect)
| MouseUp.

Definition step (s : ViewState) (ev : event) : ViewState :=
  match ev with
  | MouseDown r nodeId e => handleMouseDown r nodeId e s
  | MouseMove e rect => handleMouseMove e rect s
  | MouseUp => handleMouseUp s
  end.

Definition run (s : ViewState) (evs : list event) : ViewState := fold_left step evs s.

End NetworkGraph.

(** The random draws of a list of events are values of [Math.random()]. *)
Definition draws_ok (evs : list NetworkGraph.event) : Prop :=
  ∀ r nodeId e, NetworkGraph.MouseDown r nodeId e ∈ evs → (0 <= r)%Q ∧ (r < 1)%Q.

(** A topology as the engines expect it: the links join listed nodes, no
    weight is negative, no two links join the same two nodes and no link
    joins a node to itself. *)
Definition well_formed (nodes : list Node) (edges : list Edge) : Prop :=
  endpoints_exist nodes edges ∧ weights_nonneg edges ∧ single_links edges
  ∧ ∀ e, e ∈ edges → e_source e ≠ e_target e.

(** Shift-click on A, then on C; drag B; shift-click on C twice. *)
Definition some_clicks : list NetworkGraph.event :=
  [NetworkGraph.MouseDown 0 "A" (NetworkGraph.mkMouse 150 100 true);
   NetworkGraph.MouseDown (7 # 8) "C" (NetworkGraph.mkMouse 550 120 true);
   NetworkGraph.MouseDown 0 "B" (NetworkGraph.mkMouse 355 85 false);
   NetworkGraph.MouseMove (NetworkGraph.mkMouse 900 (-20) false)
                          (NetworkGraph.mkRect 10 10 800 500);
   NetworkGraph.MouseUp;
   NetworkGraph.MouseDown 0 "C" (NetworkGraph.mkMouse 550 120 true);
   NetworkGraph.MouseDown 0 "C" (NetworkGraph.mkMouse 550 120 true)].

(** ** The summary card of the comparison panel (AlgorithmComparison.tsx)

    [getResultSummary(algorithmName)] reads the state [results] and the
    prop [destinationNode]; it returns [null], here [None], when there is
    no result of that name.  The field [totalCost], here [sm_totalCost],
    is [result.distances[destinationNode]], which is [undefined], here
    [None], for a key that the map lacks.  The field [executionTime] is
    telemetry and left out. *)
Record ResultSummary := mkSummary {
  sm_pathLength : nat;
  sm_totalCost : option num;
  sm_iterations : nat
}.

Definition getResultSummary (results : gmap string AlgorithmResult)
    (destinationNode : string) (algorithmName : string) : option ResultSummary :=
  match results !! algorithmName with
  | None => None
  | Some result =>
    Some {| sm_pathLength := length (res_path result);
            sm_totalCost := if (0 <? length (res_path result))%nat
                            then distances result !! destinationNode
                            else Some Inf;
            sm_iterations := iterations result |}
  end.

(** ** Showing a result on the graph (EnhancedRouterSimulation.tsx)

    [onVisualizePath(algorithm, result)], as the lists that its updaters of
    [setNodes] and [setEdges] leave when no other update comes between
    them: the pauses change nothing, and [isRunning] is not modelled.
    [keys] is the list [Object.keys(result.distances)]; [sourceNode] and
    [destinationNode] are the values that the callback closes over. *)

Definition set_status (st : NodeStatus) (node : Node) : Node :=
  mkNode (n_id node) (n_x node) (n_y node) (n_label node) st.

Definition set_edge_status (st : EdgeStatus) (edge : Edge) : Edge :=
  mkEdge (e_id edge) (e_source edge) (e_target edge) (e_weight edge) st.

(** [node.id === sourceNode ? 'source' : node.id === destinationNode ?
    'destination' : otherwise] *)
Definition mark_ends (sourceNode destinationNode : string) (node : Node)
    (otherwise : NodeStatus) : NodeStatus :=
  if decide (n_id node = sourceNode) then NSSource
  else if decide (n_id node = destinationNode) then NSDestination
  else otherwise.

(** The body of [for (const nodeId of visitedNodes)]. *)
Definition visit_step (sourceNode destinationNode : string) (prev : list Node)
    (nodeId : string) : list Node :=
  map (λ node, set_status
                 (mark_ends sourceNode destinationNode node
                    (if decide (n_id node = nodeId) then NSVisited else n_status node))
                 node) prev.

(** [result.path.some((node, i) => i < result.path.length - 1 && (...))]:
    some two consecutive cells of the path are the two ends of the edge. *)
Fixpoint isPathEdge (path : list jsval) (edge : Edge) : bool :=
  match path with
  | node :: (next :: _) as rest =>
    bool_decide ((JStr (e_source edge) = node ∧ JStr (e_target edge) = next)
                 ∨ (JStr (e_target edge) = node ∧ JStr (e_source edge) = next))
    || isPathEdge rest edge
  | _ => false
  end.

Definition onVisualizePath (keys : list string) (sourceNode destinationNode : string)
    (result : AlgorithmResult) (nodes : list Node) (edges : list Edge)
    : list Node * list Edge :=
  (* Reset all nodes and edges to default state *)
  let nodes := map (set_status NSDefault) nodes in
  let edges := map (set_edge_status ESDefault) edges in
  (* Highlight source and destination *)
  let nodes :=
    map (λ node, set_status (mark_ends sourceNode destinationNode node NSDefault) node)
        nodes in
  (* Show visited nodes *)
  let visitedNodes :=
    filter (λ nodeId, distances result !! nodeId ≠ Some Inf
                      ∧ nodeId ≠ sourceNode ∧ nodeId ≠ destinationNode) keys in
  let nodes := fold_left (visit_step sourceNode destinationNode) visitedNodes nodes in
  (* Highlight shortest path *)
  if (0 <? length (res_path result))%nat
     && bool_decide (JStr sourceNode ∈ res_path result)
  then
    (map (λ node, set_status
                    (if decide (JStr (n_id node) ∈ res_path result) then NSPath
                     else mark_ends sourceNode destinationNode node NSVisited)
                    node) nodes,
     map (λ edge, set_edge_status
                    (if isPathEdge (res_path result) edge then ESPath else ESVisited)
                    edge) edges)
  else (nodes, edges).

(** The links of a path: [edge] joins two consecutive cells of it. *)
Definition on_path (path : list jsval) (edge : Edge) : Prop :=
  ∃ i a b, path !! i = Some a ∧ path !! S i = Some b
           ∧ ((JStr (e_source edge) = a ∧ JStr (e_target edge) = b)
              ∨ (JStr (e_target edge) = a ∧ JStr (e_source edge) = b)).

(** * Properties *)

(** ** Fuel: a walk that ends keeps its result when given more fuel *)

Lemma walk_mono f f' prev c acc p :
  (f ≤ f')%nat → walk f prev c acc = Some p → walk f' prev c acc = Some p.
Proof.
  revert f' c acc. induction f as [|f IH]; intros f' c acc Hle H.
  - destruct c; simpl in H; try discriminate. destruct f'; exact H.
  - destruct f' as [|f']; [lia|].
    destruct c; simpl in *; try exact H; apply IH; (lia || exact H).
Qed.

Lemma table_step_mono f f' st source acc n t :
  (f ≤ f')%nat → table_step f st source acc n = Some t →
  table_step f' st source acc n = Some t.
Proof.
  intros Hle. unfold table_step. destruct acc as [table|]; [|done].
  destruct (decide (n_id n = source)); [done|].
  destruct (st_dist st !! n_id n) as [[c|]|]; try done.
  destruct (walk f (st_prev st) (JStr (n_id n)) []) as [np|] eqn:E; [|done].
  by rewrite (walk_mono _ _ _ _ _ _ Hle E).
Qed.

Lemma table_fold_mono f f' st source nodes acc t :
  (f ≤ f')%nat →
  fold_left (table_step f st source) nodes acc = Some t →
  fold_left (table_step f' st source) nodes acc = Some t.
Proof.
  intros Hle. revert acc. induction nodes as [|n ns IH]; intros acc H; [done|].
  simpl in *.
  destruct (table_step f st source acc n) as [t1|] eqn:E.
  - rewrite (table_step_mono _ _ _ _ _ _ _ Hle E). by apply IH.
  - exfalso. clear -H. induction ns as [|m ms IHm]; [done|]. by apply IHm.
Qed.

Lemma reconstruct_mono f f' nodes st source dest iters r :
  (f ≤ f')%nat →
  reconstruct f nodes st source dest iters = Returned r →
  reconstruct f' nodes st source dest iters = Returned r.
Proof.
  intros Hle. unfold reconstruct, routing_table.
  destruct (walk f (st_prev st) (JStr dest) []) as [p|] eqn:E; [|done].
  destruct (fold_left (table_step f st source) nodes (Some [])) as [t|] eqn:Et; [|done].
  rewrite (walk_mono _ _ _ _ _ _ Hle E), (table_fold_mono _ _ _ _ _ _ _ Hle Et).
  done.
Qed.

Lemma bf_execute_mono f f' nodes edges source dest r :
  (f ≤ f')%nat →
  BellmanFordAlgorithm.execute f nodes edges source dest = Returned r →
  BellmanFordAlgorithm.execute f' nodes edges source dest = Returned r.
Proof.
  intros Hle. unfold BellmanFordAlgorithm.execute.
  destruct (BellmanFordAlgorithm.passes _ _ _ _) as [st iters].
  destruct (BellmanFordAlgorithm.negative_cycle edges st); [done|].
  by apply reconstruct_mono.
Qed.

Lemma dijkstra_execute_mono f f' nodes edges source dest r :
  (f ≤ f')%nat →
  DijkstraAlgorithm.execute f nodes edges source dest = Returned r →
  DijkstraAlgorithm.execute f' nodes edges source dest = Returned r.
Proof.
  intros Hle. unfold DijkstraAlgorithm.execute.
  destruct (DijkstraAlgorithm.build_graph nodes edges); [|done].
  by apply reconstruct_mono.
Qed.

(** ** C4: the scenario *)

Lemma scenario_dijkstra :
  observe "E" (DijkstraAlgorithm.execute 4 scenario_nodes scenario_edges "A" "E")
  = Some (Some (Fin 8), [JStr "A"; JStr "B"; JStr "F"; JStr "E"]).
Proof. vm_compute. reflexivity. Qed.

Lemma scenario_bellman_ford :
  observe "E" (BellmanFordAlgorithm.execute 4 scenario_nodes scenario_edges "A" "E")
  = Some (Some (Fin 8), [JStr "A"; JStr "B"; JStr "F"; JStr "E"]).
Proof. vm_compute. reflexivity. Qed.

(** C4. On the six-node scenario with source A and destination E, Dijkstra
    returns distance 8 to E and the path A, B, F, E, and Bellman-Ford
    returns the same distance and the same path (for every bound on the
    predecessor walks of at least four steps). *)
Theorem C4_scenario_distance_and_path :
  ∀ fuel, (4 ≤ fuel)%nat →
  ∃ rd rb,
    DijkstraAlgorithm.execute fuel scenario_nodes scenario_edges "A" "E" = Returned rd
    ∧ BellmanFordAlgorithm.execute fuel scenario_nodes scenario_edges "A" "E" = Returned rb
    ∧ distances rd !! "E" = Some (Fin 8)
    ∧ res_path rd = [JStr "A"; JStr "B"; JStr "F"; JStr "E"]
    ∧ distances rb !! "E" = distances rd !! "E"
    ∧ res_path rb = res_path rd.
Proof.
  intros fuel Hf.
  pose proof scenario_dijkstra as Hd. pose proof scenario_bellman_ford as Hb.
  destruct (DijkstraAlgorithm.execute 4 scenario_nodes scenario_edges "A" "E")
    as [rd| |] eqn:Ed; simpl in Hd; [|discriminate Hd..].
  destruct (BellmanFordAlgorithm.execute 4 scenario_nodes scenario_edges "A" "E")
    as [rb| |] eqn:Eb; simpl in Hb; [|discriminate Hb..].
  injection Hd as Hd1 Hd2. injection Hb as Hb1 Hb2.
  exists rd, rb.
  split; [exact (dijkstra_execute_mono 4 fuel _ _ _ _ _ Hf Ed)|].
  split; [exact (bf_execute_mono 4 fuel _ _ _ _ _ Hf Eb)|].
  rewrite Hd1, Hd2, Hb1, Hb2. repeat split; reflexivity.
Qed.

Lemma C4_scenario_witness :
  (4 ≤ 4)%nat ∧
  ∃ rd rb,
    DijkstraAlgorithm.execute 4 scenario_nodes scenario_edges "A" "E" = Returned rd
    ∧ BellmanFordAlgorithm.execute 4 scenario_nodes scenario_edges "A" "E" = Returned rb
    ∧ distances rd !! "E" = Some (Fin 8)
    ∧ res_path rd = [JStr "A"; JStr "B"; JStr "F"; JStr "E"]
    ∧ distances rb !! "E" = distances rd !! "E"
    ∧ res_path rb = res_path rd.
Proof.
  split; [lia|]. apply (C4_scenario_distance_and_path 4). lia.
Defined.

(** ** C5: best-path election *)

Section ElectionFacts.
Import BGPPathSelection Election.

Lemma fold_max_spec r x :
  fold_left Z.max r x ∈ x :: r ∧ ∀ y, y ∈ x :: r → y ≤ fold_left Z.max r x.
Proof.
  revert x. induction r as [|z r IH]; intros x; simpl.
  - split; [set_solver|]. intros y Hy. apply list_elem_of_singleton in Hy. lia.
  - destruct (IH (Z.max x z)) as [Hin Hle]. split.
    + apply elem_of_cons in Hin as [Hin|Hin]; [|set_solver].
      rewrite Hin. destruct (Z.max_spec x z) as [[_ ->]|[_ ->]]; set_solver.
    + intros y Hy.
      assert (y ≤ Z.max x z ∨ y ∈ r) as [H|H].
      { apply elem_of_cons in Hy as [->|Hy]; [left; lia|].
        apply elem_of_cons in Hy as [->|Hy]; [left; lia|by right]. }
      * etrans; [exact H|]. apply Hle. set_solver.
      * apply Hle. set_solver.
Qed.

Lemma fold_min_spec r x :
  fold_left Z.min r x ∈ x :: r ∧ ∀ y, y ∈ x :: r → fold_left Z.min r x ≤ y.
Proof.
  revert x. induction r as [|z r IH]; intros x; simpl.
  - split; [set_solver|]. intros y Hy. apply list_elem_of_singleton in Hy. lia.
  - destruct (IH (Z.min x z)) as [Hin Hle]. split.
    + apply elem_of_cons in Hin as [Hin|Hin]; [|set_solver].
      rewrite Hin. destruct (Z.min_spec x z) as [[_ ->]|[_ ->]]; set_solver.
    + intros y Hy.
      assert (Z.min x z ≤ y ∨ y ∈ r) as [H|H].
      { apply elem_of_cons in Hy as [->|Hy]; [left; lia|].
        apply elem_of_cons in Hy as [->|Hy]; [left; lia|by right]. }
      * etrans; [|exact H]. apply Hle. set_solver.
      * apply Hle. set_solver.
Qed.

Lemma math_max_spec xs m :
  math_max xs = Some m → m ∈ xs ∧ ∀ y, y ∈ xs → y ≤ m.
Proof.
  destruct xs as [|x r]; [done|]. intros [= <-]. apply fold_max_spec.
Qed.

Lemma math_min_spec xs m :
  math_min xs = Some m → m ∈ xs ∧ ∀ y, y ∈ xs → m ≤ y.
Proof.
  destruct xs as [|x r]; [done|]. intros [= <-]. apply fold_min_spec.
Qed.

Lemma math_max_is_Some xs : xs ≠ [] → is_Some (math_max xs).
Proof. destruct xs; [done|]. by eexists. Qed.

Lemma math_min_is_Some xs : xs ≠ [] → is_Some (math_min xs).
Proof. destruct xs; [done|]. by eexists. Qed.

Lemma elem_of_keep attr best ps x :
  x ∈ keep attr best ps ↔ Some (attr x) = best ∧ x ∈ ps.
Proof. unfold keep. by rewrite list_elem_of_filter. Qed.

(** A criterion keeps a candidate exactly when it has the best value, and
    never empties a non-empty set. *)
Lemma narrow_highest attr ps x :
  x ∈ narrow (Highest attr) ps ↔ x ∈ ps ∧ ∀ q, q ∈ ps → attr q ≤ attr x.
Proof.
  unfold narrow. rewrite elem_of_keep. split.
  - intros [Hm Hx]. split; [done|]. intros q Hq.
    symmetry in Hm. apply math_max_spec in Hm as [_ Hle].
    apply Hle, list_elem_of_fmap. by exists q.
  - intros [Hx Hbest]. split; [|done].
    destruct (math_max_is_Some (map attr ps)) as [m Hm].
    { destruct ps; [by apply elem_of_nil in Hx|done]. }
    rewrite Hm. f_equal. apply math_max_spec in Hm as [Hin Hle].
    apply list_elem_of_fmap in Hin as (q & -> & Hq).
    specialize (Hbest q Hq).
    assert (attr x ≤ attr q); [|lia].
    apply Hle, list_elem_of_fmap. by exists x.
Qed.

Lemma narrow_lowest attr ps x :
  x ∈ narrow (Lowest attr) ps ↔ x ∈ ps ∧ ∀ q, q ∈ ps → attr x ≤ attr q.
Proof.
  unfold narrow. rewrite elem_of_keep. split.
  - intros [Hm Hx]. split; [done|]. intros q Hq.
    symmetry in Hm. apply math_min_spec in Hm as [_ Hle].
    apply Hle, list_elem_of_fmap. by exists q.
  - intros [Hx Hbest]. split; [|done].
    destruct (math_min_is_Some (map attr ps)) as [m Hm].
    { destruct ps; [by apply elem_of_nil in Hx|done]. }
    rewrite Hm. f_equal. apply math_min_spec in Hm as [Hin Hle].
    apply list_elem_of_fmap in Hin as (q & -> & Hq).
    specialize (Hbest q Hq).
    assert (attr q ≤ attr x); [|lia].
    apply Hle, list_elem_of_fmap. by exists x.
Qed.

Lemma narrow_nonempty c ps : ps ≠ [] → narrow c ps ≠ [].
Proof.
  intros Hne.
  destruct c as [attr|attr]; unfold narrow.
  - destruct (math_max_is_Some (map attr ps)) as [m Hm]; [by destruct ps|].
    pose proof Hm as Hm'. apply math_max_spec in Hm' as [Hin _].
    apply list_elem_of_fmap in Hin as (q & -> & Hq).
    intros Hnil. assert (q ∈ keep attr (math_max (map attr ps)) ps) as H.
    { apply elem_of_keep. by rewrite Hm. }
    rewrite Hnil in H. by apply elem_of_nil in H.
  - destruct (math_min_is_Some (map attr ps)) as [m Hm]; [by destruct ps|].
    pose proof Hm as Hm'. apply math_min_spec in Hm' as [Hin _].
    apply list_elem_of_fmap in Hin as (q & -> & Hq).
    intros Hnil. assert (q ∈ keep attr (math_min (map attr ps)) ps) as H.
    { apply elem_of_keep. by rewrite Hm. }
    rewrite Hnil in H. by apply elem_of_nil in H.
Qed.

Lemma narrow_singleton c p : narrow c [p] = [p].
Proof.
  destruct c as [attr|attr]; unfold narrow, keep; simpl;
    rewrite filter_cons, filter_nil; by rewrite decide_True.
Qed.

Lemma cascade_nonempty ps : ps ≠ [] → cascade ps ≠ [].
Proof.
  intros H. unfold cascade, criteria. simpl. by do 4 apply narrow_nonempty.
Qed.

(** Stopping early does not change the winner: a single remaining candidate
    passes every later criterion. *)
Lemma elect_run cs ps :
  elect cs ps = head (fold_left (fun l c => narrow c l) cs ps).
Proof.
  revert ps. induction cs as [|c cs IH]; intros ps.
  - simpl. by destruct ps as [|p [|q r]].
  - destruct ps as [|p [|q r]].
    + simpl. apply IH.
    + simpl. rewrite narrow_singleton, <- IH. by destruct cs.
    + simpl. apply IH.
Qed.

Lemma selectBestPath_elect ps : selectBestPath ps = elect criteria ps.
Proof.
  destruct ps as [|p [|q r]]; [done..|].
  unfold selectBestPath, criteria.
  set (l0 := p :: q :: r).
  change (elect (Highest localPref :: [Lowest asPathLength; Lowest med; Lowest igpCost]) l0)
    with (elect [Lowest asPathLength; Lowest med; Lowest igpCost] (narrow (Highest localPref) l0)).
  change (keep localPref (math_max (map localPref l0)) l0) with (narrow (Highest localPref) l0).
  destruct (narrow (Highest localPref) l0) as [|p1 [|q1 r1]] eqn:E1; [| done |].
  { by destruct (narrow_nonempty (Highest localPref) l0). }
  set (l1 := p1 :: q1 :: r1).
  change (elect [Lowest asPathLength; Lowest med; Lowest igpCost] l1)
    with (elect [Lowest med; Lowest igpCost] (narrow (Lowest asPathLength) l1)).
  change (keep asPathLength (math_min (map asPathLength l1)) l1)
    with (narrow (Lowest asPathLength) l1).
  destruct (narrow (Lowest asPathLength) l1) as [|p2 [|q2 r2]] eqn:E2; [| done |].
  { by destruct (narrow_nonempty (Lowest asPathLength) l1). }
  set (l2 := p2 :: q2 :: r2).
  change (elect [Lowest med; Lowest igpCost] l2)
    with (elect [Lowest igpCost] (narrow (Lowest med) l2)).
  change (keep med (math_min (map med l2)) l2) with (narrow (Lowest med) l2).
  destruct (narrow (Lowest med) l2) as [|p3 [|q3 r3]] eqn:E3; [| done |].
  { by destruct (narrow_nonempty (Lowest med) l2). }
  set (l3 := p3 :: q3 :: r3).
  change (elect [Lowest igpCost] l3) with (elect [] (narrow (Lowest igpCost) l3)).
  change (keep igpCost (math_min (map igpCost l3)) l3) with (narrow (Lowest igpCost) l3).
  by destruct (narrow (Lowest igpCost) l3) as [|p4 [|q4 r4]].
Qed.

(** The candidates that survive all four criteria are the lexicographically
    best ones. *)
Lemma elem_of_cascade ps x :
  x ∈ cascade ps ↔ x ∈ ps ∧ ∀ q, q ∈ ps → at_least_as_good x q.
Proof.
  unfold cascade, criteria. simpl.
  rewrite narrow_lowest, narrow_lowest, narrow_lowest, narrow_highest.
  split.
  - intros ((((Hx & H1) & H2) & H3) & H4). split; [done|]. intros q Hq.
    unfold at_least_as_good.
    pose proof (H1 q Hq).
    destruct (decide (localPref q = localPref x)) as [E1|]; [|left; lia].
    right. split; [done|].
    assert (q ∈ narrow (Highest localPref) ps) as Hq1.
    { apply narrow_highest. split; [done|]. intros r Hr. rewrite E1. by apply H1. }
    pose proof (H2 q Hq1).
    destruct (decide (asPathLength x = asPathLength q)) as [E2|]; [|left; lia].
    right. split; [done|].
    assert (q ∈ narrow (Lowest asPathLength) (narrow (Highest localPref) ps)) as Hq2.
    { apply narrow_lowest. split; [done|]. intros r Hr. rewrite <- E2. by apply H2. }
    pose proof (H3 q Hq2).
    destruct (decide (med x = med q)) as [E3|]; [|left; lia].
    right. split; [done|].
    apply H4. apply narrow_lowest. split; [done|]. intros r Hr. rewrite <- E3. by apply H3.
  - intros [Hx Hbest].
    assert (∀ q, q ∈ ps → localPref q ≤ localPref x) as H1.
    { intros q Hq. destruct (Hbest q Hq) as [?|[? _]]; lia. }
    assert (∀ q, q ∈ narrow (Highest localPref) ps → asPathLength x ≤ asPathLength q) as H2.
    { intros q Hq. apply narrow_highest in Hq as [Hq Hm].
      specialize (Hm x Hx).
      destruct (Hbest q Hq) as [?|[? [?|[? _]]]]; lia. }
    assert (∀ q, q ∈ narrow (Lowest asPathLength) (narrow (Highest localPref) ps) →
                 med x ≤ med q) as H3.
    { intros q Hq. apply narrow_lowest in Hq as [Hq Hm2].
      assert (x ∈ narrow (Highest localPref) ps) as Hx1 by by apply narrow_highest.
      specialize (Hm2 x Hx1).
      apply narrow_highest in Hq as [Hq Hm]. specialize (Hm x Hx).
      destruct (Hbest q Hq) as [?|[? [?|[? [?|[? _]]]]]]; lia. }
    split; [split; [split; [split|]|]|]; try done.
    intros q Hq. apply narrow_lowest in Hq as [Hq Hm3].
    assert (x ∈ narrow (Highest localPref) ps) as Hx1 by by apply narrow_highest.
    assert (x ∈ narrow (Lowest asPathLength) (narrow (Highest localPref) ps)) as Hx2
      by by apply narrow_lowest.
    specialize (Hm3 x Hx2).
    apply narrow_lowest in Hq as [Hq Hm2]. specialize (Hm2 x Hx1).
    apply narrow_highest in Hq as [Hq Hm]. specialize (Hm x Hx).
    destruct (Hbest q Hq) as [?|[? [?|[? [?|[? ?]]]]]]; lia.
Qed.

Lemma narrow_filter c ps : ∃ P (H : ∀ x, Decision (P x)), narrow c ps = filter P ps.
Proof. destruct c; unfold narrow, keep; eauto. Qed.

(** The first survivor: everything before it in the list was eliminated. *)
Lemma head_filter_split {A} (P : A → Prop) `{∀ x, Decision (P x)} (l : list A) b :
  head (filter P l) = Some b →
  ∃ l1 l2, l = l1 ++ b :: l2 ∧ P b ∧ ∀ q, q ∈ l1 → ¬ P q.
Proof.
  induction l as [|a l IH]; [done|].
  rewrite filter_cons. destruct (decide (P a)) as [Ha|Ha]; simpl.
  - intros [= ->]. exists [], l. split; [done|]. split; [done|].
    intros q Hq. by apply elem_of_nil in Hq.
  - intros Hh. destruct (IH Hh) as (l1 & l2 & -> & Hb & Hl1).
    exists (a :: l1), l2. split; [done|]. split; [done|].
    intros q Hq. apply elem_of_cons in Hq as [->|Hq]; [done|by apply Hl1].
Qed.

Lemma filter_trans (P Q : BGPPath → Prop)
    `{!∀ x, Decision (P x), !∀ x, Decision (Q x)} (l : list BGPPath) :
  ∃ R (H : ∀ x, Decision (R x)), filter Q (filter P l) = filter R l.
Proof. exists (λ a, Q a ∧ P a), _. apply list_filter_filter. Qed.

Lemma cascade_filter ps :
  ∃ P (H : ∀ x, Decision (P x)), cascade ps = filter P ps.
Proof.
  unfold cascade, criteria. simpl.
  destruct (narrow_filter (Highest localPref) ps) as (P1 & D1 & ->).
  destruct (narrow_filter (Lowest asPathLength) (filter P1 ps)) as (P2 & D2 & ->).
  destruct (filter_trans P1 P2 ps) as (P12 & D12 & ->).
  destruct (narrow_filter (Lowest med) (filter P12 ps)) as (P3 & D3 & ->).
  destruct (filter_trans P12 P3 ps) as (P123 & D123 & ->).
  destruct (narrow_filter (Lowest igpCost) (filter P123 ps)) as (P4 & D4 & ->).
  destruct (filter_trans P123 P4 ps) as (P1234 & D1234 & ->).
  eauto.
Qed.

Lemma cascade_first ps b :
  head (cascade ps) = Some b →
  ∃ l1 l2, ps = l1 ++ b :: l2 ∧ ∀ q, q ∈ l1 → q ∉ cascade ps.
Proof.
  destruct (cascade_filter ps) as (P & D & ->). intros Hh.
  destruct (head_filter_split P ps b Hh) as (l1 & l2 & Hps & _ & Hl1).
  exists l1, l2. split; [done|]. intros q Hq Hin.
  apply list_elem_of_filter in Hin as [HP _]. by apply (Hl1 q).
Qed.

(** The winner of a non-empty candidate set: lexicographically best, and
    the first such candidate of the list. *)
Lemma selectBestPath_winner l :
  l ≠ [] → ∃ b l1 l2,
    selectBestPath l = Some b
    ∧ l = l1 ++ b :: l2
    ∧ (∀ c, c ∈ l → at_least_as_good b c)
    ∧ (∀ c, c ∈ l1 → ¬ at_least_as_good c b).
Proof.
  intros Hne.
  rewrite selectBestPath_elect, elect_run. fold (cascade l).
  destruct (cascade l) as [|b r] eqn:Ec; [by destruct (cascade_nonempty l)|].
  assert (b ∈ cascade l) as Hb by (rewrite Ec; left).
  apply elem_of_cascade in Hb as [Hbl Hbbest].
  destruct (cascade_first l b) as (l1 & l2 & Hl & Hl1); [by rewrite Ec|].
  exists b, l1, l2. split; [done|]. split; [done|]. split; [done|].
  intros c Hc Hgood. apply (Hl1 c Hc), elem_of_cascade.
  assert (c ∈ l) as Hcl by (rewrite Hl; set_solver).
  split; [done|]. intros d Hd. pose proof (Hbbest d Hd) as Hbd.
  clear -Hgood Hbd. unfold at_least_as_good in *. lia.
Qed.

Lemma selectBestPath_elem l b : selectBestPath l = Some b → b ∈ l.
Proof.
  intros H. destruct l as [|x r]; [done|].
  destruct (selectBestPath_winner (x :: r)) as (w & l1 & l2 & Hsel & Hsplit & _); [done|].
  rewrite Hsel in H. injection H as <-. rewrite Hsplit. set_solver.
Qed.

Lemma selectBestPath_is_Some l : l ≠ [] → is_Some (selectBestPath l).
Proof.
  intros H. destruct (selectBestPath_winner l H) as (w & _ & _ & -> & _). by eexists.
Qed.

Lemma selectBestPath_of_two a b l :
  ¬ at_least_as_good b a → l = [a; b] ∨ l = [b; a] → selectBestPath l = Some a.
Proof.
  intros Hnot Hl.
  destruct (selectBestPath_winner l) as (w & l1 & l2 & Hsel & Hsplit & Hw & _);
    [by destruct Hl as [-> | ->]|].
  rewrite Hsel. f_equal.
  assert (w ∈ l) as Hin by (rewrite Hsplit; set_solver).
  assert (w = a ∨ w = b) as [-> | ->]; [|done|].
  { clear -Hin Hl. destruct Hl as [-> | ->]; set_solver. }
  exfalso. apply Hnot, Hw. destruct Hl as [-> | ->]; set_solver.
Qed.

(** C5. For every non-empty candidate set, [selectBestPath] is the election
    of the specification: the criteria highest local preference, shortest
    AS path, lowest MED, lowest IGP cost are applied in this order, the
    election stops as soon as one candidate remains, and the first remaining
    candidate wins.  The winner [b] is a candidate that is at least as good
    as every candidate in the lexicographic order of the four criteria, and
    every candidate listed before it is strictly worse.  In particular, of
    two candidates the one with the higher local preference wins whatever
    the other attributes are, and with equal local preference the one with
    the shorter AS path wins. *)
Theorem C5_selectBestPath_precedence (ps : list BGPPath) (p q : BGPPath) :
  ps ≠ [] →
  selectBestPath ps = elect criteria ps
  ∧ (∃ b l1 l2,
       selectBestPath ps = Some b
       ∧ ps = l1 ++ b :: l2
       ∧ (∀ c, c ∈ ps → at_least_as_good b c)
       ∧ (∀ c, c ∈ l1 → ¬ at_least_as_good c b))
  ∧ (localPref q < localPref p →
       selectBestPath [p; q] = Some p ∧ selectBestPath [q; p] = Some p)
  ∧ (localPref p = localPref q → asPathLength p < asPathLength q →
       selectBestPath [p; q] = Some p ∧ selectBestPath [q; p] = Some p).
Proof.
  intros Hne.
  split; [apply selectBestPath_elect|].
  split; [by apply selectBestPath_winner|].
  split.
  - intros Hlt. split; apply (selectBestPath_of_two p q); auto;
      unfold at_least_as_good; lia.
  - intros Heq Hlt. split; apply (selectBestPath_of_two p q); auto;
      unfold at_least_as_good; lia.
Qed.

Lemma C5_selectBestPath_witness :
  let p := cand 150 5 40 90 ["A"; "B"] in
  let q := cand 120 1 0 1 ["A"; "C"] in
  let r := cand 150 7 0 1 ["A"; "D"] in
  [q; p] ≠ [] ∧ localPref q < localPref p
  ∧ selectBestPath [q; p] = Some p
  ∧ localPref p = localPref r ∧ asPathLength p < asPathLength r
  ∧ selectBestPath [r; p] = Some p.
Proof.
  intros p q r.
  assert (H : [q; p] ≠ []) by discriminate.
  assert (H' : [r; p] ≠ []) by discriminate.
  assert (Hlp : localPref q < localPref p) by (vm_compute; reflexivity).
  assert (Heq : localPref p = localPref r) by reflexivity.
  assert (Has : asPathLength p < asPathLength r) by (vm_compute; reflexivity).
  split; [exact H|]. split; [exact Hlp|].
  split; [exact (proj2 (proj1 (proj2 (proj2 (C5_selectBestPath_precedence [q; p] p q H))) Hlp))|].
  split; [exact Heq|]. split; [exact Has|].
  exact (proj2 (proj2 (proj2 (proj2 (C5_selectBestPath_precedence [r; p] p r H'))) Heq Has)).
Defined.

End ElectionFacts.

(** ** The policy selector: paths, attributes and table rows *)

Section BGPFacts.
Import BGPPathSelection.

(** Every enumerated path ends at the node the enumeration was asked for. *)
Lemma dfs_last budget edges end_ current pth visited p :
  In p (dfs budget edges end_ current pth visited) → last p = Some end_.
Proof.
  revert current pth visited.
  induction budget as [|b IH]; intros current pth visited Hin; [done|].
  simpl in Hin.
  destruct (decide (current = end_)) as [->|Hne].
  { destruct Hin as [<-|[]]. apply last_snoc. }
  destruct (decide (current ∈ visited)); [done|].
  apply in_flat_map in Hin as (e & _ & Hin).
  destruct (neighbor_of e current) as [nb|]; [|done].
  destruct (decide (nb = "")); [done|].
  destruct (decide (nb ∈ {[current]} ∪ visited)); [done|].
  by apply IH in Hin.
Qed.

Lemma findAllPaths_last nodes edges start end_ p :
  p ∈ findAllPaths nodes edges start end_ → last p = Some end_.
Proof. intros H. apply list_elem_of_In in H. by apply dfs_last in H. Qed.

(** [assign] keeps the paths, in order, gives each the link-weight sum as
    weight and IGP cost, and calls the generator twice per path. *)
Lemma assign_spec edges rng k paths :
  map bp_path (assign edges rng k paths).1 = paths
  ∧ (assign edges rng k paths).2 = (k + 2 * length paths)%nat
  ∧ ∀ b, b ∈ (assign edges rng k paths).1 →
      weight b = calculatePathWeight (bp_path b) edges
      ∧ igpCost b = weight b
      ∧ asPathLength b = Z.of_nat (length (bp_path b)) - 1.
Proof.
  revert k. induction paths as [|p r IH]; intros k; simpl.
  { split; [done|]. split; [lia|]. intros b Hb. by apply elem_of_nil in Hb. }
  specialize (IH (S (S k))).
  destruct (assign edges rng (S (S k)) r) as [bs k'] eqn:E. simpl in *.
  destruct IH as (IH1 & IH2 & IH3).
  split; [by rewrite IH1|]. split; [lia|].
  intros b Hb. apply elem_of_cons in Hb as [->|Hb]; [done|by apply IH3].
Qed.

Lemma assign_nonempty edges rng k paths :
  paths ≠ [] → (assign edges rng k paths).1 ≠ [].
Proof.
  destruct paths as [|p r]; [done|]. intros _. simpl.
  by destruct (assign edges rng (S (S k)) r).
Qed.

(** Generators that agree call by call give the same attributes. *)
Lemma assign_ext edges rng1 rng2 k paths :
  (∀ i, rng1 i = rng2 i) → assign edges rng1 k paths = assign edges rng2 k paths.
Proof.
  intros Hext. revert k. induction paths as [|p r IH]; intros k; [done|].
  simpl. rewrite IH. unfold attributes. by rewrite !Hext.
Qed.

(** What one pass of the routing-table loop does. *)
Lemma row_step_spec edges rng source allPaths table k n :
  ∃ k', (has_row source allPaths n = false
         ∧ row_step edges rng source allPaths (table, k) n = (table, k'))
      ∨ (has_row source allPaths n = true
         ∧ ∃ row, row_step edges rng source allPaths (table, k) n = (table ++ [row], k')
                  ∧ destination row = n_id n
                  ∧ row_ok edges allPaths row).
Proof.
  unfold row_step, has_row.
  destruct (decide (n_id n = source)) as [Hs|Hs].
  { exists k. left. split; [|done]. apply bool_decide_eq_false. tauto. }
  set (ptn := filter (λ p, last p = Some (n_id n)) allPaths).
  destruct ptn as [|p0 r0] eqn:Eptn.
  { exists k. left. split; [|done]. apply bool_decide_eq_false. tauto. }
  rewrite <- Eptn.
  pose proof (assign_spec edges rng k ptn) as (Hpaths & Hk & Hattr).
  pose proof (assign_nonempty edges rng k ptn) as Hne.
  destruct (assign edges rng k ptn) as [cands k'] eqn:Ea. simpl in *.
  exists k'. right. split; [apply bool_decide_eq_true; split; [done|by rewrite Eptn]|].
  destruct (selectBestPath_is_Some cands) as [best Hbest].
  { apply Hne. by rewrite Eptn. }
  rewrite Hbest. eexists. split; [reflexivity|]. split; [done|].
  pose proof (selectBestPath_elem _ _ Hbest) as Hin.
  destruct (Hattr best Hin) as (Hw & _ & _).
  assert (bp_path best ∈ ptn) as Hp.
  { rewrite <- Hpaths. apply list_elem_of_fmap. by exists best. }
  apply list_elem_of_filter in Hp as [Hlast Hall].
  exists (bp_path best). simpl. by rewrite Hw.
Qed.

Lemma row_fold_spec edges rng source allPaths nodes table k :
  ∃ rows k',
    fold_left (row_step edges rng source allPaths) nodes (table, k) = (table ++ rows, k')
    ∧ map destination rows = map n_id (List.filter (has_row source allPaths) nodes)
    ∧ Forall (row_ok edges allPaths) rows.
Proof.
  revert table k. induction nodes as [|n ns IH]; intros table k.
  { exists [], k. simpl. by rewrite app_nil_r. }
  cbn [fold_left List.filter map].
  destruct (row_step_spec edges rng source allPaths table k n)
    as (k1 & [[Hno ->]|(Hyes & row & -> & Hd & Hrow)]).
  - rewrite Hno. apply IH.
  - rewrite Hyes. destruct (IH (table ++ [row]) k1) as (rows & k' & -> & Hdest & Hall).
    exists (row :: rows), k'. rewrite <- app_assoc. split; [done|].
    split; [simpl; by rewrite Hd, Hdest|]. by constructor.
Qed.

Lemma row_fold_ext edges rng1 rng2 source allPaths nodes acc :
  (∀ i, rng1 i = rng2 i) →
  fold_left (row_step edges rng1 source allPaths) nodes acc
  = fold_left (row_step edges rng2 source allPaths) nodes acc.
Proof.
  intros Hext. revert acc. induction nodes as [|n ns IH]; intros acc; [done|].
  cbn [fold_left]. rewrite IH. f_equal. unfold row_step. destruct acc as [table k].
  destruct (decide (n_id n = source)); [done|].
  destruct (filter _ allPaths) as [|p0 r0] eqn:E; [done|].
  by rewrite (assign_ext edges rng1 rng2 k _ Hext).
Qed.

Lemma bgp_execute_ext rng1 rng2 nodes edges source dest :
  (∀ i, rng1 i = rng2 i) →
  execute rng1 nodes edges source dest = execute rng2 nodes edges source dest.
Proof.
  intros Hext. unfold execute.
  destruct (findAllPaths nodes edges source dest) as [|p0 r0] eqn:E; [done|].
  rewrite (assign_ext edges rng1 rng2 O _ Hext).
  destruct (assign edges rng2 0 (p0 :: r0)) as [bgpPaths k].
  by rewrite (row_fold_ext edges rng1 rng2 source _ nodes _ Hext).
Qed.

(** The routing table of a call: one row per listed node that is not the
    source and ends some enumerated path; each row carries an enumerated
    path and its link-weight sum. *)
Lemma bgp_table_spec rng nodes edges source dest :
  let allPaths := findAllPaths nodes edges source dest in
  let table := routingTable (execute rng nodes edges source dest) in
  map destination table = map n_id (List.filter (has_row source allPaths) nodes)
  ∧ Forall (row_ok edges allPaths) table.
Proof.
  intros allPaths table. subst table. unfold execute. fold allPaths.
  destruct allPaths as [|p0 r0] eqn:E.
  { simpl. split; [|constructor]. clear.
    induction nodes as [|n ns IH]; [done|]. simpl.
    unfold has_row at 1. rewrite bool_decide_eq_false_2; [apply IH | rewrite filter_nil; tauto]. }
  destruct (assign edges rng 0 (p0 :: r0)) as [bgpPaths k].
  destruct (row_fold_spec edges rng source (p0 :: r0) nodes [] k)
    as (rows & k' & -> & Hdest & Hall).
  done.
Qed.

(** Only the queried destination can have a row. *)
Lemma bgp_table_only_dest rng nodes edges source dest row :
  row ∈ routingTable (execute rng nodes edges source dest) →
  destination row = dest.
Proof.
  intros Hrow.
  destruct (bgp_table_spec rng nodes edges source dest) as [_ Hall].
  rewrite Forall_forall in Hall. destruct (Hall row Hrow) as (p & Hp & Hlast & _).
  apply findAllPaths_last in Hp. congruence.
Qed.

End BGPFacts.

(** ** C2: the routing table of the policy selector *)

(** C2 (the code at the failing input). On the line A - B - C queried from
    A to C, node B has a path from A, yet whatever the generator returns the
    table of [BGPPathSelection.execute] holds a single row, for C: the
    enumeration [findAllPaths] only ever lists paths that end at the queried
    destination, so the per-node filter finds nothing for B. *)
Theorem C2_bgp_table_lacks_reachable_node :
  ∀ rng,
    BGPPathSelection.findAllPaths line_nodes line_edges "A" "B" = [["A"; "B"]]
    ∧ map destination
        (routingTable (BGPPathSelection.execute rng line_nodes line_edges "A" "C"))
      = ["C"].
Proof. intros rng. split; vm_compute; reflexivity. Qed.

(** ** C8: running an engine again *)

Lemma returned_unique_fuel (run : nat → outcome AlgorithmResult) :
  (∀ f f' r, (f ≤ f')%nat → run f = Returned r → run f' = Returned r) →
  ∀ f1 f2 r1 r2, run f1 = Returned r1 → run f2 = Returned r2 → r1 = r2.
Proof.
  intros Hmono f1 f2 r1 r2 H1 H2.
  apply (Hmono f1 (f1 `max` f2)%nat) in H1; [|lia].
  apply (Hmono f2 (f1 `max` f2)%nat) in H2; [|lia].
  congruence.
Qed.

(** C8 (as stated, refuted). On the triangle queried from A to B the row
    for B costs 10 when every draw is 0, and 2 when the seventh draw is
    0.99: the cost of a row is not the same across draws. *)
Lemma C8_bgp_cost_varies_with_draws :
  let t1 := routingTable (BGPPathSelection.execute rng_zero tri_nodes tri_edges "A" "B") in
  let t2 := routingTable (BGPPathSelection.execute rng_seventh tri_nodes tri_edges "A" "B") in
  map destination t1 = ["B"] ∧ map destination t2 = ["B"]
  ∧ map cost t1 = [Fin 10] ∧ map cost t2 = [Fin 2]
  ∧ map cost t1 ≠ map cost t2.
Proof.
  assert (map cost (routingTable (BGPPathSelection.execute rng_zero tri_nodes tri_edges "A" "B"))
          = [Fin 10]) as H1 by (vm_compute; reflexivity).
  assert (map cost (routingTable (BGPPathSelection.execute rng_seventh tri_nodes tri_edges "A" "B"))
          = [Fin 2]) as H2 by (vm_compute; reflexivity).
  cbv zeta. rewrite H1, H2.
  split; [vm_compute; reflexivity|]. split; [vm_compute; reflexivity|].
  split; [done|]. split; [done|]. discriminate.
Qed.

(** C8 (amended). Running Dijkstra or Bellman-Ford again on the same input
    returns the same result, whatever bounds the two runs are given; the
    policy selector returns the same result when the generator returns the
    same draws.  Across different draws the table of the policy selector
    has rows for the same destinations, every row costs the link-weight sum
    of the path it holds, and so two rows that hold the same path cost the
    same; which path a row holds depends on the draws. *)
Theorem C8_reruns (nodes : list Node) (edges : list Edge) (source dest : string) :
  (∀ f1 f2 r1 r2,
     DijkstraAlgorithm.execute f1 nodes edges source dest = Returned r1 →
     DijkstraAlgorithm.execute f2 nodes edges source dest = Returned r2 → r1 = r2)
  ∧ (∀ f1 f2 r1 r2,
     BellmanFordAlgorithm.execute f1 nodes edges source dest = Returned r1 →
     BellmanFordAlgorithm.execute f2 nodes edges source dest = Returned r2 → r1 = r2)
  ∧ (∀ rng1 rng2, (∀ k, rng1 k = rng2 k) →
     BGPPathSelection.execute rng1 nodes edges source dest
     = BGPPathSelection.execute rng2 nodes edges source dest)
  ∧ (∀ rng1 rng2,
     let t1 := routingTable (BGPPathSelection.execute rng1 nodes edges source dest) in
     let t2 := routingTable (BGPPathSelection.execute rng2 nodes edges source dest) in
     map destination t1 = map destination t2
     ∧ (∀ row, row ∈ t1 →
          ∃ p, path row = map JStr p
               ∧ cost row = Fin (BGPPathSelection.calculatePathWeight p edges))
     ∧ (∀ row1 row2, row1 ∈ t1 → row2 ∈ t2 →
          path row1 = path row2 → cost row1 = cost row2)).
Proof.
  split; [|split; [|split]].
  - apply (returned_unique_fuel (λ f, DijkstraAlgorithm.execute f nodes edges source dest)).
    intros f f' r. apply dijkstra_execute_mono.
  - apply (returned_unique_fuel (λ f, BellmanFordAlgorithm.execute f nodes edges source dest)).
    intros f f' r. apply bf_execute_mono.
  - intros rng1 rng2. apply bgp_execute_ext.
  - intros rng1 rng2 t1 t2.
    destruct (bgp_table_spec rng1 nodes edges source dest) as [Hd1 Hr1].
    destruct (bgp_table_spec rng2 nodes edges source dest) as [Hd2 Hr2].
    fold t1 in Hd1, Hr1. fold t2 in Hd2, Hr2.
    rewrite Forall_forall in Hr1, Hr2.
    split; [congruence|]. split.
    + intros row Hrow. destruct (Hr1 row Hrow) as (p & _ & _ & Hp & Hc & _). eauto.
    + intros row1 row2 Hrow1 Hrow2 Heq.
      destruct (Hr1 row1 Hrow1) as (p1 & _ & _ & Hp1 & Hc1 & _).
      destruct (Hr2 row2 Hrow2) as (p2 & _ & _ & Hp2 & Hc2 & _).
      rewrite Hc1, Hc2. f_equal. f_equal.
      rewrite Hp1, Hp2 in Heq.
      clear -Heq. revert p2 Heq. induction p1 as [|a p1 IH]; intros [|b p2] H; try done.
      injection H as -> H. f_equal. by apply IH.
Qed.

Lemma C8_reruns_witness :
  (∀ k, rng_zero k = rng_zero k)
  ∧ BGPPathSelection.execute rng_zero tri_nodes tri_edges "A" "B"
    = BGPPathSelection.execute rng_zero tri_nodes tri_edges "A" "B".
Proof.
  split; [reflexivity|].
  destruct (C8_reruns tri_nodes tri_edges "A" "B") as (_ & _ & Hbgp & _).
  apply Hbgp. reflexivity.
Defined.

(** ** Bellman-Ford: the passes and the final scan *)

Section BellmanFordFacts.
Import BellmanFordAlgorithm.

Lemma k_passes_succ_r k edges st :
  k_passes (S k) edges st = k_passes k edges (pass edges st).1.
Proof. unfold k_passes. by rewrite Nat.iter_succ_r. Qed.

(** The loop makes [k ≤ n] passes, counts them, and stops before the bound
    only after a pass without update. *)
Lemma passes_spec n edges st i :
  ∃ k, (k ≤ n)%nat
       ∧ passes n edges st i = (k_passes k edges st, (i + k)%nat)
       ∧ ((k < n)%nat → ∃ j, k = S j ∧ (pass edges (k_passes j edges st)).2 = false).
Proof.
  revert st i. induction n as [|n IH]; intros st i.
  { exists O. split; [lia|]. split; [simpl; f_equal; lia|lia]. }
  simpl. destruct (pass edges st) as [st' upd] eqn:E. destruct upd.
  - destruct (IH st' (S i)) as (k & Hk & -> & Hstop).
    exists (S k). split; [lia|]. rewrite k_passes_succ_r, E. simpl.
    split; [f_equal; lia|]. intros Hlt.
    destruct Hstop as (j & -> & Hj); [lia|].
    exists (S j). split; [done|]. by rewrite k_passes_succ_r, E.
  - exists 1%nat. split; [lia|]. unfold k_passes. simpl. rewrite E. simpl.
    split; [f_equal; lia|]. intros _. exists O. split; [done|]. simpl. by rewrite E.
Qed.

Lemma negative_cycle_true edges st :
  negative_cycle edges st = true ↔
  ∃ e, e ∈ edges
       ∧ (can_relax (st_dist st) (e_source e) (e_target e) (e_weight e) = true
          ∨ can_relax (st_dist st) (e_target e) (e_source e) (e_weight e) = true).
Proof.
  unfold negative_cycle. rewrite existsb_exists. split.
  - intros (e & Hin & He). exists e. split; [by apply list_elem_of_In|].
    by apply orb_true_iff in He.
  - intros (e & Hin & He). exists e. split; [by apply list_elem_of_In|].
    by apply orb_true_iff.
Qed.

Lemma reconstruct_not_thrown fuel nodes st source dest iters err :
  reconstruct fuel nodes st source dest iters ≠ Thrown err.
Proof.
  unfold reconstruct. destruct (walk _ _ _ _); [|done].
  by destruct (routing_table _ _ _ _).
Qed.

Lemma reconstruct_returned fuel nodes st source dest iters r :
  reconstruct fuel nodes st source dest iters = Returned r →
  distances r = st_dist st ∧ previous r = st_prev st ∧ iterations r = iters.
Proof.
  unfold reconstruct. destruct (walk _ _ _ _); [|done].
  destruct (routing_table _ _ _ _); [|done]. by intros [= <-].
Qed.


Lemma neg_cycle_thrown :
  execute 3 neg_nodes neg_edges "A" "C" = Thrown negative_cycle_error.
Proof. vm_compute. reflexivity. Qed.


End BellmanFordFacts.

(** ** The state of the shortest-path engines: keys and finite distances *)

Section StateFacts.
Import BellmanFordAlgorithm.

Lemma elem_of_node_ids nodes x : x ∈ node_ids nodes ↔ x ∈ map n_id nodes.
Proof. unfold node_ids. apply elem_of_list_to_set. Qed.

Lemma init_fold_dist source nodes st x :
  st_dist (fold_left (init_step source) nodes st) !! x =
  if decide (x ∈ map n_id nodes)
  then Some (if decide (x = source) then Fin 0 else Inf)
  else st_dist st !! x.
Proof.
  revert st. induction nodes as [|n ns IH]; intros st; cbn [fold_left map].
  { destruct (decide (x ∈ [])) as [H|H]; [by apply elem_of_nil in H|done]. }
  rewrite IH.
  destruct (decide (x ∈ map n_id ns)) as [Hin|Hnin];
    destruct (decide (x ∈ n_id n :: map n_id ns)) as [H|H]; try done.
  - exfalso. apply H. by right.
  - apply elem_of_cons in H as [->|?]; [|done]. simpl. by rewrite lookup_insert_eq.
  - simpl. rewrite lookup_insert_ne; [done|]. intros Heq. apply H. rewrite <- Heq. by left.
Qed.

Lemma init_fold_prev source nodes st x :
  st_prev (fold_left (init_step source) nodes st) !! x =
  if decide (x ∈ map n_id nodes) then Some None else st_prev st !! x.
Proof.
  revert st. induction nodes as [|n ns IH]; intros st; cbn [fold_left map].
  { destruct (decide (x ∈ [])) as [H|H]; [by apply elem_of_nil in H|done]. }
  rewrite IH.
  destruct (decide (x ∈ map n_id ns)) as [Hin|Hnin];
    destruct (decide (x ∈ n_id n :: map n_id ns)) as [H|H]; try done.
  - exfalso. apply H. by right.
  - apply elem_of_cons in H as [->|?]; [|done]. simpl. by rewrite lookup_insert_eq.
  - simpl. rewrite lookup_insert_ne; [done|]. intros Heq. apply H. rewrite <- Heq. by left.
Qed.

Lemma init_state_dist nodes source x :
  st_dist (init_state nodes source) !! x =
  if decide (x ∈ node_ids nodes)
  then Some (if decide (x = source) then Fin 0 else Inf) else None.
Proof.
  unfold init_state. rewrite init_fold_dist. simpl.
  destruct (decide (x ∈ map n_id nodes)) as [H|H];
    destruct (decide (x ∈ node_ids nodes)) as [H'|H']; try done.
  - exfalso. by apply H', elem_of_node_ids.
  - exfalso. by apply H, elem_of_node_ids.
Qed.

Lemma init_state_prev nodes source x :
  st_prev (init_state nodes source) !! x =
  if decide (x ∈ node_ids nodes) then Some None else None.
Proof.
  unfold init_state. rewrite init_fold_prev. simpl.
  destruct (decide (x ∈ map n_id nodes)) as [H|H];
    destruct (decide (x ∈ node_ids nodes)) as [H'|H']; try done.
  - exfalso. by apply H', elem_of_node_ids.
  - exfalso. by apply H, elem_of_node_ids.
Qed.

Lemma init_state_keys nodes source : keys_ok (node_ids nodes) (init_state nodes source).
Proof.
  split; apply set_eq; intros x; rewrite elem_of_dom.
  - rewrite init_state_dist. destruct (decide (x ∈ node_ids nodes)); [|by rewrite is_Some_alt].
    split; [done|]. by eexists.
  - rewrite init_state_prev. destruct (decide (x ∈ node_ids nodes)); [|by rewrite is_Some_alt].
    split; [done|]. by eexists.
Qed.

Lemma keys_ok_dist ids st x : keys_ok ids st → x ∈ ids → is_Some (st_dist st !! x).
Proof. intros [<- _] H. by apply elem_of_dom. Qed.

Lemma keys_ok_dist_inv ids st x v : keys_ok ids st → st_dist st !! x = Some v → x ∈ ids.
Proof. intros [<- _] H. apply elem_of_dom. by eexists. Qed.

(** One direction of one edge either leaves the state alone or relaxes. *)
Lemma relax_dir_cases w st upd from to :
  (can_relax (st_dist st) from to w = false
   ∧ relax_dir w (st, upd) from to = (st, upd))
  ∨ (∃ a b, st_dist st !! from = Some (Fin a) ∧ st_dist st !! to = Some b
            ∧ num_ltb (Fin (a + w)) b = true
            ∧ can_relax (st_dist st) from to w = true
            ∧ relax_dir w (st, upd) from to =
              ({| st_dist := <[to := Fin (a + w)]> (st_dist st);
                  st_prev := <[to := Some from]> (st_prev st) |}, true)).
Proof.
  unfold relax_dir, can_relax.
  destruct (st_dist st !! from) as [[a|]|] eqn:Ef; [|by left..].
  destruct (st_dist st !! to) as [b|] eqn:Et; [|by left].
  destruct (num_ltb (Fin (a + w)) b) eqn:El; [|by left].
  right. by exists a, b.
Qed.

(** Invariants of single relaxations are invariants of a pass and of the
    whole loop. *)
Lemma fold_relax_invariant (P : sp_state → Prop) (edges l : list Edge) :
  (∀ e st upd from to, e ∈ edges → joined e from to → P st →
     P (relax_dir (e_weight e) (st, upd) from to).1) →
  (∀ e, e ∈ l → e ∈ edges) →
  ∀ acc, P acc.1 → P (fold_left relax_edge l acc).1.
Proof.
  intros Hstep. induction l as [|e l IH]; intros Hsub acc Hacc; [done|].
  simpl. apply IH; [intros e' He'; apply Hsub; by right|].
  assert (e ∈ edges) as He by (apply Hsub; by left).
  unfold relax_edge.
  destruct (relax_dir (e_weight e) acc (e_source e) (e_target e)) as [st1 u1] eqn:E1.
  apply (Hstep e); [done|by right|].
  destruct acc as [st0 u0].
  change st1 with (st1, u1).1. rewrite <- E1.
  apply (Hstep e); [done|by left|done].
Qed.

Lemma pass_invariant (P : sp_state → Prop) (edges : list Edge) :
  (∀ e st upd from to, e ∈ edges → joined e from to → P st →
     P (relax_dir (e_weight e) (st, upd) from to).1) →
  ∀ st, P st → P (pass edges st).1.
Proof. intros Hstep st Hst. unfold pass. by apply (fold_relax_invariant P edges). Qed.

Lemma k_passes_invariant (P : sp_state → Prop) (edges : list Edge) :
  (∀ e st upd from to, e ∈ edges → joined e from to → P st →
     P (relax_dir (e_weight e) (st, upd) from to).1) →
  ∀ k st, P st → P (k_passes k edges st).
Proof.
  intros Hstep k st Hst. induction k as [|k IH]; [done|].
  unfold k_passes in *. simpl. by apply pass_invariant.
Qed.

Lemma relax_dir_keys ids w st upd from to :
  keys_ok ids st → keys_ok ids (relax_dir w (st, upd) from to).1.
Proof.
  intros [Hd Hp].
  destruct (relax_dir_cases w st upd from to) as [[_ ->]|(a & b & Hf & Ht & _ & _ & ->)];
    [done|].
  assert (to ∈ ids) as Hto by (rewrite <- Hd; apply elem_of_dom; by eexists).
  split; simpl; rewrite dom_insert_L; set_solver.
Qed.

(** A finite distance stays finite. *)
Lemma relax_dir_fin w st upd from to x :
  fin_at st x → fin_at (relax_dir w (st, upd) from to).1 x.
Proof.
  intros [a Ha].
  destruct (relax_dir_cases w st upd from to) as [[_ ->]|(a' & b & Hf & Ht & _ & _ & ->)];
    [by exists a|].
  unfold fin_at. simpl. destruct (decide (to = x)) as [->|Hne].
  - rewrite lookup_insert_eq. by eexists.
  - rewrite lookup_insert_ne; [|done]. by exists a.
Qed.

End StateFacts.

(** ** C10: a reachable edge of negative weight *)

Section NegativeEdge.
Import BellmanFordAlgorithm.

Lemma k_passes_keys nodes edges source k :
  keys_ok (node_ids nodes) (k_passes k edges (init_state nodes source)).
Proof.
  apply (k_passes_invariant (keys_ok (node_ids nodes))).
  - intros e st upd from to _ _. apply relax_dir_keys.
  - apply init_state_keys.
Qed.

Lemma k_passes_fin edges k st x : fin_at st x → fin_at (k_passes k edges st) x.
Proof.
  apply (k_passes_invariant (λ s, fin_at s x)).
  intros e s upd from to _ _. apply relax_dir_fin.
Qed.

Lemma negative_cycle_false edges st e u v :
  negative_cycle edges st = false → e ∈ edges → joined e u v →
  can_relax (st_dist st) u v (e_weight e) = false.
Proof.
  intros Hneg He Hj.
  destruct (can_relax (st_dist st) u v (e_weight e)) eqn:E; [|done].
  assert (negative_cycle edges st = true) as Ht; [|congruence].
  apply negative_cycle_true. exists e. split; [done|].
  destruct Hj as [[<- <-]|[<- <-]]; auto.
Qed.

(** When the final scan finds nothing to relax, finite distances have
    spread along every arc. *)
Lemma scan_clean_fin_step nodes edges st u v w :
  keys_ok (node_ids nodes) st → negative_cycle edges st = false →
  fin_at st u → edge_arc nodes edges u v w → fin_at st v.
Proof.
  intros Hkeys Hneg [a Ha] (Hu & Hv & e & He & <- & Hj).
  pose proof (negative_cycle_false edges st e u v Hneg He Hj) as Hno.
  destruct (keys_ok_dist _ _ _ Hkeys Hv) as [b Hb].
  unfold can_relax in Hno. rewrite Ha, Hb in Hno.
  destruct b as [b|]; [by exists b|done].
Qed.

Lemma scan_clean_reachable_fin nodes edges source st x :
  keys_ok (node_ids nodes) st → negative_cycle edges st = false →
  (source ∈ node_ids nodes → fin_at st source) →
  reachable (node_ids nodes) (edge_arc nodes edges) source x → fin_at st x.
Proof.
  intros Hkeys Hneg Hsrc (n & c & Hpath).
  induction Hpath as [Hs|u v w n c Hpath IH Harc]; [by apply Hsrc|].
  by apply (scan_clean_fin_step nodes edges st u v w).
Qed.

Lemma init_state_source_fin nodes source :
  source ∈ node_ids nodes → fin_at (init_state nodes source) source.
Proof.
  intros Hs. exists 0. rewrite init_state_dist.
  rewrite decide_True; [|done]. by rewrite decide_True.
Qed.


Lemma pair_reachable_A :
  reachable (node_ids pair_nodes) (edge_arc pair_nodes [pair_edge]) "A" "A".
Proof.
  exists O, 0. constructor. apply elem_of_node_ids. simpl. set_solver.
Qed.

Lemma pair_reachable_B :
  reachable (node_ids pair_nodes) (edge_arc pair_nodes [pair_edge]) "A" "B".
Proof.
  exists 1%nat, (0 + -1). apply (wpath_step _ _ _ "A" "B").
  - constructor. apply elem_of_node_ids. simpl. set_solver.
  - split; [apply elem_of_node_ids; simpl; set_solver|].
    split; [apply elem_of_node_ids; simpl; set_solver|].
    exists pair_edge. split; [set_solver|]. split; [done|]. by left.
Qed.


End NegativeEdge.

(** ** C9: reversing an edge *)

Section Symmetry.

(** *** Dijkstra: the adjacency list is the same *)

Lemma add_edge_reverse og e :
  DijkstraAlgorithm.add_edge og (reverse_edge e) = DijkstraAlgorithm.add_edge og e.
Proof.
  unfold DijkstraAlgorithm.add_edge. destruct og as [g|]; [|done]. simpl.
  destruct (decide (e_source e = e_target e)) as [Heq|Hne].
  { by rewrite Heq. }
  destruct (g !! e_source e) as [os|] eqn:Es; destruct (g !! e_target e) as [ot|] eqn:Et;
    simpl; rewrite ?lookup_insert_ne by done; rewrite ?Es, ?Et; simpl; try done.
  f_equal. by apply insert_insert_ne.
Qed.

Lemma build_graph_same_link nodes edges edges' :
  Forall2 same_link edges edges' →
  DijkstraAlgorithm.build_graph nodes edges' = DijkstraAlgorithm.build_graph nodes edges.
Proof.
  unfold DijkstraAlgorithm.build_graph. generalize (Some (DijkstraAlgorithm.empty_graph nodes)).
  intros og H. revert og. induction H as [|e e' l l' He Hl IH]; intros og; [done|].
  simpl. rewrite IH. f_equal. destruct He as [-> | ->]; [done|apply add_edge_reverse].
Qed.

Lemma dijkstra_same_link fuel nodes edges edges' source dest :
  Forall2 same_link edges edges' →
  DijkstraAlgorithm.execute fuel nodes edges' source dest
  = DijkstraAlgorithm.execute fuel nodes edges source dest.
Proof.
  intros H. unfold DijkstraAlgorithm.execute. by rewrite (build_graph_same_link nodes edges edges').
Qed.

(** *** The policy selector: neighbours and link weights are the same *)

Lemma neighbor_of_reverse e current :
  BGPPathSelection.neighbor_of (reverse_edge e) current = BGPPathSelection.neighbor_of e current.
Proof.
  unfold BGPPathSelection.neighbor_of. simpl.
  destruct (decide (e_target e = current)) as [Ht|Ht];
    destruct (decide (e_source e = current)) as [Hs|Hs]; try done. congruence.
Qed.

Lemma joins_reverse a b e :
  BGPPathSelection.joins a b (reverse_edge e) = BGPPathSelection.joins a b e.
Proof. unfold BGPPathSelection.joins. simpl. apply bool_decide_ext. tauto. Qed.

Lemma flat_map_Forall2 {A B} (R : A → A → Prop) (f g : A → list B) l l' :
  Forall2 R l l' → (∀ x y, R x y → g y = f x) → flat_map g l' = flat_map f l.
Proof.
  intros H Hfg. induction H as [|x y l l' Hxy Hl IH]; [done|].
  simpl. by rewrite IH, (Hfg x y Hxy).
Qed.

Lemma dfs_same_link budget edges edges' end_ current pth visited :
  Forall2 same_link edges edges' →
  BGPPathSelection.dfs budget edges' end_ current pth visited
  = BGPPathSelection.dfs budget edges end_ current pth visited.
Proof.
  intros H. revert current pth visited.
  induction budget as [|b IH]; intros current pth visited; [done|].
  simpl. destruct (decide (current = end_)); [done|].
  destruct (decide (current ∈ visited)); [done|].
  apply (flat_map_Forall2 same_link); [done|]. intros e e' He.
  assert (BGPPathSelection.neighbor_of e' current = BGPPathSelection.neighbor_of e current) as ->.
  { destruct He as [-> | ->]; [done|apply neighbor_of_reverse]. }
  destruct (BGPPathSelection.neighbor_of e current) as [nb|]; [|done].
  destruct (decide (nb = "")); [done|].
  destruct (decide (nb ∈ {[current]} ∪ visited)); [done|]. apply IH.
Qed.

Lemma find_joins_same_link a b edges edges' :
  Forall2 same_link edges edges' →
  e_weight <$> find (BGPPathSelection.joins a b) edges'
  = e_weight <$> find (BGPPathSelection.joins a b) edges.
Proof.
  induction 1 as [|e e' l l' He Hl IH]; [done|]. simpl.
  assert (BGPPathSelection.joins a b e' = BGPPathSelection.joins a b e) as ->.
  { destruct He as [-> | ->]; [done|apply joins_reverse]. }
  destruct (BGPPathSelection.joins a b e); [|done].
  simpl. by destruct He as [-> | ->].
Qed.

Lemma weight_loop_cons a b r edges total :
  BGPPathSelection.weight_loop (a :: b :: r) edges total
  = BGPPathSelection.weight_loop (b :: r) edges
      (match find (BGPPathSelection.joins a b) edges with
       | Some edge => total + e_weight edge
       | None => total
       end).
Proof. done. Qed.

Lemma weight_loop_same_link p edges edges' total :
  Forall2 same_link edges edges' →
  BGPPathSelection.weight_loop p edges' total = BGPPathSelection.weight_loop p edges total.
Proof.
  intros H. revert total. induction p as [|a p IH]; intros total; [done|].
  destruct p as [|b r]; [done|]. rewrite !weight_loop_cons, IH.
  pose proof (find_joins_same_link a b edges edges' H) as Hf.
  destruct (find (BGPPathSelection.joins a b) edges') as [x'|];
    destruct (find (BGPPathSelection.joins a b) edges) as [x|]; simpl in Hf; try done.
  by injection Hf as ->.
Qed.

Lemma assign_same_link edges edges' rng k paths :
  Forall2 same_link edges edges' →
  BGPPathSelection.assign edges' rng k paths = BGPPathSelection.assign edges rng k paths.
Proof.
  intros H. revert k. induction paths as [|p r IH]; intros k; [done|].
  simpl. rewrite IH. unfold BGPPathSelection.attributes, BGPPathSelection.calculatePathWeight.
  by rewrite (weight_loop_same_link p edges edges' 0 H).
Qed.

Lemma bgp_same_link rng nodes edges edges' source dest :
  Forall2 same_link edges edges' →
  BGPPathSelection.execute rng nodes edges' source dest
  = BGPPathSelection.execute rng nodes edges source dest.
Proof.
  intros H. unfold BGPPathSelection.execute, BGPPathSelection.findAllPaths.
  rewrite (dfs_same_link _ edges edges' _ _ _ _ H).
  destruct (BGPPathSelection.dfs _ edges dest source [] ∅) as [|p0 r0]; [done|].
  rewrite (assign_same_link edges edges' rng 0 _ H).
  destruct (BGPPathSelection.assign edges rng 0 (p0 :: r0)) as [bgpPaths k].
  assert (∀ acc, fold_left (BGPPathSelection.row_step edges' rng source (p0 :: r0)) nodes acc
               = fold_left (BGPPathSelection.row_step edges rng source (p0 :: r0)) nodes acc) as ->.
  { induction nodes as [|n ns IH]; intros acc; [done|]. cbn [fold_left]. rewrite IH. f_equal.
    unfold BGPPathSelection.row_step. destruct acc as [table k0].
    destruct (decide (n_id n = source)); [done|].
    destruct (filter _ (p0 :: r0)) as [|q0 s0]; [done|].
    by rewrite (assign_same_link edges edges' rng k0 _ H). }
  done.
Qed.

(** *** Bellman-Ford: the two directions of an edge commute, unless the
    edge is hot, and then the final scan throws *)

Lemma hot_reverse st e : hot st (reverse_edge e) ↔ hot st e.
Proof. unfold hot. simpl. tauto. Qed.

Lemma relax_dir_is_Some w st upd from to x :
  is_Some (st_dist st !! x) →
  is_Some (st_dist (BellmanFordAlgorithm.relax_dir w (st, upd) from to).1 !! x).
Proof.
  intros Hx.
  destruct (relax_dir_cases w st upd from to) as [[_ ->]|(a & b & _ & _ & _ & _ & ->)];
    [done|].
  simpl. destruct (decide (to = x)) as [->|Hne].
  - rewrite lookup_insert_eq. by eexists.
  - by rewrite lookup_insert_ne.
Qed.

Lemma relax_dir_hot w st upd from to e :
  hot st e → hot (BellmanFordAlgorithm.relax_dir w (st, upd) from to).1 e.
Proof.
  intros (Hw & Hs & Ht & Hfin). split; [done|].
  split; [by apply relax_dir_is_Some|]. split; [by apply relax_dir_is_Some|].
  destruct Hfin; [left|right]; by apply relax_dir_fin.
Qed.

Lemma relax_edge_hot acc e0 e :
  hot acc.1 e → hot (BellmanFordAlgorithm.relax_edge acc e0).1 e.
Proof.
  intros H. unfold BellmanFordAlgorithm.relax_edge. destruct acc as [st upd].
  destruct (BellmanFordAlgorithm.relax_dir (e_weight e0) (st, upd) (e_source e0) (e_target e0))
    as [st1 u1] eqn:E1.
  apply relax_dir_hot. change st1 with (st1, u1).1. rewrite <- E1. by apply relax_dir_hot.
Qed.

Lemma can_relax_inv d from to w :
  BellmanFordAlgorithm.can_relax d from to w = true →
  ∃ a b, d !! from = Some (Fin a) ∧ d !! to = Some b ∧ num_ltb (Fin (a + w)) b = true.
Proof.
  unfold BellmanFordAlgorithm.can_relax.
  destruct (d !! from) as [[a|]|]; try done. destruct (d !! to) as [b|]; try done.
  intros H. by exists a, b.
Qed.

Lemma can_relax_hot st e u v :
  joined e u v → e_weight e < 0 →
  BellmanFordAlgorithm.can_relax (st_dist st) u v (e_weight e) = true → hot st e.
Proof.
  intros Hj Hw (a & b & Ha & Hb & _)%can_relax_inv. split; [done|].
  destruct Hj as [[<- <-]|[<- <-]].
  - split; [by eexists|]. split; [by eexists|]. left. by exists a.
  - split; [by eexists|]. split; [by eexists|]. right. by exists a.
Qed.

(** After [from -> to] has relaxed over a link of non-negative weight, the
    way back does not relax. *)
Lemma no_relax_back d from to w a :
  0 ≤ w → d !! from = Some (Fin a) →
  BellmanFordAlgorithm.can_relax (<[to := Fin (a + w)]> d) to from w = false.
Proof.
  intros Hw Ha. unfold BellmanFordAlgorithm.can_relax. rewrite lookup_insert_eq.
  destruct (decide (to = from)) as [->|Hne].
  - rewrite lookup_insert_eq. simpl. lia.
  - rewrite lookup_insert_ne by done. rewrite Ha. simpl. lia.
Qed.

Lemma relax_dir_skip w st upd from to :
  BellmanFordAlgorithm.can_relax (st_dist st) from to w = false →
  BellmanFordAlgorithm.relax_dir w (st, upd) from to = (st, upd).
Proof.
  intros H. by destruct (relax_dir_cases w st upd from to)
    as [[_ ->]|(a & b & _ & _ & _ & Ht & _)]; [|congruence].
Qed.

Lemma relax_edge_reverse acc e :
  BellmanFordAlgorithm.relax_edge acc (reverse_edge e) = BellmanFordAlgorithm.relax_edge acc e
  ∨ hot acc.1 e.
Proof.
  destruct acc as [st upd]. unfold BellmanFordAlgorithm.relax_edge.
  cbn [reverse_edge e_source e_target e_weight fst].
  set (w := e_weight e). set (u := e_source e). set (v := e_target e).
  destruct (BellmanFordAlgorithm.can_relax (st_dist st) u v w) eqn:Cuv;
    destruct (BellmanFordAlgorithm.can_relax (st_dist st) v u w) eqn:Cvu.
  - (* both directions relax: the weight is negative *)
    right. apply (can_relax_hot st e u v); [by left| |done].
    apply can_relax_inv in Cuv as (a & b & Ha & Hb & Hlt).
    apply can_relax_inv in Cvu as (b' & a' & Hb' & Ha' & Hlt').
    rewrite Ha in Ha'. rewrite Hb in Hb'. injection Ha' as <-. injection Hb' as ->.
    simpl in Hlt, Hlt'. fold w. lia.
  - destruct (decide (w < 0)) as [Hneg|Hpos].
    { right. by apply (can_relax_hot st e u v); [left| |]. }
    left. rewrite (relax_dir_skip w st upd v u Cvu).
    destruct (relax_dir_cases w st upd u v) as [[Hc _]|(a & b & Ha & Hb & _ & _ & ->)];
      [congruence|].
    symmetry. apply relax_dir_skip. simpl. apply no_relax_back; [lia|done].
  - destruct (decide (w < 0)) as [Hneg|Hpos].
    { right. by apply (can_relax_hot st e v u); [right| |]. }
    left. rewrite (relax_dir_skip w st upd u v Cuv).
    destruct (relax_dir_cases w st upd v u) as [[Hc _]|(a & b & Ha & Hb & _ & _ & ->)];
      [congruence|].
    apply relax_dir_skip. simpl. apply no_relax_back; [lia|done].
  - left. rewrite (relax_dir_skip w st upd u v Cuv), (relax_dir_skip w st upd v u Cvu).
    by rewrite (relax_dir_skip w st upd u v Cuv).
Qed.

Lemma fold_relax_hot (E : Edge → Prop) l acc :
  (∃ e, E e ∧ hot acc.1 e) → ∃ e, E e ∧ hot (fold_left BellmanFordAlgorithm.relax_edge l acc).1 e.
Proof.
  revert acc. induction l as [|e0 l IH]; intros acc H; [done|].
  simpl. apply IH. destruct H as (e & He & Hhot). exists e. split; [done|].
  by apply relax_edge_hot.
Qed.

Lemma fold_relax_same_link (E : Edge → Prop) l l' acc :
  Forall2 same_link l l' → (∀ e, e ∈ l → E e) →
  fold_left BellmanFordAlgorithm.relax_edge l' acc
  = fold_left BellmanFordAlgorithm.relax_edge l acc
  ∨ in_step E (fold_left BellmanFordAlgorithm.relax_edge l acc).1
              (fold_left BellmanFordAlgorithm.relax_edge l' acc).1.
Proof.
  intros H. revert acc. induction H as [|e e' l l' He Hl IH]; intros acc HE; [by left|].
  simpl.
  assert (BellmanFordAlgorithm.relax_edge acc e' = BellmanFordAlgorithm.relax_edge acc e
          ∨ hot acc.1 e) as [->|Hhot].
  { destruct He as [-> | ->]; [by left|apply relax_edge_reverse]. }
  - apply IH. intros x Hx. apply HE. by right.
  - right. assert (E e) as HEe by (apply HE; by left).
    split; apply fold_relax_hot; exists e; (split; [done|]); by apply relax_edge_hot.
Qed.

Lemma passes_hot (E : Edge → Prop) n edges st i :
  (∃ e, E e ∧ hot st e) → ∃ e, E e ∧ hot (BellmanFordAlgorithm.passes n edges st i).1 e.
Proof.
  revert st i. induction n as [|n IH]; intros st i H; [done|].
  simpl. destruct (BellmanFordAlgorithm.pass edges st) as [st1 u1] eqn:E1.
  assert (∃ e, E e ∧ hot st1 e) as H1.
  { change st1 with (st1, u1).1. rewrite <- E1. unfold BellmanFordAlgorithm.pass.
    by apply fold_relax_hot. }
  destruct u1; [by apply IH|done].
Qed.

Lemma passes_same_link n edges edges' st i :
  Forall2 same_link edges edges' →
  BellmanFordAlgorithm.passes n edges' st i = BellmanFordAlgorithm.passes n edges st i
  ∨ in_step (λ e, e ∈ edges) (BellmanFordAlgorithm.passes n edges st i).1
                              (BellmanFordAlgorithm.passes n edges' st i).1.
Proof.
  intros H. revert st i. induction n as [|n IH]; intros st i; [by left|].
  simpl.
  destruct (fold_relax_same_link (λ e, e ∈ edges) edges edges' (st, false) H) as [Heq|[H1 H2]];
    [done| |].
  - unfold BellmanFordAlgorithm.pass. rewrite Heq.
    destruct (fold_left BellmanFordAlgorithm.relax_edge edges (st, false)) as [st1 u1].
    destruct u1; [apply IH|by left].
  - right. unfold BellmanFordAlgorithm.pass.
    destruct (fold_left BellmanFordAlgorithm.relax_edge edges (st, false)) as [st1 u1].
    destruct (fold_left BellmanFordAlgorithm.relax_edge edges' (st, false)) as [st1' u1'].
    simpl in H1, H2. split.
    + destruct u1; [by apply passes_hot|done].
    + destruct u1'; [by apply passes_hot|done].
Qed.

Lemma edge_relaxable_reverse d e :
  BellmanFordAlgorithm.edge_relaxable d (reverse_edge e) = BellmanFordAlgorithm.edge_relaxable d e.
Proof. unfold BellmanFordAlgorithm.edge_relaxable. simpl. apply orb_comm. Qed.

Lemma negative_cycle_same_link edges edges' st :
  Forall2 same_link edges edges' →
  BellmanFordAlgorithm.negative_cycle edges' st = BellmanFordAlgorithm.negative_cycle edges st.
Proof.
  unfold BellmanFordAlgorithm.negative_cycle.
  induction 1 as [|e e' l l' He Hl IH]; [done|]. simpl. rewrite IH. f_equal.
  destruct He as [-> | ->]; [done|apply edge_relaxable_reverse].
Qed.

Lemma hot_negative_cycle edges st e :
  e ∈ edges → hot st e → BellmanFordAlgorithm.negative_cycle edges st = true.
Proof.
  intros He (Hw & [a Ha] & [b Hb] & Hfin).
  apply negative_cycle_true. exists e. split; [done|].
  unfold BellmanFordAlgorithm.can_relax. rewrite Ha, Hb.
  destruct Hfin as [[x Hx]|[x Hx]].
  - rewrite Ha in Hx. injection Hx as ->. destruct b as [b|]; simpl; [|by left].
    destruct (decide (x + e_weight e < b)); [left|right]; lia.
  - rewrite Hb in Hx. injection Hx as ->. destruct a as [a|]; simpl; [|by right].
    destruct (decide (a + e_weight e < x)); [left|right]; lia.
Qed.

Lemma bf_same_link fuel nodes edges edges' source dest :
  Forall2 same_link edges edges' →
  BellmanFordAlgorithm.execute fuel nodes edges' source dest
  = BellmanFordAlgorithm.execute fuel nodes edges source dest.
Proof.
  intros H. unfold BellmanFordAlgorithm.execute.
  destruct (passes_same_link (length nodes - 1) edges edges' (init_state nodes source) 0 H)
    as [->|[(e & He & Hhot) (e1 & He1 & Hhot1)]].
  - destruct (BellmanFordAlgorithm.passes _ edges _ _) as [st iters].
    by rewrite (negative_cycle_same_link edges edges' st H).
  - destruct (BellmanFordAlgorithm.passes _ edges _ _) as [st iters].
    destruct (BellmanFordAlgorithm.passes _ edges' _ _) as [st' iters'].
    simpl in Hhot, Hhot1.
    rewrite (hot_negative_cycle edges st e He Hhot).
    rewrite (negative_cycle_same_link edges edges' st' H).
    by rewrite (hot_negative_cycle edges st' e1 He1 Hhot1).
Qed.

Lemma same_link_replace l1 e l2 :
  Forall2 same_link (l1 ++ e :: l2) (l1 ++ reverse_edge e :: l2).
Proof.
  apply Forall2_app; [apply Forall_Forall2_diag, Forall_forall; intros; by left|].
  constructor; [by right|].
  apply Forall_Forall2_diag, Forall_forall; intros; by left.
Qed.


End Symmetry.

(** ** What relaxation preserves *)

Section RelaxationFacts.
Variable ids : gset string.
Variable arc : string → string → Z → Prop.
Variable source : string.

Lemma relax_dir_fst w st upd u v :
  (BellmanFordAlgorithm.relax_dir w (st, upd) u v).1 = relax st u v w.
Proof.
  unfold BellmanFordAlgorithm.relax_dir, relax.
  destruct (st_dist st !! u) as [[a|]|]; try done.
  by destruct (BellmanFordAlgorithm.can_relax (st_dist st) u v w).
Qed.

Lemma relax_cases st u v w :
  relax st u v w = st
  ∨ ∃ a b, st_dist st !! u = Some (Fin a) ∧ st_dist st !! v = Some b
           ∧ num_ltb (Fin (a + w)) b = true
           ∧ relax st u v w = {| st_dist := <[v := Fin (a + w)]> (st_dist st);
                                 st_prev := <[v := Some u]> (st_prev st) |}.
Proof.
  unfold relax. destruct (st_dist st !! u) as [[a|]|] eqn:Eu; try by left.
  destruct (BellmanFordAlgorithm.can_relax (st_dist st) u v w) eqn:Ec; [|by left].
  right. apply can_relax_inv in Ec as (a' & b & Ha' & Hb & Hlt).
  rewrite Eu in Ha'. injection Ha' as <-. by exists a, b.
Qed.

Lemma relax_keys st u v w : keys_ok ids st → keys_ok ids (relax st u v w).
Proof.
  intros [Hd Hp]. destruct (relax_cases st u v w) as [->|(a & b & Hu & Hv & _ & ->)]; [done|].
  assert (v ∈ ids) as Hin by (rewrite <- Hd; apply elem_of_dom; by eexists).
  split; simpl; rewrite dom_insert_L; set_solver.
Qed.

Lemma relax_fin st u v w x : fin_at st x → fin_at (relax st u v w) x.
Proof.
  intros [c Hc]. destruct (relax_cases st u v w) as [->|(a & b & Hu & Hv & _ & ->)];
    [by exists c|].
  unfold fin_at. simpl. destruct (decide (v = x)) as [->|Hne].
  - rewrite lookup_insert_eq. by eexists.
  - rewrite lookup_insert_ne by done. by exists c.
Qed.

Lemma relax_inv st u v w :
  sp_inv ids arc source st → (u ∈ ids → v ∈ ids → arc u v w) →
  sp_inv ids arc source (relax st u v w).
Proof.
  intros [Hkeys Hwit Hpred] Harc.
  pose proof (relax_keys st u v w Hkeys) as Hkeys'.
  destruct (relax_cases st u v w) as [->|(a & b & Hu & Hv & Hlt & E)]; [done|].
  assert (u ∈ ids ∧ v ∈ ids) as [Huin Hvin].
  { destruct Hkeys as [<- _]. split; apply elem_of_dom; by eexists. }
  assert (fin_at (relax st u v w) v) as Hfv.
  { rewrite E. unfold fin_at. simpl. rewrite lookup_insert_eq. by eexists. }
  split; [done| |].
  - intros x c Hx. rewrite E in Hx. simpl in Hx.
    destruct (decide (v = x)) as [->|Hne].
    + rewrite lookup_insert_eq in Hx. injection Hx as <-.
      destruct (Hwit u a Hu) as [n Hn]. exists (S n). econstructor; eauto.
    + rewrite lookup_insert_ne in Hx by done. by apply Hwit.
  - intros x p Hp. rewrite E in Hp. simpl in Hp.
    destruct (decide (v = x)) as [->|Hne].
    + rewrite lookup_insert_eq in Hp. injection Hp as <-.
      split; [apply relax_fin; by exists a|done].
    + rewrite lookup_insert_ne in Hp by done.
      destruct (Hpred x p Hp). split; by apply relax_fin.
Qed.

Lemma wpath_nonneg x n c :
  (∀ u v w, arc u v w → 0 ≤ w) → wpath ids arc source x n c → 0 ≤ c.
Proof.
  intros Hnn H. induction H as [|u v w n c H IH Harc]; [done|].
  specialize (Hnn u v w Harc). lia.
Qed.

Lemma relax_inv_nonneg st u v w :
  sp_inv_nonneg ids arc source st → (u ∈ ids → v ∈ ids → arc u v w) → 0 ≤ w →
  sp_inv_nonneg ids arc source (relax st u v w).
Proof.
  intros [Hany Hrank Hsrc Hnn] Harc Hw.
  pose proof (relax_inv st u v w Hany Harc) as Hany'.
  destruct (relax_cases st u v w) as [->|(a & b & Hu & Hv & Hlt & E)]; [done|].
  pose proof (Hnn u a Hu) as Ha.
  assert (u ≠ v) as Huv.
  { intros ->. rewrite Hu in Hv. injection Hv as <-. simpl in Hlt. lia. }
  pose proof (inv_pred _ _ _ _ Hany) as Hpred.
  split; [done| | |].
  - destruct Hrank as [rank Hrank].
    exists (λ y, if decide (y = v) then S (rank u) else rank y).
    intros x p a' b' Hp Hdp Hdx. rewrite E in Hp, Hdp, Hdx. simpl in Hp, Hdp, Hdx.
    destruct (decide (v = x)) as [<-|Hne].
    + rewrite lookup_insert_eq in Hp. rewrite lookup_insert_eq in Hdx.
      injection Hp as <-. injection Hdx as <-.
      rewrite lookup_insert_ne in Hdp by done. rewrite Hu in Hdp. injection Hdp as <-.
      split; [done|].
      destruct (decide (u = v)); [done|]. destruct (decide (v = v)); [|done]. lia.
    + rewrite lookup_insert_ne in Hp by done. rewrite lookup_insert_ne in Hdx by done.
      destruct (decide (x = v)); [congruence|].
      destruct (decide (p = v)) as [->|Hpv].
      * rewrite lookup_insert_eq in Hdp. injection Hdp as <-.
        destruct (Hpred x v Hp) as [[bv Hbv] _].
        rewrite Hbv in Hv. injection Hv as <-. simpl in Hlt.
        destruct (Hrank x v bv b' Hp Hbv Hdx) as [_ Hlex]. split; [lia|]. left. lia.
      * rewrite lookup_insert_ne in Hdp by done. by apply Hrank.
  - intros Hs. rewrite E. simpl. destruct (decide (v = source)) as [->|Hne].
    + specialize (Hsrc Hs). rewrite Hsrc in Hv. injection Hv as <-. simpl in Hlt. lia.
    + rewrite lookup_insert_ne by done. by apply Hsrc.
  - intros x c Hx. rewrite E in Hx. simpl in Hx. destruct (decide (v = x)) as [->|Hne].
    + rewrite lookup_insert_eq in Hx. injection Hx as <-. lia.
    + rewrite lookup_insert_ne in Hx by done. by apply (Hnn x).
Qed.

End RelaxationFacts.

Lemma init_inv nodes arc source :
  sp_inv (node_ids nodes) arc source (init_state nodes source).
Proof.
  split.
  - apply init_state_keys.
  - intros x a. rewrite init_state_dist.
    destruct (decide (x ∈ node_ids nodes)) as [Hx|]; [|done].
    destruct (decide (x = source)) as [->|]; [|done].
    intros [= <-]. exists O. by constructor.
  - intros x p. rewrite init_state_prev. by destruct (decide (x ∈ node_ids nodes)).
Qed.

Lemma init_inv_nonneg nodes arc source :
  sp_inv_nonneg (node_ids nodes) arc source (init_state nodes source).
Proof.
  split.
  - apply init_inv.
  - exists (λ _, O). intros x p a b. rewrite init_state_prev.
    by destruct (decide (x ∈ node_ids nodes)).
  - intros Hs. rewrite init_state_dist. rewrite decide_True by done. by rewrite decide_True.
  - intros x a. rewrite init_state_dist.
    destruct (decide (x ∈ node_ids nodes)); [|done].
    destruct (decide (x = source)); [|done]. by intros [= <-].
Qed.

(** ** The predecessor walks terminate *)

Section WalkTermination.
Variable ids : gset string.
Variable st : sp_state.
Hypothesis Hkeys : keys_ok ids st.
Hypothesis Hpred : pred_ok st.
Hypothesis Hranked : ranked st.

Lemma walk_null_pred x acc f :
  st_prev st !! x = Some None →
  walk (S f) (st_prev st) (JStr x) acc = Some (JStr x :: acc).
Proof. intros H. simpl. unfold prev_get. simpl. rewrite H. by destruct f. Qed.

Lemma walk_some_pred x p acc f :
  st_prev st !! x = Some (Some p) →
  walk (S f) (st_prev st) (JStr x) acc = walk f (st_prev st) (JStr p) (JStr x :: acc).
Proof. intros H. simpl. unfold prev_get. simpl. by rewrite H. Qed.

Lemma walk_terminates_fin (rank : string → nat) :
  (∀ x p a b, st_prev st !! x = Some (Some p) →
     st_dist st !! p = Some (Fin a) → st_dist st !! x = Some (Fin b) →
     0 ≤ a ∧ (a < b ∨ (a = b ∧ (rank p < rank x)%nat))) →
  ∀ n k x b, st_dist st !! x = Some (Fin b) → Z.to_nat b = n → rank x = k →
    ∃ f, ∀ acc, is_Some (walk f (st_prev st) (JStr x) acc).
Proof.
  intros Hrank n. induction n as [n IHn] using lt_wf_ind.
  intros k. induction k as [k IHk] using lt_wf_ind.
  intros x b Hb Hn Hk.
  assert (x ∈ ids) as Hx by (destruct Hkeys as [<- _]; apply elem_of_dom; by eexists).
  assert (is_Some (st_prev st !! x)) as [[p|] Hp].
  { apply elem_of_dom. by destruct Hkeys as [_ ->]. }
  - destruct (Hpred x p Hp) as [[a Ha] _].
    destruct (Hrank x p a b Hp Ha Hb) as [Ha0 [Hlt|[-> Hlt]]].
    + destruct (IHn (Z.to_nat a)) with (k := rank p) (x := p) (b := a) as [f Hf];
        [lia|done..|].
      exists (S f). intros acc. rewrite (walk_some_pred x p) by done. apply Hf.
    + destruct (IHk (rank p)) with (x := p) (b := b) as [f Hf]; [lia|done..|].
      exists (S f). intros acc. rewrite (walk_some_pred x p) by done. apply Hf.
  - exists 1%nat. intros acc. rewrite walk_null_pred by done. by eexists.
Qed.

Lemma walk_terminates x :
  x ∈ ids → ∃ f, ∀ acc, is_Some (walk f (st_prev st) (JStr x) acc).
Proof.
  intros Hx.
  assert (is_Some (st_dist st !! x)) as [[b|] Hb] by by apply (keys_ok_dist ids).
  - destruct Hranked as [rank Hrank]. by eapply (walk_terminates_fin rank Hrank).
  - assert (is_Some (st_prev st !! x)) as [[p|] Hp].
    { apply elem_of_dom. by destruct Hkeys as [_ ->]. }
    + destruct (Hpred x p Hp) as [_ [a Ha]]. congruence.
    + exists 1%nat. intros acc. rewrite walk_null_pred by done. by eexists.
Qed.

(** One bound serves all the walks of the routing-table loop. *)
Lemma walks_common_fuel (nodes : list Node) :
  (∀ n, n ∈ nodes → n_id n ∈ ids) →
  ∃ F, ∀ f n, (F ≤ f)%nat → n ∈ nodes →
    is_Some (walk f (st_prev st) (JStr (n_id n)) []).
Proof.
  induction nodes as [|m ms IH]; intros Hin.
  { exists O. intros f n _ Hn. by apply elem_of_nil in Hn. }
  destruct IH as [F HF]; [intros n Hn; apply Hin; by right|].
  destruct (walk_terminates (n_id m)) as [fm Hfm]; [apply Hin; by left|].
  exists (F `max` fm)%nat. intros f n Hf Hn.
  apply elem_of_cons in Hn as [->|Hn].
  - destruct (Hfm []) as [p Hp]. exists p. apply (walk_mono fm); [lia|done].
  - apply HF; [lia|done].
Qed.

Lemma routing_table_total (nodes : list Node) (src : string) f :
  (∀ n, n ∈ nodes → is_Some (walk f (st_prev st) (JStr (n_id n)) [])) →
  is_Some (routing_table f nodes st src).
Proof.
  unfold routing_table. generalize (@nil RoutingTableEntry).
  induction nodes as [|m ms IH]; intros t Hw; [by eexists|].
  cbn [fold_left].
  assert (is_Some (table_step f st src (Some t) m)) as [t' ->].
  { unfold table_step. destruct (decide (n_id m = src)); [by eexists|].
    destruct (st_dist st !! n_id m) as [[c|]|]; try by eexists.
    destruct (Hw m) as [p ->]; [by left|]. by eexists. }
  apply IH. intros n Hn. apply Hw. by right.
Qed.

Lemma reconstruct_total (nodes : list Node) (src dest : string) iters :
  (∀ n, n ∈ nodes → n_id n ∈ ids) → dest ∈ ids →
  ∃ F, ∀ f, (F ≤ f)%nat → ∃ r, reconstruct f nodes st src dest iters = Returned r.
Proof.
  intros Hnodes Hdest.
  destruct (walks_common_fuel nodes Hnodes) as [F HF].
  destruct (walk_terminates dest Hdest) as [fd Hfd].
  exists (F `max` fd)%nat. intros f Hf. unfold reconstruct.
  destruct (Hfd []) as [p Hp]. rewrite (walk_mono fd f _ _ _ _ ltac:(lia) Hp).
  destruct (routing_table_total nodes src f) as [t ->]; [|by eexists].
  intros n Hn. apply HF; [lia|done].
Qed.

End WalkTermination.

(** ** Bellman-Ford keeps the invariants *)

Section BellmanFordInvariant.
Variable nodes : list Node.
Variable edges : list Edge.
Variable source : string.

Lemma joined_edge_arc e u v :
  e ∈ edges → joined e u v → u ∈ node_ids nodes → v ∈ node_ids nodes →
  edge_arc nodes edges u v (e_weight e).
Proof. intros He Hj Hu Hv. split; [done|]. split; [done|]. by exists e. Qed.

Lemma bf_inv k :
  sp_inv (node_ids nodes) (edge_arc nodes edges) source
         (k_passes k edges (init_state nodes source)).
Proof.
  apply k_passes_invariant; [|apply init_inv].
  intros e st upd u v He Hj Hst. rewrite relax_dir_fst.
  apply relax_inv; [done|]. by apply joined_edge_arc.
Qed.

Lemma bf_inv_nonneg k :
  weights_nonneg edges →
  sp_inv_nonneg (node_ids nodes) (edge_arc nodes edges) source
                (k_passes k edges (init_state nodes source)).
Proof.
  intros Hnn. apply k_passes_invariant; [|apply init_inv_nonneg].
  intros e st upd u v He Hj Hst. rewrite relax_dir_fst.
  apply relax_inv_nonneg; [done|by apply joined_edge_arc|by apply Hnn].
Qed.

End BellmanFordInvariant.

(** ** Dijkstra: the adjacency list *)

Section GraphFacts.
Import DijkstraAlgorithm.

Lemma obj_get_set k v o k' :
  obj_get (obj_set k v o) k' = if decide (k' = k) then Some v else obj_get o k'.
Proof.
  induction o as [|[k0 v0] o IH]; simpl.
  - by destruct (decide (k' = k)).
  - destruct (decide (k = k0)) as [->|Hne]; simpl.
    + by destruct (decide (k' = k0)).
    + destruct (decide (k' = k0)) as [->|Hne'].
      * by rewrite decide_False by done.
      * apply IH.
Qed.

Lemma obj_get_elem o k w : obj_get o k = Some w → k ∈ map fst o.
Proof.
  induction o as [|[k0 v0] o IH]; simpl; [done|].
  destruct (decide (k = k0)) as [->|Hne]; [left|]. intros H. right. by apply IH.
Qed.

Lemma insert_index_elem x l y : y ∈ insert_index x l ↔ y = x ∨ y ∈ l.
Proof.
  induction l as [|z l IH]; simpl; [set_solver|].
  destruct (x.1 <=? z.1)%N; [set_solver|].
  rewrite elem_of_cons, IH. set_solver.
Qed.

Lemma sort_index_elem l y : y ∈ sort_index l ↔ y ∈ l.
Proof.
  unfold sort_index. induction l as [|x l IH]; simpl; [done|].
  rewrite insert_index_elem, IH. set_solver.
Qed.

(** [Object.keys] lists every key of the object, whatever its order. *)
Lemma obj_keys_elem o k : k ∈ obj_keys o ↔ k ∈ map fst o.
Proof.
  unfold obj_keys. rewrite elem_of_app, list_elem_of_filter. split.
  - intros [H|[_ H]]; [|done].
    apply list_elem_of_fmap in H as ([i k'] & -> & H). simpl.
    apply sort_index_elem, list_elem_of_omap in H as (k0 & Hk0 & H).
    destruct (array_index k0); [|done]. simpl in H. by injection H as _ ->.
  - intros H. destruct (array_index k) as [i|] eqn:E; [left|by right].
    apply list_elem_of_fmap. exists (i, k). split; [done|].
    apply sort_index_elem, list_elem_of_omap. exists k. split; [done|]. by rewrite E.
Qed.

Lemma empty_graph_lookup nodes x :
  empty_graph nodes !! x = if decide (x ∈ node_ids nodes) then Some [] else None.
Proof.
  unfold empty_graph.
  assert (∀ g : gmap string (list (string * Z)), fold_left (λ g n, <[n_id n:=[]]> g) nodes g !! x
               = if decide (x ∈ map n_id nodes) then Some [] else g !! x) as H.
  { induction nodes as [|n ns IH]; intros g; cbn [fold_left map].
    { destruct (decide (x ∈ [])) as [H|H]; [by apply elem_of_nil in H|done]. }
    rewrite IH.
    destruct (decide (x ∈ map n_id ns)) as [Hin|Hnin];
      destruct (decide (x ∈ n_id n :: map n_id ns)) as [H|H]; try done.
    - exfalso. apply H. by right.
    - apply elem_of_cons in H as [->|?]; [|done]. by rewrite lookup_insert_eq.
    - rewrite lookup_insert_ne; [done|]. intros Heq. apply H. rewrite <- Heq. by left. }
  rewrite H, lookup_empty.
  destruct (decide (x ∈ map n_id nodes)) as [H1|H1];
    destruct (decide (x ∈ node_ids nodes)) as [H2|H2]; try done.
  - exfalso. by apply H2, elem_of_node_ids.
  - exfalso. by apply H1, elem_of_node_ids.
Qed.

(** Adding an edge: the keys stay, the two arcs of the edge get its weight,
    the other arcs stay. *)
Lemma add_edge_spec g e g' :
  add_edge (Some g) e = Some g' →
  dom g' = dom g ∧ e_source e ∈ dom g ∧ e_target e ∈ dom g
  ∧ ∀ u v w, graph_arc g' u v w ↔
      if decide (joined e u v) then w = e_weight e else graph_arc g u v w.
Proof.
  unfold add_edge. simpl.
  destruct (g !! e_source e) as [o1|] eqn:E1; [|done]. simpl.
  set (g1 := <[e_source e := obj_set (e_target e) (e_weight e) o1]> g).
  destruct (g1 !! e_target e) as [o2|] eqn:E2; [|done]. simpl. intros [= <-].
  assert (e_source e ∈ dom g) as Hs by (apply elem_of_dom; by eexists).
  assert (e_target e ∈ dom g) as Ht.
  { apply elem_of_dom. unfold g1 in E2. destruct (decide (e_source e = e_target e)) as [Heq|Hne].
    - rewrite <- Heq. by eexists.
    - rewrite lookup_insert_ne in E2 by done. by eexists. }
  split; [|split; [done|split; [done|]]].
  { unfold g1. rewrite !dom_insert_L. set_solver. }
  intros u v w. unfold graph_arc.
  destruct (decide (u = e_target e)) as [->|Hut].
  - rewrite lookup_insert_eq. split.
    + intros (adj & [= <-] & Hget). rewrite obj_get_set in Hget.
      destruct (decide (v = e_source e)) as [->|Hvs].
      * injection Hget as <-. rewrite decide_True; [done|]. by right.
      * unfold g1 in E2. destruct (decide (e_source e = e_target e)) as [Heq|Hne].
        -- rewrite Heq, lookup_insert_eq in E2. injection E2 as <-.
           rewrite obj_get_set in Hget. rewrite decide_False in Hget by congruence.
           rewrite decide_False; [|intros [[? ?]|[? ?]]; congruence].
           exists o1. split; [congruence|done].
        -- rewrite lookup_insert_ne in E2 by done.
           rewrite decide_False; [|intros [[? ?]|[? ?]]; congruence].
           by exists o2.
    + intros H. eexists. split; [done|]. rewrite obj_get_set.
      destruct (decide (v = e_source e)) as [->|Hvs].
      * rewrite decide_True in H; [by rewrite H|by right].
      * rewrite decide_False in H; [|intros [[? ?]|[? ?]]; congruence].
        destruct H as (adj & Hadj & Hget).
        unfold g1 in E2. destruct (decide (e_source e = e_target e)) as [Heq|Hne].
        -- rewrite Heq, lookup_insert_eq in E2. injection E2 as <-.
           rewrite obj_get_set, decide_False by congruence.
           rewrite Heq in E1. congruence.
        -- rewrite lookup_insert_ne in E2 by done. congruence.
  - rewrite lookup_insert_ne by done. unfold g1.
    destruct (decide (u = e_source e)) as [->|Hus].
    + rewrite lookup_insert_eq. split.
      * intros (adj & [= <-] & Hget). rewrite obj_get_set in Hget.
        destruct (decide (v = e_target e)) as [->|Hvt].
        -- injection Hget as <-. rewrite decide_True; [done|]. by left.
        -- rewrite decide_False; [|intros [[? ?]|[? ?]]; congruence]. by exists o1.
      * intros H. eexists. split; [done|]. rewrite obj_get_set.
        destruct (decide (v = e_target e)) as [->|Hvt].
        -- rewrite decide_True in H; [by rewrite H|by left].
        -- rewrite decide_False in H; [|intros [[? ?]|[? ?]]; congruence].
           destruct H as (adj & Hadj & Hget). congruence.
    + rewrite lookup_insert_ne by done.
      rewrite decide_False; [done|]. intros [[? ?]|[? ?]]; congruence.
Qed.

Lemma add_edge_None e : add_edge None e = None.
Proof. done. Qed.

Lemma build_graph_snoc nodes l e :
  build_graph nodes (l ++ [e]) = add_edge (build_graph nodes l) e.
Proof. unfold build_graph. by rewrite fold_left_app. Qed.

(** The arcs of the adjacency list come from edges between listed nodes;
    every edge gives an arc in both directions, with the weight of the last
    edge that joins the two nodes. *)
Lemma build_graph_spec nodes edges g :
  build_graph nodes edges = Some g →
  dom g = node_ids nodes
  ∧ endpoints_exist nodes edges
  ∧ (∀ u v w, graph_arc g u v w → edge_arc nodes edges u v w)
  ∧ (∀ e u v, e ∈ edges → joined e u v → ∃ w, graph_arc g u v w).
Proof.
  revert g. induction edges as [|e l IH] using rev_ind; intros g.
  - unfold build_graph. simpl. intros [= <-].
    split; [|split; [|split]].
    + apply set_eq. intros x. rewrite elem_of_dom, empty_graph_lookup.
      destruct (decide (x ∈ node_ids nodes)); [|by rewrite is_Some_alt].
      split; [done|]. by eexists.
    + intros e He. by apply elem_of_nil in He.
    + intros u v w (adj & Hadj & Hget). rewrite empty_graph_lookup in Hadj.
      destruct (decide (u ∈ node_ids nodes)); [|done]. by injection Hadj as <-.
    + intros e u v He. by apply elem_of_nil in He.
  - rewrite build_graph_snoc.
    destruct (build_graph nodes l) as [g0|] eqn:E0; [|done].
    destruct (IH g0 eq_refl) as (Hdom & Hends & Hsound & Hcompl).
    intros Hadd. apply add_edge_spec in Hadd as (Hdom' & Hs & Ht & Harcs).
    rewrite Hdom in Hdom', Hs, Ht.
    split; [done|]. split; [|split].
    + intros e' He'. apply elem_of_app in He' as [He'|He'].
      * by apply Hends.
      * apply list_elem_of_singleton in He' as ->. done.
    + intros u v w Harc. apply Harcs in Harc.
      destruct (decide (joined e u v)) as [Hj|Hj].
      * subst w. split; [|split].
        -- destruct Hj as [[<- _]|[<- _]]; done.
        -- destruct Hj as [[_ <-]|[_ <-]]; done.
        -- exists e. split; [apply elem_of_app; right; by left|done].
      * destruct (Hsound u v w Harc) as (Hu & Hv & e' & He' & Hw & Hj').
        split; [done|]. split; [done|]. exists e'.
        split; [apply elem_of_app; by left|done].
    + intros e' u v He' Hj'.
      destruct (decide (joined e u v)) as [Hj|Hj].
      * exists (e_weight e). apply Harcs. by rewrite decide_True.
      * apply elem_of_app in He' as [He'|He'].
        -- destruct (Hcompl e' u v He' Hj') as [w Hw]. exists w.
           apply Harcs. by rewrite decide_False.
        -- apply list_elem_of_singleton in He' as ->. done.
Qed.

Lemma build_graph_total nodes edges :
  endpoints_exist nodes edges → is_Some (build_graph nodes edges).
Proof.
  induction edges as [|e l IH] using rev_ind; intros Hends; [by eexists|].
  rewrite build_graph_snoc.
  destruct IH as [g0 Hg0].
  { intros e' He'. apply Hends, elem_of_app. by left. }
  rewrite Hg0. destruct (build_graph_spec nodes l g0 Hg0) as (Hdom & _).
  destruct (Hends e) as [Hs Ht]; [apply elem_of_app; right; by left|].
  unfold add_edge. simpl.
  rewrite <- Hdom in Hs, Ht. apply elem_of_dom in Hs as [o1 ->]. simpl.
  assert (is_Some (<[e_source e:=obj_set (e_target e) (e_weight e) o1]> g0 !! e_target e))
    as [o2 ->]; [|by eexists].
  apply elem_of_dom. rewrite dom_insert_L. set_solver.
Qed.

(** With one weight per pair of nodes, the arcs of the adjacency list are
    the arcs of the edge list. *)
Lemma build_graph_arcs nodes edges g :
  build_graph nodes edges = Some g → one_weight_per_link edges →
  ∀ u v w, graph_arc g u v w ↔ edge_arc nodes edges u v w.
Proof.
  intros Hg Hone u v w.
  destruct (build_graph_spec nodes edges g Hg) as (_ & _ & Hsound & Hcompl).
  split; [apply Hsound|].
  intros (Hu & Hv & e & He & <- & Hj).
  destruct (Hcompl e u v He Hj) as [w' Hw'].
  destruct (Hsound u v w' Hw') as (_ & _ & e' & He' & <- & Hj').
  by rewrite (Hone e e' u v He He' Hj Hj').
Qed.

End GraphFacts.

(** ** Dijkstra keeps the invariants of relaxation *)

Section DijkstraInvariant.
Import DijkstraAlgorithm.

Lemma relax_neighbor_eq cur adj visited st nb :
  relax_neighbor cur adj visited st nb =
  if decide (nb ∈ visited) then st
  else match obj_get adj nb with
       | Some w => relax st cur nb w
       | None => st
       end.
Proof.
  unfold relax_neighbor, relax, BellmanFordAlgorithm.can_relax.
  destruct (decide (nb ∈ visited)); [done|].
  destruct (st_dist st !! cur) as [[a|]|]; destruct (obj_get adj nb) as [w|];
    destruct (st_dist st !! nb) as [b|]; try done.
Qed.

Lemma fold_neighbors_invariant (P : sp_state → Prop) cur adj visited keys st :
  (∀ st nb w, P st → obj_get adj nb = Some w → P (relax st cur nb w)) →
  P st → P (fold_left (relax_neighbor cur adj visited) keys st).
Proof.
  intros Hstep. revert st. induction keys as [|k ks IH]; intros st Hst; [done|].
  simpl. apply IH. rewrite relax_neighbor_eq.
  destruct (decide (k ∈ visited)); [done|].
  destruct (obj_get adj k) as [w|] eqn:E; [|done]. by apply Hstep.
Qed.

Lemma default_adj_arc (g : gmap string (list (string * Z))) cur nb w :
  obj_get (default [] (g !! cur)) nb = Some w → graph_arc g cur nb w.
Proof.
  destruct (g !! cur) as [adj|] eqn:E; simpl; [|done]. intros H. by exists adj.
Qed.

Lemma loop_invariant (P : sp_state → Prop) n g dest s :
  (∀ st cur nb w, P st → graph_arc g cur nb w → P (relax st cur nb w)) →
  P (d_st s) → P (d_st (loop n g dest s)).
Proof.
  intros Hstep. revert s. induction n as [|n IH]; intros s Hs; [done|].
  simpl. destruct (d_unvisited s) as [|first rest]; [done|].
  set (cur := fold_left (pick_min (st_dist (d_st s))) rest first).
  assert (P (fold_left (relax_neighbor cur (default [] (g !! cur)) (d_visited s))
                       (obj_keys (default [] (g !! cur))) (d_st s))) as Hfold.
  { apply fold_neighbors_invariant; [|done].
    intros st nb w Hst Hget. apply Hstep; [done|]. by apply default_adj_arc. }
  destruct (st_dist (d_st s) !! cur) as [[a|]|]; try done;
    (destruct (decide (cur = dest)); [done|by apply IH]).
Qed.

Lemma graph_arc_ids nodes edges g u v w :
  build_graph nodes edges = Some g → graph_arc g u v w →
  u ∈ node_ids nodes ∧ v ∈ node_ids nodes.
Proof.
  intros Hg Harc. destruct (build_graph_spec nodes edges g Hg) as (_ & _ & Hsound & _).
  by destruct (Hsound u v w Harc) as (? & ? & _).
Qed.

Lemma dijkstra_inv nodes edges source dest g n s0 :
  build_graph nodes edges = Some g →
  d_st s0 = init_state nodes source →
  sp_inv (node_ids nodes) (graph_arc g) source (d_st (loop n g dest s0)).
Proof.
  intros Hg Hs0. apply loop_invariant; [|rewrite Hs0; apply init_inv].
  intros st cur nb w Hst Harc. by apply relax_inv.
Qed.

Lemma dijkstra_inv_nonneg nodes edges source dest g n s0 :
  build_graph nodes edges = Some g → weights_nonneg edges →
  d_st s0 = init_state nodes source →
  sp_inv_nonneg (node_ids nodes) (graph_arc g) source (d_st (loop n g dest s0)).
Proof.
  intros Hg Hnn Hs0. apply loop_invariant; [|rewrite Hs0; apply init_inv_nonneg].
  intros st cur nb w Hst Harc. apply relax_inv_nonneg; [done..|].
  destruct (build_graph_spec nodes edges g Hg) as (_ & _ & Hsound & _).
  destruct (Hsound cur nb w Harc) as (_ & _ & e & He & <- & _). by apply Hnn.
Qed.

End DijkstraInvariant.

(** ** Walks along fewer arcs are walks along more arcs *)

Lemma wpath_mono ids (arc arc' : string → string → Z → Prop) source x n c :
  (∀ u v w, arc u v w → arc' u v w) →
  wpath ids arc source x n c → wpath ids arc' source x n c.
Proof.
  intros Hsub H. induction H as [|u v w n c H IH Harc]; [by constructor|].
  econstructor; eauto.
Qed.

Lemma witnessed_reachable ids arc source st x a :
  witnessed ids arc source st → st_dist st !! x = Some (Fin a) →
  reachable ids arc source x.
Proof. intros Hwit Hx. destruct (Hwit x a Hx) as [n Hn]. by exists n, a. Qed.

(** What a returned result says of a node: both maps have an entry, and an
    unreachable node has distance [Infinity]. *)
Lemma sp_inv_covers ids arc source st x :
  sp_inv ids arc source st → x ∈ ids →
  is_Some (st_dist st !! x) ∧ is_Some (st_prev st !! x)
  ∧ (¬ reachable ids arc source x → st_dist st !! x = Some Inf).
Proof.
  intros [[Hd Hp] Hwit _] Hx. rewrite <- Hd in Hx.
  pose proof Hx as Hx'. rewrite Hd, <- Hp in Hx'.
  apply elem_of_dom in Hx as [v Hv]. apply elem_of_dom in Hx'.
  split; [by eexists|]. split; [done|]. intros Hunreach.
  destruct v as [a|]; [|done]. exfalso. apply Hunreach.
  by apply (witnessed_reachable ids arc source st x a).
Qed.

(** ** C7: the maps of a result *)

Section ResultMaps.

Lemma blank_fold_lookup nodes st x :
  let st' := fold_left BGPPathSelection.blank_step nodes st in
  st_dist st' !! x = (if decide (x ∈ map n_id nodes) then Some Inf else st_dist st !! x)
  ∧ st_prev st' !! x = (if decide (x ∈ map n_id nodes) then Some None else st_prev st !! x).
Proof.
  revert st. induction nodes as [|n ns IH]; intros st; cbn [fold_left map].
  { destruct (decide (x ∈ [])) as [H|H]; [by apply elem_of_nil in H|done]. }
  destruct (IH (BGPPathSelection.blank_step st n)) as [-> ->].
  destruct (decide (x ∈ map n_id ns)) as [Hin|Hnin];
    destruct (decide (x ∈ n_id n :: map n_id ns)) as [H|H]; try done.
  - exfalso. apply H. by right.
  - apply elem_of_cons in H as [->|?]; [|done]. simpl. by rewrite !lookup_insert_eq.
  - simpl. rewrite !lookup_insert_ne; [done| |]; intros Heq; apply H; rewrite <- Heq; by left.
Qed.

Lemma seed_is_Some w i before p st x :
  (is_Some (st_dist st !! x) → is_Some (st_dist (BGPPathSelection.seed w i before p st) !! x))
  ∧ (is_Some (st_prev st !! x) → is_Some (st_prev (BGPPathSelection.seed w i before p st) !! x)).
Proof.
  revert i before st. induction p as [|y p IH]; intros i before st; [done|].
  simpl. destruct (IH (S i) (Some y)
    {| st_dist := <[y:=if decide (i = 0%nat) then Fin 0 else Fin w]> (st_dist st);
       st_prev := match i with
                  | O => st_prev st
                  | S _ => match before with
                           | Some b => <[y:=Some b]> (st_prev st)
                           | None => st_prev st
                           end
                  end |}) as [IH1 IH2].
  split; intros H.
  - apply IH1. simpl. destruct (decide (y = x)) as [->|Hne].
    + rewrite lookup_insert_eq. by eexists.
    + by rewrite lookup_insert_ne.
  - apply IH2. simpl. destruct i as [|i]; [done|]. destruct before as [b|]; [|done].
    destruct (decide (y = x)) as [->|Hne].
    + rewrite lookup_insert_eq. by eexists.
    + by rewrite lookup_insert_ne.
Qed.

Lemma seed_dist_off_path w i before p st x :
  x ∉ p → st_dist (BGPPathSelection.seed w i before p st) !! x = st_dist st !! x.
Proof.
  revert i before st. induction p as [|y p IH]; intros i before st Hx; [done|].
  simpl. rewrite IH by (intros ?; apply Hx; by right). simpl.
  rewrite lookup_insert_ne; [done|]. intros ->. apply Hx. by left.
Qed.

Lemma bgp_maps rng nodes edges source dest x :
  let r := BGPPathSelection.execute rng nodes edges source dest in
  (BGPPathSelection.findAllPaths nodes edges source dest ≠ [] →
   x ∈ node_ids nodes →
   is_Some (distances r !! x) ∧ is_Some (previous r !! x)
   ∧ (JStr x ∉ res_path r → distances r !! x = Some Inf))
  ∧ (BGPPathSelection.findAllPaths nodes edges source dest = [] →
     distances r = ∅ ∧ previous r = ∅).
Proof.
  intros r. subst r. unfold BGPPathSelection.execute.
  destruct (BGPPathSelection.findAllPaths nodes edges source dest) as [|p0 r0] eqn:E.
  { split; [done|]. by intros _. }
  split; [|done]. intros _ Hx. apply elem_of_node_ids in Hx.
  destruct (BGPPathSelection.assign edges rng 0 (p0 :: r0)) as [bgpPaths k].
  destruct (fold_left _ nodes ([], k)) as [table k'].
  pose proof (blank_fold_lookup nodes (mkSt ∅ ∅) x) as [Hd Hp].
  cbv zeta in Hd, Hp. rewrite decide_True in Hd by done. rewrite decide_True in Hp by done.
  destruct (BGPPathSelection.selectBestPath bgpPaths) as [best|]; simpl.
  - destruct (seed_is_Some (BGPPathSelection.weight best) 0 None
                (BGPPathSelection.bp_path best)
                (fold_left BGPPathSelection.blank_step nodes (mkSt ∅ ∅)) x) as [H1 H2].
    split; [apply H1; by eexists|]. split; [apply H2; by eexists|].
    intros Hoff. rewrite seed_dist_off_path; [done|].
    intros Hin. apply Hoff, list_elem_of_fmap. by exists x.
  - rewrite Hd, Hp. split; [by eexists|]. split; [by eexists|]. done.
Qed.




End ResultMaps.

(** ** Walks without repeated nodes *)

Section SimpleWalks.
Variable ids : gset string.
Variable arc : string → string → Z → Prop.
Variable source : string.
Hypothesis arc_ids : ∀ u v w, arc u v w → u ∈ ids ∧ v ∈ ids.
Hypothesis arc_nonneg : ∀ u v w, arc u v w → 0 ≤ w.

Lemma lwalk_app a s1 s2 :
  lwalk arc a (s1 ++ s2) ↔ lwalk arc a s1 ∧ lwalk arc (endv a s1) s2.
Proof.
  revert a. induction s1 as [|[v w] s1 IH]; intros a; simpl; [tauto|].
  rewrite IH. tauto.
Qed.

Lemma endv_app a s1 s2 : endv a (s1 ++ s2) = endv (endv a s1) s2.
Proof. revert a. induction s1 as [|[v w] s1 IH]; intros a; simpl; [done|apply IH]. Qed.

Lemma steps_cost_app s1 s2 : steps_cost (s1 ++ s2) = steps_cost s1 + steps_cost s2.
Proof.
  unfold steps_cost. induction s1 as [|[v w] s1 IH]; simpl; [done|]. rewrite IH. lia.
Qed.

Lemma lwalk_cost_nonneg a s : lwalk arc a s → 0 ≤ steps_cost s.
Proof.
  revert a. induction s as [|[v w] s IH]; intros a; simpl; [done|].
  intros [Harc Hs]. specialize (IH v Hs). specialize (arc_nonneg a v w Harc).
  unfold steps_cost in *. simpl. lia.
Qed.

Lemma lwalk_vertices a s x :
  lwalk arc a s → x ∈ map fst s → x ∈ ids.
Proof.
  revert a. induction s as [|[v w] s IH]; intros a; simpl; [by intros _ ?%elem_of_nil|].
  intros [Harc Hs] Hx. apply elem_of_cons in Hx as [->|Hx].
  - by destruct (arc_ids a v w Harc).
  - by apply (IH v).
Qed.

(** A walk and a list of steps are the same thing. *)
Lemma wpath_steps x n c :
  wpath ids arc source x n c →
  ∃ s, source ∈ ids ∧ lwalk arc source s ∧ endv source s = x
       ∧ length s = n ∧ steps_cost s = c.
Proof.
  induction 1 as [Hs|u v w n c H (s & Hs & Hw & He & Hl & Hc) Harc].
  - by exists [].
  - exists (s ++ [(v, w)]). split; [done|]. split; [|split; [|split]].
    + apply lwalk_app. split; [done|]. simpl. rewrite He. by split.
    + by rewrite endv_app.
    + rewrite length_app. simpl. lia.
    + rewrite steps_cost_app. unfold steps_cost at 2. simpl. lia.
Qed.

Lemma steps_wpath s :
  source ∈ ids → lwalk arc source s →
  wpath ids arc source (endv source s) (length s) (steps_cost s).
Proof.
  intros Hs. induction s as [|[v w] s IH] using rev_ind; intros Hw.
  - by constructor.
  - apply lwalk_app in Hw as [Hw1 [Harc _]].
    rewrite endv_app, length_app, steps_cost_app. simpl.
    replace (length s + 1)%nat with (S (length s)) by lia.
    rewrite Z.add_0_r.
    econstructor; [by apply IH|done].
Qed.

(** Cutting the cycles out of a walk: same ends, no larger weight, and no
    node visited twice. *)
Lemma lwalk_simple a s :
  lwalk arc a s →
  ∃ s', lwalk arc a s' ∧ endv a s' = endv a s
        ∧ steps_cost s' ≤ steps_cost s ∧ NoDup (a :: map fst s').
Proof.
  revert a. induction s as [|[v w] s IH]; intros a Hw.
  { exists []. split; [done|]. split; [done|]. split; [done|].
    apply NoDup_singleton. }
  destruct Hw as [Harc Hs].
  destruct (IH v Hs) as (s' & Hw' & He' & Hc' & Hnd').
  pose proof (arc_nonneg a v w Harc) as Hw0.
  assert (steps_cost ((v, w) :: s) = w + steps_cost s) as Hcost by done.
  destruct (decide (a ∈ v :: map fst s')) as [Hin|Hnin].
  - apply elem_of_cons in Hin as [->|Hin].
    + exists s'. simpl. split; [done|]. split; [done|]. split; [lia|done].
    + apply list_elem_of_fmap in Hin as ([a' w'] & Ha' & Hin). simpl in Ha'. subst a'.
      apply list_elem_of_split in Hin as (r1 & r2 & ->).
      apply lwalk_app in Hw' as [Hw1 Hw2]. simpl in Hw2. destruct Hw2 as [Harc2 Hw2].
      assert (endv v (r1 ++ [(a, w')]) = a) as Hend by (rewrite endv_app; done).
      exists r2. split; [done|]. split.
      { simpl. rewrite <- He'. rewrite (endv_app v r1 ((a, w') :: r2)). done. }
      split.
      { rewrite Hcost. rewrite steps_cost_app in Hc'.
        pose proof (lwalk_cost_nonneg v r1 Hw1).
        assert (steps_cost ((a, w') :: r2) = w' + steps_cost r2) as E by done.
        rewrite E in Hc'. specialize (arc_nonneg _ _ _ Harc2). lia. }
      apply NoDup_cons in Hnd' as [_ Hnd'].
      rewrite map_app in Hnd'. apply NoDup_app in Hnd' as (_ & _ & Hnd'). done.
  - exists ((v, w) :: s'). simpl. split; [done|]. split; [done|].
    split; [|by apply NoDup_cons].
    unfold steps_cost in *. simpl. lia.
Qed.

(** A walk can be replaced by one of fewer than [size ids] arcs that
    weighs no more. *)
Lemma wpath_short x n c :
  wpath ids arc source x n c →
  ∃ n' c', wpath ids arc source x n' c' ∧ c' ≤ c ∧ (S n' ≤ size ids)%nat.
Proof.
  intros (s & Hs & Hw & <- & <- & <-)%wpath_steps.
  destruct (lwalk_simple source s Hw) as (s' & Hw' & He' & Hc' & Hnd').
  exists (length s'), (steps_cost s'). split; [|split; [done|]].
  - rewrite <- He'. by apply steps_wpath.
  - assert (length (source :: map fst s') ≤ size ids)%nat as Hlen.
    { rewrite <- (size_list_to_set (C := gset string)) by done.
      apply subseteq_size. intros y Hy. apply elem_of_list_to_set in Hy.
      apply elem_of_cons in Hy as [->|Hy]; [done|]. by apply (lwalk_vertices source s'). }
    simpl in Hlen. by rewrite length_map in Hlen.
Qed.

End SimpleWalks.

(** ** Bellman-Ford converges on non-negative weights *)

Section Monotone.

Lemma dist_le_refl st : dist_le st st.
Proof. intros x a H. exists a. split; [done|lia]. Qed.

Lemma dist_le_trans st1 st2 st3 : dist_le st3 st2 → dist_le st2 st1 → dist_le st3 st1.
Proof.
  intros H32 H21 x a Ha. destruct (H21 x a Ha) as (b & Hb & Hle).
  destruct (H32 x b Hb) as (c & Hc & Hle'). exists c. split; [done|lia].
Qed.

Lemma relax_dist_le st u v w : dist_le (relax st u v w) st.
Proof.
  destruct (relax_cases st u v w) as [->|(a & b & Hu & Hv & Hlt & ->)];
    [apply dist_le_refl|].
  intros x c Hx. simpl. destruct (decide (v = x)) as [->|Hne].
  - rewrite lookup_insert_eq. rewrite Hv in Hx. injection Hx as ->.
    exists (a + w). split; [done|]. simpl in Hlt. lia.
  - rewrite lookup_insert_ne by done. exists c. split; [done|lia].
Qed.

Lemma relax_is_Some st u v w x :
  is_Some (st_dist st !! x) → is_Some (st_dist (relax st u v w) !! x).
Proof.
  rewrite <- (relax_dir_fst w st false u v). apply relax_dir_is_Some.
Qed.

(** After the arc [u -> v] has been looked at, the distance of [v] is at
    most that of [u] plus the weight. *)
Lemma relax_target_bound st u v w a :
  st_dist st !! u = Some (Fin a) → is_Some (st_dist st !! v) →
  ∃ b, st_dist (relax st u v w) !! v = Some (Fin b) ∧ b ≤ a + w.
Proof.
  intros Hu [bv Hv].
  destruct (relax_cases st u v w) as [E|(a' & b & Hu' & _ & _ & ->)].
  - rewrite E. unfold relax in E. rewrite Hu in E.
    destruct (BellmanFordAlgorithm.can_relax (st_dist st) u v w) eqn:Ec.
    + exfalso. apply can_relax_inv in Ec as (a' & b & Hu' & Hv' & Hlt).
      assert (st_dist st !! v = Some (Fin (a + w))) as Hv''.
      { rewrite <- E. simpl. by rewrite lookup_insert_eq. }
      rewrite Hu in Hu'. injection Hu' as <-. rewrite Hv' in Hv''.
      injection Hv'' as ->. simpl in Hlt. lia.
    + unfold BellmanFordAlgorithm.can_relax in Ec. rewrite Hu, Hv in Ec.
      destruct bv as [b|]; [|done]. exists b. split; [done|]. simpl in Ec. lia.
  - rewrite Hu in Hu'. injection Hu' as <-. simpl. rewrite lookup_insert_eq.
    exists (a + w). split; [done|lia].
Qed.

Lemma relax_edge_fst acc e :
  (BellmanFordAlgorithm.relax_edge acc e).1
  = relax (relax acc.1 (e_source e) (e_target e) (e_weight e))
          (e_target e) (e_source e) (e_weight e).
Proof.
  unfold BellmanFordAlgorithm.relax_edge. destruct acc as [st upd].
  destruct (BellmanFordAlgorithm.relax_dir (e_weight e) (st, upd) (e_source e) (e_target e))
    as [st1 u1] eqn:E1.
  rewrite relax_dir_fst. f_equal.
  change st1 with (st1, u1).1. rewrite <- E1. apply relax_dir_fst.
Qed.

Lemma fold_relax_dist_le l acc :
  dist_le (fold_left BellmanFordAlgorithm.relax_edge l acc).1 acc.1.
Proof.
  apply (fold_relax_invariant (λ s, dist_le s acc.1) l l); [|done|apply dist_le_refl].
  intros e st upd u v _ _ Hst. rewrite relax_dir_fst.
  eapply dist_le_trans; [apply relax_dist_le|done].
Qed.

Lemma fold_relax_is_Some l acc x :
  is_Some (st_dist acc.1 !! x) →
  is_Some (st_dist (fold_left BellmanFordAlgorithm.relax_edge l acc).1 !! x).
Proof.
  apply (fold_relax_invariant (λ s, is_Some (st_dist s !! x)) l l); [|done].
  intros e st upd u v _ _ Hst. by apply relax_dir_is_Some.
Qed.

Lemma relax_edge_covers acc e u v a :
  joined e u v → st_dist acc.1 !! u = Some (Fin a) → is_Some (st_dist acc.1 !! v) →
  ∃ b, st_dist (BellmanFordAlgorithm.relax_edge acc e).1 !! v = Some (Fin b)
       ∧ b ≤ a + e_weight e.
Proof.
  intros Hj Hu Hv. rewrite relax_edge_fst. destruct Hj as [[<- <-]|[<- <-]].
  - destruct (relax_target_bound acc.1 (e_source e) (e_target e) (e_weight e) a Hu Hv)
      as (b & Hb & Hle).
    destruct (relax_dist_le _ (e_target e) (e_source e) (e_weight e) _ _ Hb)
      as (b' & Hb' & Hle').
    exists b'. split; [done|lia].
  - destruct (relax_dist_le acc.1 (e_source e) (e_target e) (e_weight e) _ _ Hu)
      as (a' & Ha' & Hle).
    destruct (relax_target_bound _ (e_target e) (e_source e) (e_weight e) a' Ha')
      as (b & Hb & Hle'); [by apply relax_is_Some|].
    exists b. split; [done|lia].
Qed.

(** A pass looks at every arc. *)
Lemma pass_covers edges st e u v a :
  e ∈ edges → joined e u v →
  st_dist st !! u = Some (Fin a) → is_Some (st_dist st !! v) →
  ∃ b, st_dist (BellmanFordAlgorithm.pass edges st).1 !! v = Some (Fin b)
       ∧ b ≤ a + e_weight e.
Proof.
  intros He Hj Hu Hv. apply list_elem_of_split in He as (l1 & l2 & ->).
  unfold BellmanFordAlgorithm.pass. rewrite fold_left_app. cbn [fold_left].
  set (acc1 := fold_left BellmanFordAlgorithm.relax_edge l1 (st, false)).
  destruct (fold_relax_dist_le l1 (st, false) u a Hu) as (a1 & Ha1 & Hle1).
  pose proof (fold_relax_is_Some l1 (st, false) v Hv) as Hv1.
  fold acc1 in Ha1, Hv1.
  destruct (relax_edge_covers acc1 e u v a1 Hj Ha1 Hv1) as (b & Hb & Hle).
  destruct (fold_relax_dist_le l2 (BellmanFordAlgorithm.relax_edge acc1 e) v b Hb)
    as (b' & Hb' & Hle').
  exists b'. split; [done|lia].
Qed.

Lemma pass_dist_le edges st : dist_le (BellmanFordAlgorithm.pass edges st).1 st.
Proof. apply (fold_relax_dist_le edges (st, false)). Qed.

(** A pass that reports no update changed nothing, and then nothing can be
    relaxed. *)
Lemma relax_edge_quiet st upd e :
  (BellmanFordAlgorithm.relax_edge (st, upd) e).2 = false →
  upd = false ∧ BellmanFordAlgorithm.relax_edge (st, upd) e = (st, false)
  ∧ BellmanFordAlgorithm.edge_relaxable (st_dist st) e = false.
Proof.
  unfold BellmanFordAlgorithm.relax_edge, BellmanFordAlgorithm.edge_relaxable.
  destruct (relax_dir_cases (e_weight e) st upd (e_source e) (e_target e))
    as [[Hc1 ->]|(a & b & _ & _ & _ & _ & ->)].
  - destruct (relax_dir_cases (e_weight e) st upd (e_target e) (e_source e))
      as [[Hc2 ->]|(a & b & _ & _ & _ & _ & ->)]; [|done].
    simpl. intros ->. by rewrite Hc1, Hc2.
  - set (st1 := {| st_dist := _; st_prev := _ |}).
    by destruct (relax_dir_cases (e_weight e) st1 true (e_target e) (e_source e))
      as [[_ ->]|(a' & b' & _ & _ & _ & _ & ->)].
Qed.

Lemma fold_relax_quiet l st upd :
  (fold_left BellmanFordAlgorithm.relax_edge l (st, upd)).2 = false →
  fold_left BellmanFordAlgorithm.relax_edge l (st, upd) = (st, false)
  ∧ ∀ e, e ∈ l → BellmanFordAlgorithm.edge_relaxable (st_dist st) e = false.
Proof.
  revert st upd. induction l as [|e l IH]; intros st upd; simpl.
  { intros ->. split; [done|]. intros e He. by apply elem_of_nil in He. }
  destruct (BellmanFordAlgorithm.relax_edge (st, upd) e) as [st1 u1] eqn:E1.
  intros H. destruct (IH st1 u1 H) as [Hfold Hl].
  rewrite Hfold in H.
  assert (u1 = false) as ->.
  { destruct u1; [|done]. exfalso. clear -Hfold.
    assert (∀ l st, (fold_left BellmanFordAlgorithm.relax_edge l (st, true)).2 = true) as Ht.
    { clear. induction l as [|e l IH]; intros st; [done|]. simpl.
      destruct (BellmanFordAlgorithm.relax_edge (st, true) e) as [s u] eqn:E.
      destruct u; [apply IH|].
      assert ((BellmanFordAlgorithm.relax_edge (st, true) e).2 = false) as Hq by by rewrite E.
      by apply relax_edge_quiet in Hq as [? _]. }
    specialize (Ht l st1). by rewrite Hfold in Ht. }
  assert ((BellmanFordAlgorithm.relax_edge (st, upd) e).2 = false) as Hq by by rewrite E1.
  apply relax_edge_quiet in Hq as (-> & Heq & Hno).
  rewrite Heq in E1. injection E1 as <-.
  split; [done|]. intros e' He'. apply elem_of_cons in He' as [->|He']; [done|by apply Hl].
Qed.

Lemma pass_quiet edges st :
  (BellmanFordAlgorithm.pass edges st).2 = false →
  (BellmanFordAlgorithm.pass edges st).1 = st
  ∧ BellmanFordAlgorithm.negative_cycle edges st = false.
Proof.
  unfold BellmanFordAlgorithm.pass. intros H.
  apply fold_relax_quiet in H as [-> Hl]. split; [done|].
  unfold BellmanFordAlgorithm.negative_cycle.
  destruct (existsb _ edges) eqn:E; [|done].
  apply existsb_exists in E as (e & He & Hr). apply list_elem_of_In in He.
  by rewrite (Hl e He) in Hr.
Qed.

End Monotone.

Section BellmanFordConverges.
Variable nodes : list Node.
Variable edges : list Edge.
Variable source : string.
Hypothesis Hnonneg : weights_nonneg edges.

Local Abbreviation ids := (node_ids nodes).
Local Abbreviation arc := (edge_arc nodes edges).
Local Abbreviation st0 := (init_state nodes source).

Lemma edge_arc_ids u v w : arc u v w → u ∈ ids ∧ v ∈ ids.
Proof. by intros (? & ? & _). Qed.

Lemma edge_arc_nonneg u v w : arc u v w → 0 ≤ w.
Proof. intros (_ & _ & e & He & <- & _). by apply Hnonneg. Qed.

(** After [k] passes the distance of a node is at most the weight of any
    walk to it of at most [k] arcs. *)
Lemma k_passes_bound k x n c :
  wpath ids arc source x n c → (n ≤ k)%nat →
  ∃ a, st_dist (k_passes k edges st0) !! x = Some (Fin a) ∧ a ≤ c.
Proof.
  revert x n c. induction k as [|k IH]; intros x n c Hpath Hn.
  - destruct Hpath as [Hs|]; [|lia]. exists 0. split; [|lia].
    unfold k_passes. simpl. rewrite init_state_dist.
    rewrite decide_True by done. by rewrite decide_True.
  - change (k_passes (S k) edges st0)
      with (BellmanFordAlgorithm.pass edges (k_passes k edges st0)).1.
    destruct Hpath as [Hs|u v w n c Hpath Harc].
    + destruct (IH source O 0) as (a & Ha & Hle); [by constructor|lia|].
      destruct (pass_dist_le edges _ _ _ Ha) as (a' & Ha' & Hle').
      exists a'. split; [done|lia].
    + destruct (IH u n c Hpath) as (a & Ha & Hle); [lia|].
      destruct Harc as (Hu & Hv & e & He & <- & Hj).
      destruct (pass_covers edges (k_passes k edges st0) e u v a He Hj Ha) as (b & Hb & Hle').
      { apply (keys_ok_dist ids); [apply k_passes_keys|done]. }
      exists b. split; [done|lia].
Qed.

Lemma length_nodes_ids : (size ids ≤ length nodes)%nat.
Proof.
  unfold node_ids. clear. induction nodes as [|n ns IH]; cbn [map length].
  - rewrite list_to_set_nil, size_empty. lia.
  - rewrite list_to_set_cons, size_union_alt, size_singleton.
    assert (size (list_to_set (map n_id ns) ∖ {[n_id n]} : gset string)
            ≤ size (list_to_set (map n_id ns) : gset string))%nat.
    { apply subseteq_size. set_solver. }
    lia.
Qed.

(** The state the loop leaves: nothing can be relaxed in it. *)
Theorem bf_converges :
  BellmanFordAlgorithm.negative_cycle edges
    (BellmanFordAlgorithm.passes (length nodes - 1) edges st0 0).1 = false.
Proof.
  destruct (passes_spec (length nodes - 1) edges st0 0) as (k & Hk & -> & Hstop).
  simpl. destruct (decide (k < length nodes - 1)%nat) as [Hlt|Hge].
  - destruct (Hstop Hlt) as (j & -> & Hquiet).
    apply pass_quiet in Hquiet as [Hsame Hclean].
    change (k_passes (S j) edges st0)
      with (BellmanFordAlgorithm.pass edges (k_passes j edges st0)).1.
    by rewrite Hsame.
  - assert (k = length nodes - 1)%nat as -> by lia.
    set (st := k_passes (length nodes - 1) edges st0).
    destruct (BellmanFordAlgorithm.negative_cycle edges st) eqn:E; [|done]. exfalso.
    apply negative_cycle_true in E as (e & He & Hrel).
    assert (∃ u v, joined e u v
                   ∧ BellmanFordAlgorithm.can_relax (st_dist st) u v (e_weight e) = true)
      as (u & v & Hj & Hc).
    { destruct Hrel as [H|H]; [exists (e_source e), (e_target e)|exists (e_target e), (e_source e)];
        (split; [|done]); [by left|by right]. }
    apply can_relax_inv in Hc as (a & b & Ha & Hb & Hlt).
    pose proof (k_passes_keys nodes edges source (length nodes - 1)) as Hkeys. fold st in Hkeys.
    assert (u ∈ ids) as Hu by by apply (keys_ok_dist_inv ids st u (Fin a)).
    assert (v ∈ ids) as Hv by by apply (keys_ok_dist_inv ids st v b).
    destruct (inv_witnessed _ _ _ _ (bf_inv nodes edges source (length nodes - 1)) u a Ha)
      as [n Hn].
    assert (wpath ids arc source v (S n) (a + e_weight e)) as Hpath.
    { econstructor; [done|]. by apply joined_edge_arc. }
    destruct (wpath_short ids arc source edge_arc_ids edge_arc_nonneg _ _ _ Hpath)
      as (n' & c' & Hpath' & Hc' & Hn').
    destruct (k_passes_bound (length nodes - 1) v n' c' Hpath') as (b' & Hb' & Hle).
    { pose proof length_nodes_ids. lia. }
    fold st in Hb'. rewrite Hb in Hb'. injection Hb' as ->. simpl in Hlt. lia.
Qed.

(** Hence, on non-negative weights, the final distances are the shortest
    distances: finite exactly on the reachable nodes. *)
Lemma scan_clean_lower_bound st x n c :
  keys_ok ids st → source_zero ids source st →
  BellmanFordAlgorithm.negative_cycle edges st = false →
  wpath ids arc source x n c →
  ∃ a, st_dist st !! x = Some (Fin a) ∧ a ≤ c.
Proof.
  intros Hkeys Hsrc Hclean Hpath.
  induction Hpath as [Hs|u v w n c Hpath (a & Ha & Hle) Harc].
  - exists 0. split; [by apply Hsrc|lia].
  - destruct Harc as (Hu & Hv & e & He & <- & Hj).
    pose proof (negative_cycle_false edges st e u v Hclean He Hj) as Hno.
    destruct (keys_ok_dist ids st v Hkeys Hv) as [b Hb].
    unfold BellmanFordAlgorithm.can_relax in Hno. rewrite Ha, Hb in Hno.
    destruct b as [b|]; [|done]. exists b. split; [done|]. simpl in Hno. lia.
Qed.

Theorem bf_final_shortest x :
  let st := (BellmanFordAlgorithm.passes (length nodes - 1) edges st0 0).1 in
  x ∈ ids →
  (∀ a, st_dist st !! x = Some (Fin a) ↔ shortest ids arc source x a)
  ∧ (st_dist st !! x = Some Inf ↔ ¬ reachable ids arc source x).
Proof.
  intros st Hx. pose proof bf_converges as Hclean. fold st in Hclean.
  assert (sp_inv_nonneg ids arc source st) as Hinv.
  { unfold st. destruct (passes_spec (length nodes - 1) edges st0 0) as (k & _ & -> & _).
    by apply bf_inv_nonneg. }
  destruct Hinv as [[Hkeys Hwit Hpred] _ Hsrc _].
  assert (∀ n c, wpath ids arc source x n c → ∃ a, st_dist st !! x = Some (Fin a) ∧ a ≤ c)
    as Hlow by (intros n c; by apply scan_clean_lower_bound).
  destruct (keys_ok_dist ids st x Hkeys Hx) as [d Hd]. split.
  - intros a. split.
    + intros Ha. split; [by apply Hwit|].
      intros n c Hpath. destruct (Hlow n c Hpath) as (a' & Ha' & Hle). congruence.
    + intros [[n Hn] Hmin]. destruct (Hlow n a Hn) as (a' & Ha' & Hle).
      destruct (Hwit x a' Ha') as [n' Hn']. specialize (Hmin n' a' Hn').
      rewrite Ha'. do 2 f_equal. lia.
  - split.
    + intros Hinf (n & c & Hpath). destruct (Hlow n c Hpath) as (a & Ha & _). congruence.
    + intros Hun. destruct d as [a|]; [|done]. exfalso. apply Hun.
      destruct (Hwit x a Hd) as [n Hn]. by exists n, a.
Qed.

End BellmanFordConverges.

(** ** C6: the path and the table of a result *)

Section Reconstruction.

(** The rows of the routing table: one for every listed node other than
    the source whose distance is finite, in the order of the list, with
    that distance as cost. *)
Lemma table_fold_spec fuel st source nodes t0 t :
  fold_left (table_step fuel st source) nodes (Some t0) = Some t →
  ∃ rows, t = t0 ++ rows
    ∧ map destination rows
      = map n_id (filter (λ n, n_id n ≠ source ∧ is_fin <$> st_dist st !! n_id n = Some true) nodes)
    ∧ Forall (λ row, st_dist st !! destination row = Some (cost row)
                     ∧ is_fin (cost row) = true
                     ∧ walk fuel (st_prev st) (JStr (destination row)) [] = Some (path row)
                     ∧ nextHop row = next_hop (path row) (destination row)
                     ∧ hops row = Z.of_nat (length (path row)) - 1) rows.
Proof.
  revert t0. induction nodes as [|n ns IH]; intros t0 H.
  { simpl in H. injection H as <-. exists []. by rewrite app_nil_r. }
  cbn [fold_left] in H.
  destruct (table_step fuel st source (Some t0) n) as [t1|] eqn:E1.
  2:{ exfalso. clear -H. induction ns as [|m ms IHm]; [done|]. by apply IHm. }
  destruct (IH t1 H) as (rows & -> & Hdest & Hrows).
  unfold table_step in E1. rewrite filter_cons.
  destruct (decide (n_id n = source)) as [Hs|Hs].
  { injection E1 as <-. exists rows. rewrite decide_False by tauto. done. }
  destruct (st_dist st !! n_id n) as [[c|]|] eqn:Ed.
  - destruct (walk fuel (st_prev st) (JStr (n_id n)) []) as [np|] eqn:Ew; [|done].
    injection E1 as <-. eexists (_ :: rows). rewrite <- app_assoc. split; [done|].
    rewrite decide_True by (split; done).
    split; [simpl; by rewrite Hdest|]. constructor; [|done]. simpl. by rewrite Ed.
  - injection E1 as <-. exists rows. rewrite decide_False; [done|].
    by intros [_ ?].
  - injection E1 as <-. exists rows. rewrite decide_False; [done|].
    by intros [_ ?].
Qed.

Lemma reconstruct_spec fuel nodes st source dest iters r :
  reconstruct fuel nodes st source dest iters = Returned r →
  ∃ p, walk fuel (st_prev st) (JStr dest) [] = Some p
    ∧ res_path r = (if decide (JStr source ∈ p) then p else [])
    ∧ p ≠ []
    ∧ distances r = st_dist st ∧ previous r = st_prev st
    ∧ map destination (routingTable r)
      = map n_id (filter (λ n, n_id n ≠ source ∧ is_fin <$> st_dist st !! n_id n = Some true) nodes)
    ∧ Forall (λ row, st_dist st !! destination row = Some (cost row)
                     ∧ is_fin (cost row) = true) (routingTable r).
Proof.
  unfold reconstruct, routing_table.
  destruct (walk fuel (st_prev st) (JStr dest) []) as [p|] eqn:Ew; [|done].
  destruct (fold_left _ nodes (Some [])) as [t|] eqn:Et; [|done].
  intros [= <-]. simpl. exists p. split; [done|]. split; [done|].
  split.
  { destruct fuel as [|f]; [done|]. simpl in Ew.
    clear -Ew. intros ->.
    assert (∀ f c acc, walk f (st_prev st) c acc = Some [] → acc = []) as Hacc.
    { clear. induction f as [|f IH]; intros c acc H.
      - destruct c; simpl in H; congruence.
      - destruct c; simpl in H; try (apply IH in H; done). congruence. }
    by apply Hacc in Ew. }
  split; [done|]. split; [done|].
  destruct (table_fold_spec fuel st source nodes [] t Et) as (rows & -> & Hd & Hrows).
  simpl. split; [done|]. eapply Forall_impl; [exact Hrows|]. simpl. tauto.
Qed.

(** A node without predecessor is a path of its own. *)
Lemma walk_no_pred prev x f :
  prev !! x = Some None → walk (S f) prev (JStr x) [] = Some [JStr x].
Proof. intros H. simpl. unfold prev_get. simpl. rewrite H. by destruct f. Qed.

Lemma unreachable_no_pred ids arc source st x :
  sp_inv ids arc source st → x ∈ ids → ¬ reachable ids arc source x →
  st_dist st !! x = Some Inf ∧ st_prev st !! x = Some None.
Proof.
  intros Hinv Hx Hun.
  destruct (sp_inv_covers ids arc source st x Hinv Hx) as (_ & [p Hp] & Hinf).
  specialize (Hinf Hun). split; [done|].
  destruct p as [p|]; [|done].
  destruct (inv_pred _ _ _ _ Hinv x p Hp) as [_ [a Ha]]. congruence.
Qed.

(** What reconstruction returns for an unreachable destination. *)
Lemma reconstruct_unreachable ids arc source st nodes dest iters :
  sp_inv ids arc source st → ranked st →
  (∀ n, n ∈ nodes → n_id n ∈ ids) → dest ∈ ids →
  ¬ reachable ids arc source dest →
  ∃ F, ∀ fuel, (F ≤ fuel)%nat →
    ∃ r, reconstruct fuel nodes st source dest iters = Returned r ∧ res_path r = [].
Proof.
  intros Hinv Hrank Hnodes Hdest Hun.
  destruct (reconstruct_total ids st (inv_keys _ _ _ _ Hinv) (inv_pred _ _ _ _ Hinv)
              Hrank nodes source dest iters Hnodes Hdest) as [F HF].
  exists (S F). intros fuel Hfuel. destruct (HF fuel) as [r Hr]; [lia|].
  exists r. split; [done|].
  destruct (reconstruct_spec _ _ _ _ _ _ _ Hr) as (p & Hw & -> & _).
  destruct (unreachable_no_pred ids arc source st dest Hinv Hdest Hun) as [_ Hnone].
  destruct fuel as [|f]; [lia|]. rewrite (walk_no_pred _ _ _ Hnone) in Hw.
  injection Hw as <-. rewrite decide_False; [done|].
  intros Hin. apply list_elem_of_singleton in Hin. injection Hin as ->.
  apply Hun. exists O, 0. constructor.
  (* the source is the destination, a listed node *) done.
Qed.

End Reconstruction.

Section UnreachableDestination.

Lemma node_in_ids nodes n : n ∈ nodes → n_id n ∈ node_ids nodes.
Proof. intros H. apply elem_of_node_ids, list_elem_of_fmap. by exists n. Qed.

Lemma dijkstra_execute_reconstruct fuel nodes edges source dest r :
  DijkstraAlgorithm.execute fuel nodes edges source dest = Returned r →
  ∃ st iters, reconstruct fuel nodes st source dest iters = Returned r.
Proof.
  unfold DijkstraAlgorithm.execute.
  destruct (DijkstraAlgorithm.build_graph nodes edges); [|done]. eauto.
Qed.

Lemma bf_execute_reconstruct fuel nodes edges source dest r :
  BellmanFordAlgorithm.execute fuel nodes edges source dest = Returned r →
  ∃ st iters, reconstruct fuel nodes st source dest iters = Returned r.
Proof.
  unfold BellmanFordAlgorithm.execute.
  destruct (BellmanFordAlgorithm.passes _ _ _ _) as [st iters].
  destruct (BellmanFordAlgorithm.negative_cycle edges st); [done|]. eauto.
Qed.

Lemma returned_path_and_table fuel nodes st source dest iters r :
  reconstruct fuel nodes st source dest iters = Returned r →
  (∃ p, walk fuel (previous r) (JStr dest) [] = Some p
        ∧ (res_path r = [] ↔ JStr source ∉ p))
  ∧ (∀ x, distances r !! x = Some Inf → x ∉ map destination (routingTable r))
  ∧ Forall (λ row, distances r !! destination row = Some (cost row)
                   ∧ is_fin (cost row) = true) (routingTable r).
Proof.
  intros (p & Hw & Hp & Hne & -> & -> & Hdest & Hrows)%reconstruct_spec.
  split; [|split; [|done]].
  - exists p. split; [done|]. rewrite Hp.
    destruct (decide (JStr source ∈ p)); [|done]. split; [done|tauto].
  - intros x Hinf Hin. rewrite Hdest in Hin.
    apply list_elem_of_fmap in Hin as (n & -> & Hn).
    apply list_elem_of_filter in Hn as [[_ Hfin] _]. by rewrite Hinf in Hfin.
Qed.


Lemma pair_unreachable_B :
  ¬ reachable (node_ids pair_nodes) (edge_arc pair_nodes []) "A" "B".
Proof.
  intros (n & c & Hpath). inversion Hpath as [|u v w n' c' _ Harc].
  destruct Harc as (_ & _ & e & He & _). by apply elem_of_nil in He.
Qed.


End UnreachableDestination.

(** ** The bounds of the model are large enough *)

Section Bounds.
Import DijkstraAlgorithm.

Lemma pick_min_cases d min node : pick_min d min node = min ∨ pick_min d min node = node.
Proof.
  unfold pick_min. destruct (d !! node) as [a|]; [|by left].
  destruct (d !! min) as [b|]; [|by left]. destruct (num_ltb a b); [by right|by left].
Qed.

Lemma pick_min_in d rest first : fold_left (pick_min d) rest first ∈ first :: rest.
Proof.
  revert first. induction rest as [|r rest IH]; intros first; simpl; [by left|].
  specialize (IH (pick_min d first r)).
  destruct (pick_min_cases d first r) as [E|E]; rewrite E in IH |- *; set_solver.
Qed.

Lemma length_filter_ne (l : list string) x :
  x ∈ l → (length (filter (λ y, y ≠ x) l) < length l)%nat.
Proof.
  induction l as [|y l IH]; [by intros ?%elem_of_nil|].
  intros Hx. rewrite filter_cons. destruct (decide (y ≠ x)) as [Hne|Heq]; simpl.
  - apply elem_of_cons in Hx as [->|Hx]; [done|]. specialize (IH Hx). lia.
  - pose proof (length_filter (λ y, y ≠ x) l). lia.
Qed.

(** Dijkstra's loop makes at most as many passes as there are unvisited
    nodes: with that many passes allowed, allowing more changes nothing,
    whatever the graph and the weights. *)
Lemma loop_enough_passes n n' g dest s :
  (length (d_unvisited s) ≤ n)%nat → (n ≤ n')%nat →
  loop n' g dest s = loop n g dest s.
Proof.
  revert n' s. induction n as [|n IH]; intros n' s Hlen Hle.
  { destruct (d_unvisited s) as [|x l] eqn:E; [|simpl in Hlen; lia].
    destruct n'; simpl; [done|]. by rewrite E. }
  destruct n' as [|n']; [lia|]. simpl.
  destruct (d_unvisited s) as [|first rest] eqn:E; [done|].
  pose proof (pick_min_in (st_dist (d_st s)) rest first) as Hcur.
  set (cur := fold_left (pick_min (st_dist (d_st s))) rest first) in *.
  assert (∀ st, loop n' g dest
                  (mkD st ({[cur]} ∪ d_visited s) (filter (λ x, x ≠ cur) (first :: rest))
                       (S (d_iters s)))
                = loop n g dest
                  (mkD st ({[cur]} ∪ d_visited s) (filter (λ x, x ≠ cur) (first :: rest))
                       (S (d_iters s)))) as Hrec.
  { intros st. apply IH; [|lia]. simpl.
    pose proof (length_filter_ne (first :: rest) cur Hcur). simpl in *. lia. }
  destruct (st_dist (d_st s) !! cur) as [[a|]|]; try done;
    (destruct (decide (cur = dest)); [done|apply Hrec]).
Qed.

(** A predecessor walk that leaves the keys of [previous] never ends: from
    a destination that is not a key, [current] becomes [undefined] and stays
    so, unless a node is called "undefined". *)
Lemma walk_undefined_diverges prev f acc :
  prev !! "undefined" = None → walk f prev JUndef acc = None.
Proof.
  intros H. revert acc. induction f as [|f IH]; intros acc; [done|].
  simpl. unfold prev_get. simpl. rewrite H. apply IH.
Qed.

Lemma walk_unknown_destination prev f dest :
  prev !! dest = None → prev !! "undefined" = None →
  walk f prev (JStr dest) [] = None.
Proof.
  intros Hd Hu. destruct f as [|f]; [done|].
  simpl. unfold prev_get. simpl. rewrite Hd. by apply walk_undefined_diverges.
Qed.

End Bounds.

(** ** Dijkstra visits nodes in the order of their shortest distance *)

Section MinSelection.
Import DijkstraAlgorithm.

Lemma num_le_refl a : num_le a a.
Proof. unfold num_le. destruct a; simpl; [lia|done]. Qed.

Lemma num_le_trans a b c : num_le a b → num_le b c → num_le a c.
Proof. unfold num_le. destruct a, b, c; simpl; try done; lia. Qed.

Lemma num_le_total a b : num_ltb a b = true → num_le a b.
Proof. unfold num_le. destruct a, b; simpl; try done; lia. Qed.

Lemma num_le_fin a b : num_le (Fin a) (Fin b) ↔ a ≤ b.
Proof. unfold num_le. simpl. lia. Qed.

Lemma num_le_inf_fin a : ¬ num_le Inf (Fin a).
Proof. unfold num_le. by simpl. Qed.

(** The reducer keeps a node of least distance, the first one in case of
    a tie. *)
Lemma pick_min_fold (d : gmap string num) rest first :
  (∀ y, y ∈ first :: rest → is_Some (d !! y)) →
  let cur := fold_left (pick_min d) rest first in
  cur ∈ first :: rest
  ∧ ∀ y a b, y ∈ first :: rest → d !! cur = Some a → d !! y = Some b → num_le a b.
Proof.
  revert first. induction rest as [|r rest IH]; intros first Hdef; simpl.
  { split; [by left|]. intros y a b Hy Ha Hb.
    apply list_elem_of_singleton in Hy as ->. rewrite Ha in Hb. injection Hb as <-.
    apply num_le_refl. }
  destruct (Hdef first) as [df Hdf]; [by left|].
  destruct (Hdef r) as [dr Hdr]; [right; by left|].
  assert (pick_min d first r = (if num_ltb dr df then r else first)) as Hpick.
  { unfold pick_min. by rewrite Hdr, Hdf. }
  set (p := pick_min d first r) in *.
  assert (p ∈ [first; r] ∧ ∃ dp, d !! p = Some dp ∧ num_le dp df ∧ num_le dp dr)
    as (Hp & dp & Hdp & Hpf & Hpr).
  { rewrite Hpick. destruct (num_ltb dr df) eqn:E.
    - split; [set_solver|]. exists dr. split; [done|].
      split; [by apply num_le_total|apply num_le_refl].
    - split; [set_solver|]. exists df. split; [done|]. split; [apply num_le_refl|done]. }
  destruct (IH p) as [Hin Hmin].
  { intros y Hy. apply elem_of_cons in Hy as [->|Hy]; [by eexists|].
    apply Hdef. right. by right. }
  split.
  - apply elem_of_cons in Hin as [->|Hin]; [|right; by right].
    apply elem_of_cons in Hp as [->|Hp]; [by left|].
    apply list_elem_of_singleton in Hp as ->. right. by left.
  - intros y a b Hy Ha Hb.
    assert (num_le a dp) as Hap by (apply (Hmin p); [by left|done..]).
    apply elem_of_cons in Hy as [->|Hy].
    + rewrite Hdf in Hb. injection Hb as <-. by apply (num_le_trans _ dp).
    + apply elem_of_cons in Hy as [->|Hy].
      * rewrite Hdr in Hb. injection Hb as <-. by apply (num_le_trans _ dp).
      * apply (Hmin y); [by right|done..].
Qed.

(** [new Set(ids)] has the ids, once each. *)
Lemma new_set_spec l :
  NoDup (new_set l) ∧ ∀ x, x ∈ new_set l ↔ x ∈ l.
Proof.
  unfold new_set.
  assert (∀ acc, NoDup acc →
            NoDup (fold_left set_add l acc)
            ∧ ∀ x, x ∈ fold_left set_add l acc ↔ x ∈ acc ∨ x ∈ l) as H.
  { induction l as [|y l IH]; intros acc Hacc; simpl.
    { split; [done|]. intros x. rewrite elem_of_nil. tauto. }
    destruct (IH (set_add acc y)) as [Hnd Hel].
    { unfold set_add. destruct (decide (y ∈ acc)); [done|].
      apply NoDup_app. split; [done|]. split; [|apply NoDup_singleton].
      intros x Hx Hx'. apply list_elem_of_singleton in Hx' as ->. done. }
    split; [done|]. intros x. rewrite Hel, elem_of_cons. unfold set_add.
    destruct (decide (y ∈ acc)) as [Hy|Hy].
    - split; [tauto|]. intros [?|[->|?]]; tauto.
    - rewrite elem_of_app, list_elem_of_singleton. tauto. }
  destruct (H [] (NoDup_nil_2)) as [Hnd Hel]. split; [done|].
  intros x. rewrite Hel, elem_of_nil. tauto.
Qed.

End MinSelection.

Section DijkstraStep.
Import DijkstraAlgorithm.
Variable ids : gset string.
Variable g : gmap string (list (string * Z)).
Variable source : string.
Hypothesis Harc_ids : ∀ u v w, graph_arc g u v w → u ∈ ids ∧ v ∈ ids.
Hypothesis Harc_nn : ∀ u v w, graph_arc g u v w → 0 ≤ w.

(** The neighbour loop of one pass, started in [st0] with [cur] at
    distance [m]. *)
Lemma neighbors_fold_spec cur m visited st0 keys :
  keys_ok ids st0 → st_dist st0 !! cur = Some (Fin m) →
  let st' := fold_left (relax_neighbor cur (default [] (g !! cur)) visited) keys st0 in
  st_dist st' !! cur = Some (Fin m)
  ∧ (∀ x, x ∈ visited → st_dist st' !! x = st_dist st0 !! x)
  ∧ dist_le st' st0
  ∧ (∀ x b', st_dist st' !! x = Some (Fin b') →
       st_dist st0 !! x = Some (Fin b') ∨ (m ≤ b' ∧ x ∉ visited))
  ∧ keys_ok ids st'.
Proof.
  intros Hkeys Hcur. induction keys as [|k ks IH] using rev_ind.
  { simpl. split; [done|]. split; [done|]. split; [apply dist_le_refl|].
    split; [|done]. intros x b' H. by left. }
  rewrite fold_left_app. cbn [fold_left].
  set (st1 := fold_left (relax_neighbor cur (default [] (g !! cur)) visited) ks st0) in *.
  cbv zeta in IH. destruct IH as (N1 & N2 & N3 & N4 & N5).
  rewrite relax_neighbor_eq.
  destruct (decide (k ∈ visited)) as [Hkv|Hkv]; [done|].
  destruct (obj_get (default [] (g !! cur)) k) as [w|] eqn:Eget; [|done].
  pose proof (default_adj_arc g cur k w Eget) as Harc.
  pose proof (Harc_nn cur k w Harc) as Hw.
  destruct (relax_cases st1 cur k w) as [->|(a & b & Ha & Hb & Hlt & ->)]; [done|].
  rewrite N1 in Ha. injection Ha as <-.
  assert (k ≠ cur) as Hkc.
  { intros ->. rewrite N1 in Hb. injection Hb as <-. simpl in Hlt. lia. }
  simpl. split; [by rewrite lookup_insert_ne|].
  split.
  { intros x Hx. rewrite lookup_insert_ne; [by apply N2|]. intros ->. done. }
  split.
  { intros x c Hx. destruct (N3 x c Hx) as (c' & Hc' & Hle).
    simpl. destruct (decide (k = x)) as [->|Hne].
    - rewrite lookup_insert_eq. rewrite Hc' in Hb. injection Hb as <-.
      exists (m + w). split; [done|]. simpl in Hlt. lia.
    - rewrite lookup_insert_ne by done. by exists c'. }
  split.
  { intros x b'. destruct (decide (k = x)) as [->|Hne].
    - rewrite lookup_insert_eq. intros [= <-]. right. split; [lia|done].
    - rewrite lookup_insert_ne by done. apply N4. }
  destruct N5 as [Hd Hp].
  assert (k ∈ ids) as Hk by (rewrite <- Hd; apply elem_of_dom; by eexists).
  split; simpl; rewrite dom_insert_L; set_solver.
Qed.

Lemma neighbors_fold_covers cur m visited st0 keys nb w :
  keys_ok ids st0 → st_dist st0 !! cur = Some (Fin m) →
  nb ∈ keys → nb ∉ visited → obj_get (default [] (g !! cur)) nb = Some w →
  ∃ b, st_dist (fold_left (relax_neighbor cur (default [] (g !! cur)) visited) keys st0)
         !! nb = Some (Fin b) ∧ b ≤ m + w.
Proof.
  intros Hkeys Hcur Hin Hnv Hget.
  apply list_elem_of_split in Hin as (k1 & k2 & ->).
  replace (k1 ++ nb :: k2) with ((k1 ++ [nb]) ++ k2) by by rewrite <- app_assoc.
  rewrite fold_left_app.
  destruct (neighbors_fold_spec cur m visited st0 k1 Hkeys Hcur) as (N1 & _ & _ & _ & K1).
  destruct (neighbors_fold_spec cur m visited st0 (k1 ++ [nb]) Hkeys Hcur)
    as (M1 & _ & _ & _ & K2).
  set (st2 := fold_left _ (k1 ++ [nb]) st0) in *.
  assert (∃ b, st_dist st2 !! nb = Some (Fin b) ∧ b ≤ m + w) as (b & Hb & Hle).
  { unfold st2. rewrite fold_left_app. cbn [fold_left].
    set (st1 := fold_left _ k1 st0) in *.
    rewrite relax_neighbor_eq. rewrite decide_False by done. rewrite Hget.
    apply relax_target_bound; [done|].
    apply (keys_ok_dist ids); [done|].
    by destruct (Harc_ids cur nb w (default_adj_arc g cur nb w Hget)). }
  destruct (neighbors_fold_spec cur m visited st2 k2 K2 M1) as (_ & _ & L3 & _).
  destruct (L3 nb b Hb) as (b' & Hb' & Hle'). exists b'. split; [done|lia].
Qed.

(** Every walk to a visited node weighs at least its distance, and every
    walk to an unvisited node weighs at least [m], the least distance of an
    unvisited node. *)
Lemma walk_lower_bound s cur m x n c :
  loop_inv ids g source s →
  cur ∈ d_unvisited s → st_dist (d_st s) !! cur = Some (Fin m) →
  (∀ y b, y ∈ d_unvisited s → st_dist (d_st s) !! y = Some b → num_le (Fin m) b) →
  wpath ids (graph_arc g) source x n c →
  (x ∈ d_visited s → ∃ a, st_dist (d_st s) !! x = Some (Fin a) ∧ a ≤ c)
  ∧ (x ∈ d_unvisited s → m ≤ c).
Proof.
  intros Hinv Hcur Hm Hmin Hpath.
  induction Hpath as [Hs|u v w n c Hpath [IHv IHu] Harc].
  - pose proof (inv_source _ _ _ _ (li_inv _ _ _ _ Hinv) Hs) as H0.
    split; [intros _; by exists 0|].
    intros Hun. specialize (Hmin source (Fin 0) Hun H0). by apply num_le_fin in Hmin.
  - pose proof (Harc_nn u v w Harc) as Hw.
    destruct (Harc_ids u v w Harc) as [Hu Hv].
    apply (li_part _ _ _ _ Hinv) in Hu as [Hu|Hu].
    + destruct (IHv Hu) as (a & Ha & Hle).
      destruct (li_closed _ _ _ _ Hinv u v w a Hu Harc Ha) as (b & Hb & Hle').
      split; [intros _; exists b; split; [done|lia]|].
      intros Hun. specialize (Hmin v (Fin b) Hun Hb). apply num_le_fin in Hmin. lia.
    + specialize (IHu Hu). split; [|intros _; lia].
      intros Hvis. destruct (li_fin _ _ _ _ Hinv v Hvis) as [b Hb].
      exists b. split; [done|].
      pose proof (li_order _ _ _ _ Hinv v cur b m Hvis Hcur Hb Hm). lia.
Qed.

(** When no unvisited node has a finite distance, walks only reach visited
    nodes. *)
Lemma walk_visited_only s x n c :
  loop_inv ids g source s →
  (∀ y, y ∈ d_unvisited s → st_dist (d_st s) !! y = Some Inf) →
  wpath ids (graph_arc g) source x n c →
  x ∈ d_visited s ∧ ∃ a, st_dist (d_st s) !! x = Some (Fin a) ∧ a ≤ c.
Proof.
  intros Hinv Hinf Hpath.
  induction Hpath as [Hs|u v w n c Hpath (Hu & a & Ha & Hle) Harc].
  - pose proof (inv_source _ _ _ _ (li_inv _ _ _ _ Hinv) Hs) as H0.
    apply (li_part _ _ _ _ Hinv) in Hs as [Hs|Hs].
    + split; [done|]. by exists 0.
    + specialize (Hinf source Hs). congruence.
  - destruct (Harc_ids u v w Harc) as [_ Hv].
    destruct (li_closed _ _ _ _ Hinv u v w a Hu Harc Ha) as (b & Hb & Hle').
    apply (li_part _ _ _ _ Hinv) in Hv as [Hv|Hv].
    + split; [done|]. exists b. split; [done|lia].
    + specialize (Hinf v Hv). congruence.
Qed.

(** One pass of the loop that does not break keeps the invariant. *)
Lemma loop_step_inv s cur m iters :
  loop_inv ids g source s →
  cur ∈ d_unvisited s → st_dist (d_st s) !! cur = Some (Fin m) →
  (∀ y b, y ∈ d_unvisited s → st_dist (d_st s) !! y = Some b → num_le (Fin m) b) →
  loop_inv ids g source
    (mkD (fold_left (relax_neighbor cur (default [] (g !! cur)) (d_visited s))
                    (obj_keys (default [] (g !! cur))) (d_st s))
         ({[cur]} ∪ d_visited s)
         (filter (λ x, x ≠ cur) (d_unvisited s)) iters).
Proof.
  intros Hinv Hcur Hm Hmin.
  pose proof (inv_keys _ _ _ _ (inv_any _ _ _ _ (li_inv _ _ _ _ Hinv))) as Hkeys.
  destruct (neighbors_fold_spec cur m (d_visited s) (d_st s)
              (obj_keys (default [] (g !! cur))) Hkeys Hm) as (N1 & N2 & N3 & N4 & N5).
  set (st' := fold_left _ (obj_keys (default [] (g !! cur))) (d_st s)) in *.
  assert (cur ∉ d_visited s) as Hcv by (intros H; by apply (li_disj _ _ _ _ Hinv cur)).
  split; simpl.
  - apply fold_neighbors_invariant; [|apply (li_inv _ _ _ _ Hinv)].
    intros st nb w Hst Hget. pose proof (default_adj_arc g cur nb w Hget) as Harc.
    apply relax_inv_nonneg; [done|done|by apply (Harc_nn cur nb w)].
  - intros x. rewrite (li_part _ _ _ _ Hinv x), list_elem_of_filter, elem_of_union,
      elem_of_singleton.
    destruct (decide (x = cur)) as [->|Hne]; [tauto|]. tauto.
  - intros x Hx Hx'. apply list_elem_of_filter in Hx' as [Hne Hx'].
    apply elem_of_union in Hx as [Hx|Hx]; [by apply elem_of_singleton in Hx|].
    by apply (li_disj _ _ _ _ Hinv x).
  - apply NoDup_filter, (li_nodup _ _ _ _ Hinv).
  - intros x Hx. apply elem_of_union in Hx as [Hx|Hx].
    + apply elem_of_singleton in Hx as ->. by exists m.
    + destruct (li_fin _ _ _ _ Hinv x Hx) as [a Ha]. exists a. by rewrite N2.
  - intros u v w a Hu Harc Ha. apply elem_of_union in Hu as [Hu|Hu].
    + apply elem_of_singleton in Hu as ->. rewrite N1 in Ha. injection Ha as <-.
      pose proof (Harc_nn cur v w Harc) as Hw.
      destruct (decide (v ∈ d_visited s)) as [Hv|Hv].
      * destruct (li_fin _ _ _ _ Hinv v Hv) as [b Hb]. exists b.
        split; [by rewrite N2|].
        pose proof (li_order _ _ _ _ Hinv v cur b m Hv Hcur Hb Hm). lia.
      * destruct Harc as (adj & Hadj & Hget).
        assert (default [] (g !! cur) = adj) as Hdef by by rewrite Hadj.
        apply neighbors_fold_covers with (m := m); try done.
        -- rewrite Hdef. apply obj_keys_elem. by apply (obj_get_elem adj v w).
        -- by rewrite Hdef.
    + rewrite N2 in Ha by done.
      destruct (li_closed _ _ _ _ Hinv u v w a Hu Harc Ha) as (b & Hb & Hle).
      destruct (N3 v b Hb) as (b' & Hb' & Hle'). exists b'. split; [done|lia].
  - intros u y a b Hu Hy Ha Hb. apply list_elem_of_filter in Hy as [Hyc Hy].
    assert (st_dist (d_st s) !! u = Some (Fin a) ∧ a ≤ m) as [Ha' Ham].
    { apply elem_of_union in Hu as [Hu|Hu].
      - apply elem_of_singleton in Hu as ->. rewrite N1 in Ha. injection Ha as <-.
        split; [done|lia].
      - rewrite N2 in Ha by done. split; [done|].
        by apply (li_order _ _ _ _ Hinv u cur a m). }
    destruct (N4 y b Hb) as [Hold|[Hnew _]]; [|lia].
    apply elem_of_union in Hu as [Hu|Hu].
    + apply elem_of_singleton in Hu as ->. rewrite Hm in Ha'. injection Ha' as <-.
      specialize (Hmin y (Fin b) Hy Hold). by apply num_le_fin in Hmin.
    + by apply (li_order _ _ _ _ Hinv u y a b).
  - intros u a n c Hu Ha Hpath. apply elem_of_union in Hu as [Hu|Hu].
    + apply elem_of_singleton in Hu as ->. rewrite N1 in Ha. injection Ha as <-.
      by apply (walk_lower_bound s cur m cur n c Hinv Hcur Hm Hmin Hpath).
    + rewrite N2 in Ha by done. by apply (li_exact _ _ _ _ Hinv u a n c).
Qed.

(** The loop establishes the invariant at its exit, and ends in one of the
    two ways of [loop_done]. *)
Lemma loop_spec n dest s :
  loop_inv ids g source s → (length (d_unvisited s) ≤ n)%nat →
  loop_inv ids g source (loop n g dest s) ∧ loop_done dest (loop n g dest s).
Proof.
  revert s. induction n as [|n IH]; intros s Hinv Hlen.
  { simpl. split; [done|]. right. intros y Hy.
    destruct (d_unvisited s); [by apply elem_of_nil in Hy|simpl in Hlen; lia]. }
  simpl. destruct (d_unvisited s) as [|first rest] eqn:Eun.
  { split; [done|]. right. intros y Hy. rewrite Eun in Hy. by apply elem_of_nil in Hy. }
  pose proof (inv_keys _ _ _ _ (inv_any _ _ _ _ (li_inv _ _ _ _ Hinv))) as Hkeys.
  assert (∀ y, y ∈ first :: rest → is_Some (st_dist (d_st s) !! y)) as Hdef.
  { intros y Hy. apply (keys_ok_dist ids); [done|].
    apply (li_part _ _ _ _ Hinv). right. by rewrite Eun. }
  destruct (pick_min_fold (st_dist (d_st s)) rest first Hdef) as [Hcur Hmin].
  set (cur := fold_left (pick_min (st_dist (d_st s))) rest first) in *.
  destruct (Hdef cur Hcur) as [dc Hdc]. rewrite Hdc.
  assert (∀ y b, y ∈ d_unvisited s → st_dist (d_st s) !! y = Some b → num_le dc b) as Hmin'.
  { intros y b Hy Hb. rewrite Eun in Hy. by apply (Hmin y). }
  destruct dc as [m|].
  - assert (loop_inv ids g source
              (mkD (fold_left (relax_neighbor cur (default [] (g !! cur)) (d_visited s))
                              (obj_keys (default [] (g !! cur))) (d_st s))
                   ({[cur]} ∪ d_visited s)
                   (filter (λ x, x ≠ cur) (first :: rest)) (S (d_iters s)))) as Hinv'.
    { rewrite <- Eun. apply (loop_step_inv s cur m); try done. by rewrite Eun. }
    destruct (decide (cur = dest)) as [Hd|Hd].
    + split; [done|]. left. simpl. rewrite <- Hd. set_solver.
    + apply IH; [done|]. simpl.
      pose proof (length_filter_ne (first :: rest) cur Hcur). simpl in *. lia.
  - split.
    + destruct Hinv as [H1 H2 H3 H4 H5 H6 H7 H8]. split; simpl; rewrite <- ?Eun; done.
    + right. simpl. intros y Hy.
      destruct (keys_ok_dist ids (d_st s) y Hkeys) as [b Hb].
      { apply (li_part _ _ _ _ Hinv). right. by rewrite Eun. }
      rewrite <- Eun in Hy. specialize (Hmin' y b Hy Hb). destruct b as [b|]; [|done].
      by apply num_le_inf_fin in Hmin'.
Qed.

End DijkstraStep.

(** ** Where the predecessor walk ends *)

Section Roots.

Lemma relax_root_ok source st u v w :
  root_ok source st → root_ok source (relax st u v w).
Proof.
  intros Hroot. destruct (relax_cases st u v w) as [->|(a & b & Hu & Hv & _ & ->)]; [done|].
  intros x c. simpl. destruct (decide (v = x)) as [->|Hne].
  - rewrite (lookup_insert_eq (st_prev st)). by intros _ [=].
  - rewrite lookup_insert_ne by done. rewrite (lookup_insert_ne (st_prev st)) by done.
    apply Hroot.
Qed.

Lemma init_root_ok nodes source : root_ok source (init_state nodes source).
Proof.
  intros x a. rewrite init_state_dist. destruct (decide (x ∈ node_ids nodes)); [|done].
  by destruct (decide (x = source)).
Qed.

Lemma bf_root_ok nodes edges source k :
  root_ok source (k_passes k edges (init_state nodes source)).
Proof.
  apply k_passes_invariant; [|apply init_root_ok].
  intros e st upd u v _ _ Hst. rewrite relax_dir_fst. by apply relax_root_ok.
Qed.

Lemma dijkstra_root_ok nodes source g dest n s0 :
  DijkstraAlgorithm.d_st s0 = init_state nodes source →
  root_ok source (DijkstraAlgorithm.d_st (DijkstraAlgorithm.loop n g dest s0)).
Proof.
  intros Hs0. apply loop_invariant; [|rewrite Hs0; apply init_root_ok].
  intros st cur nb w Hst _. by apply relax_root_ok.
Qed.

(** The walk from a node of finite distance passes the source. *)
Lemma walk_contains_source ids source st f x acc p b :
  keys_ok ids st → pred_ok st → root_ok source st →
  st_dist st !! x = Some (Fin b) →
  walk f (st_prev st) (JStr x) acc = Some p → JStr source ∈ p.
Proof.
  intros Hkeys Hpred Hroot. revert x acc b. induction f as [|f IH]; intros x acc b Hb Hw.
  { done. }
  assert (is_Some (st_prev st !! x)) as [[q|] Hq].
  { apply elem_of_dom. destruct Hkeys as [Hd ->]. rewrite <- Hd.
    apply elem_of_dom. by eexists. }
  - simpl in Hw. unfold prev_get in Hw. simpl in Hw. rewrite Hq in Hw.
    destruct (Hpred x q Hq) as [[a Ha] _]. by eapply (IH q).
  - simpl in Hw. unfold prev_get in Hw. simpl in Hw. rewrite Hq in Hw.
    assert (walk f (st_prev st) JNull (JStr x :: acc) = Some (JStr x :: acc)) as E
      by by destruct f.
    rewrite E in Hw. injection Hw as <-. rewrite (Hroot x b Hb Hq). by left.
Qed.

(** The walk appends to what it was given. *)
Lemma walk_acc prev f c acc p :
  walk f prev c acc = Some p → ∃ q, p = q ++ acc.
Proof.
  revert c acc. induction f as [|f IH]; intros c acc H.
  - destruct c; simpl in H; try done. injection H as <-. by exists [].
  - destruct c; simpl in H.
    + apply IH in H as [q ->]. exists (q ++ [JStr s]). by rewrite <- app_assoc.
    + injection H as <-. by exists [].
    + apply IH in H as [q ->]. exists (q ++ [JUndef]). by rewrite <- app_assoc.
Qed.

(** The total cost of a result is the distance of the destination, when
    the destination has a finite distance or no predecessor. *)
Lemma totalCost_distance ids arc source st fuel nodes dest iters r :
  sp_inv ids arc source st → root_ok source st → dest ∈ ids →
  reconstruct fuel nodes st source dest iters = Returned r →
  totalCost r dest = st_dist st !! dest.
Proof.
  intros Hinv Hroot Hdest Hr.
  destruct (reconstruct_spec _ _ _ _ _ _ _ Hr) as (p & Hw & Hp & Hne & Hd & _).
  unfold totalCost. rewrite Hp, Hd.
  destruct (keys_ok_dist ids st dest (inv_keys _ _ _ _ Hinv) Hdest) as [[b|] Hb].
  - rewrite decide_True.
    + by destruct p.
    + by apply (walk_contains_source ids source st fuel dest [] p b
                  (inv_keys _ _ _ _ Hinv) (inv_pred _ _ _ _ Hinv) Hroot).
  - destruct (decide (JStr source ∈ p)) as [Hin|Hnin]; [|done].
    destruct p as [|y p]; [done|]. done.
Qed.

End Roots.

(** ** C1: Dijkstra against Bellman-Ford *)

Section ShortestFacts.

Lemma shortest_unique ids arc source x a b :
  shortest ids arc source x a → shortest ids arc source x b → a = b.
Proof.
  intros [[n Hn] Hmin] [[n' Hn'] Hmin'].
  specialize (Hmin n' b Hn'). specialize (Hmin' n a Hn). lia.
Qed.

Lemma wpath_ext ids (arc arc' : string → string → Z → Prop) source x n c :
  (∀ u v w, arc u v w ↔ arc' u v w) →
  wpath ids arc source x n c ↔ wpath ids arc' source x n c.
Proof. intros H. split; apply wpath_mono; intros u v w; by apply H. Qed.

Lemma shortest_ext ids (arc arc' : string → string → Z → Prop) source x a :
  (∀ u v w, arc u v w ↔ arc' u v w) →
  shortest ids arc source x a ↔ shortest ids arc' source x a.
Proof.
  intros H. unfold shortest. split; intros [[n Hn] Hmin]; split.
  - exists n. by apply (wpath_ext ids arc arc').
  - intros n' c Hp. apply (Hmin n'). by apply (wpath_ext ids arc arc').
  - exists n. by apply (wpath_ext ids arc arc').
  - intros n' c Hp. apply (Hmin n'). by apply (wpath_ext ids arc arc').
Qed.

Lemma reachable_ext ids (arc arc' : string → string → Z → Prop) source x :
  (∀ u v w, arc u v w ↔ arc' u v w) →
  reachable ids arc source x ↔ reachable ids arc' source x.
Proof.
  intros H. unfold reachable. split; intros (n & c & Hp); exists n, c;
    by apply (wpath_ext ids arc arc').
Qed.

End ShortestFacts.

Section DijkstraFinal.
Import DijkstraAlgorithm.
Variable nodes : list Node.
Variable edges : list Edge.
Variable source dest : string.
Variable g : gmap string (list (string * Z)).
Hypothesis Hg : build_graph nodes edges = Some g.
Hypothesis Hnn : weights_nonneg edges.

Local Abbreviation ids := (node_ids nodes).
Local Abbreviation s0 := (mkD (init_state nodes source) ∅ (new_set (map n_id nodes)) 0).
Local Abbreviation sd := (loop (length (new_set (map n_id nodes))) g dest s0).

Lemma graph_arc_in_ids u v w : graph_arc g u v w → u ∈ ids ∧ v ∈ ids.
Proof. by apply (graph_arc_ids nodes edges). Qed.

Lemma graph_arc_nonneg u v w : graph_arc g u v w → 0 ≤ w.
Proof.
  intros Harc. destruct (build_graph_spec nodes edges g Hg) as (_ & _ & Hsound & _).
  destruct (Hsound u v w Harc) as (_ & _ & e & He & <- & _). by apply Hnn.
Qed.

Lemma loop_inv_init : loop_inv ids g source s0.
Proof.
  destruct (new_set_spec (map n_id nodes)) as [Hnd Hel].
  split; simpl.
  - apply init_inv_nonneg.
  - intros x. rewrite Hel, elem_of_node_ids. set_solver.
  - intros x Hx. set_solver.
  - done.
  - intros x Hx. set_solver.
  - intros u v w a Hu. set_solver.
  - intros u y a b Hu. set_solver.
  - intros u a n c Hu. set_solver.
Qed.

Lemma dijkstra_final : loop_inv ids g source sd ∧ loop_done dest sd.
Proof.
  apply (loop_spec ids g source graph_arc_in_ids graph_arc_nonneg);
    [apply loop_inv_init|done].
Qed.

(** A visited node has its shortest distance. *)
Lemma dijkstra_visited_shortest x :
  x ∈ d_visited sd →
  ∃ a, st_dist (d_st sd) !! x = Some (Fin a) ∧ shortest ids (graph_arc g) source x a.
Proof.
  intros Hx. destruct dijkstra_final as [Hinv _].
  destruct (li_fin _ _ _ _ Hinv x Hx) as [a Ha]. exists a. split; [done|]. split.
  - by apply (inv_witnessed _ _ _ _ (inv_any _ _ _ _ (li_inv _ _ _ _ Hinv))).
  - intros n c Hp. by apply (li_exact _ _ _ _ Hinv x a n c).
Qed.

(** A node whose distance is finite and below that of the destination, or
    any node of finite distance when the destination has distance
    [Infinity], has been visited. *)
Lemma dijkstra_settled x a :
  dest ∈ ids → st_dist (d_st sd) !! x = Some (Fin a) →
  (st_dist (d_st sd) !! dest = Some Inf
   ∨ ∃ b, st_dist (d_st sd) !! dest = Some (Fin b) ∧ a < b) →
  x ∈ d_visited sd.
Proof.
  intros Hdest Ha Hcmp. destruct dijkstra_final as [Hinv Hdone].
  pose proof (inv_keys _ _ _ _ (inv_any _ _ _ _ (li_inv _ _ _ _ Hinv))) as Hkeys.
  assert (x ∈ ids) as Hx by by apply (keys_ok_dist_inv ids (d_st sd) x (Fin a)).
  apply (li_part _ _ _ _ Hinv) in Hx as [Hx|Hx]; [done|]. exfalso.
  destruct Hdone as [Hvis|Hinf].
  - destruct (li_fin _ _ _ _ Hinv dest Hvis) as [b Hb].
    destruct Hcmp as [Hc|(b' & Hb' & Hlt)]; [congruence|].
    rewrite Hb in Hb'. injection Hb' as <-.
    pose proof (li_order _ _ _ _ Hinv dest x b a Hvis Hx Hb Ha). lia.
  - specialize (Hinf x Hx). congruence.
Qed.

(** The distance of the destination is its shortest distance, and
    [Infinity] when it is unreachable. *)
Lemma dijkstra_dest :
  dest ∈ ids →
  (∀ a, st_dist (d_st sd) !! dest = Some (Fin a) ↔ shortest ids (graph_arc g) source dest a)
  ∧ (st_dist (d_st sd) !! dest = Some Inf ↔ ¬ reachable ids (graph_arc g) source dest).
Proof.
  intros Hdest. destruct dijkstra_final as [Hinv Hdone].
  pose proof (inv_keys _ _ _ _ (inv_any _ _ _ _ (li_inv _ _ _ _ Hinv))) as Hkeys.
  pose proof (inv_witnessed _ _ _ _ (inv_any _ _ _ _ (li_inv _ _ _ _ Hinv))) as Hwit.
  assert (dest ∈ d_visited sd
          ∨ (dest ∈ d_unvisited sd
             ∧ ∀ y, y ∈ d_unvisited sd → st_dist (d_st sd) !! y = Some Inf)) as [Hvis|[Hun Hinf]].
  { destruct Hdone as [?|Hinf]; [by left|].
    apply (li_part _ _ _ _ Hinv) in Hdest as [?|?]; [by left|by right]. }
  - destruct (dijkstra_visited_shortest dest Hvis) as (a & Ha & Hsh). split.
    + intros a'. split.
      * intros Ha'. rewrite Ha in Ha'. by injection Ha' as <-.
      * intros Hsh'. by rewrite (shortest_unique _ _ _ _ _ _ Hsh' Hsh).
    + split; [congruence|]. intros Hun. exfalso. apply Hun.
      destruct Hsh as [[n Hn] _]. by exists n, a.
  - pose proof (Hinf dest Hun) as Hd. split.
    + intros a. split; [congruence|].
      intros [[n Hn] _].
      destruct (walk_visited_only ids g source graph_arc_in_ids sd dest n a Hinv Hinf Hn) as [Hv _].
      by destruct (li_disj _ _ _ _ Hinv dest).
    + split; [|done]. intros _ (n & c & Hn).
      destruct (walk_visited_only ids g source graph_arc_in_ids sd dest n c Hinv Hinf Hn) as [Hv _].
      by destruct (li_disj _ _ _ _ Hinv dest).
Qed.

(** When the destination has distance [Infinity], every listed node has
    its shortest distance, or [Infinity] if it is unreachable. *)
Lemma dijkstra_complete x :
  dest ∈ ids → st_dist (d_st sd) !! dest = Some Inf → x ∈ ids →
  (∃ a, st_dist (d_st sd) !! x = Some (Fin a) ∧ shortest ids (graph_arc g) source x a)
  ∨ (st_dist (d_st sd) !! x = Some Inf ∧ ¬ reachable ids (graph_arc g) source x).
Proof.
  intros Hdest Hd Hx. destruct dijkstra_final as [Hinv Hdone].
  assert (∀ y, y ∈ d_unvisited sd → st_dist (d_st sd) !! y = Some Inf) as Hinf.
  { destruct Hdone as [Hvis|?]; [|done].
    destruct (li_fin _ _ _ _ Hinv dest Hvis) as [b Hb]. congruence. }
  apply (li_part _ _ _ _ Hinv) in Hx as [Hx|Hx].
  - left. by apply dijkstra_visited_shortest.
  - right. split; [by apply Hinf|]. intros (n & c & Hn).
    destruct (walk_visited_only ids g source graph_arc_in_ids sd x n c Hinv Hinf Hn) as [Hv _].
    by destruct (li_disj _ _ _ _ Hinv x).
Qed.

End DijkstraFinal.

Section Agreement.

Lemma detour_reachable_C :
  reachable (node_ids detour_nodes) (edge_arc detour_nodes detour_edges) "A" "C".
Proof.
  exists 1%nat, (0 + 5). apply (wpath_step _ _ _ "A" "C").
  - constructor. apply elem_of_node_ids. simpl. set_solver.
  - split; [apply elem_of_node_ids; simpl; set_solver|].
    split; [apply elem_of_node_ids; simpl; set_solver|].
    exists (ed "A" "C" 5). split; [unfold detour_edges; set_solver|].
    split; [done|]. by left.
Qed.



End Agreement.

Section AgreementWitness.

Lemma detour_endpoints : endpoints_exist detour_nodes detour_edges.
Proof.
  intros e He. unfold detour_edges in He.
  repeat (apply elem_of_cons in He as [->|He]); try (by apply elem_of_nil in He);
    split; apply elem_of_node_ids; simpl; set_solver.
Qed.

Lemma detour_nonneg : weights_nonneg detour_edges.
Proof.
  intros e He. unfold detour_edges in He.
  repeat (apply elem_of_cons in He as [->|He]); try (by apply elem_of_nil in He);
    simpl; lia.
Qed.

Lemma detour_one_weight : one_weight_per_link detour_edges.
Proof.
  intros e1 e2 u v H1 H2 J1 J2. unfold detour_edges in H1, H2.
  repeat (apply elem_of_cons in H1 as [->|H1]); try (by apply elem_of_nil in H1);
    repeat (apply elem_of_cons in H2 as [->|H2]); try (by apply elem_of_nil in H2);
    try reflexivity; exfalso;
    destruct J1 as [[<- <-]|[<- <-]]; destruct J2 as [[J2 J2']|[J2 J2']];
    simpl in J2, J2'; discriminate.
Qed.

Lemma detour_dest : "B" ∈ node_ids detour_nodes.
Proof. apply elem_of_node_ids. simpl. set_solver. Qed.


End AgreementWitness.

(** ** The reconstructed paths are routes *)

Section Routes.
Variable ids : gset string.
Variable arc : string → string → Z → Prop.
Variable source : string.

Lemma relax_tight st u v w :
  keys_ok ids st → tight arc st → (u ∈ ids → v ∈ ids → arc u v w) →
  tight arc (relax st u v w).
Proof.
  intros Hkeys Ht Harc.
  destruct (relax_cases st u v w) as [->|(a & b & Hu & Hv & Hlt & ->)]; [done|].
  assert (u ∈ ids ∧ v ∈ ids) as [Huin Hvin].
  { destruct Hkeys as [<- _]. split; apply elem_of_dom; by eexists. }
  specialize (Harc Huin Hvin).
  intros x p. simpl. destruct (decide (v = x)) as [<-|Hne].
  - rewrite (lookup_insert_eq (st_prev st)). intros [= <-]. rewrite lookup_insert_eq.
    destruct (decide (v = u)) as [->|Hvu].
    + rewrite Hu in Hv. injection Hv as <-. simpl in Hlt.
      exists (a + w), (a + w), w. rewrite lookup_insert_eq. split_and!; (done || lia).
    + rewrite lookup_insert_ne by done. exists a, (a + w), w. split_and!; (done || lia).
  - rewrite (lookup_insert_ne (st_prev st)) by done.
    intros Hp. destruct (Ht x p Hp) as (a1 & b1 & w1 & Ha1 & Hb1 & Harc1 & Hle).
    assert (<[v:=Fin (a + w)]> (st_dist st) !! x = Some (Fin b1)) as Hx'
      by by rewrite lookup_insert_ne.
    destruct (decide (v = p)) as [<-|Hvp].
    + rewrite Ha1 in Hv. injection Hv as <-. simpl in Hlt.
      exists (a + w), b1, w1. rewrite lookup_insert_eq. split_and!; (done || lia).
    + exists a1, b1, w1. by rewrite lookup_insert_ne.
Qed.

Lemma relax_source_le0 st u v w :
  source_le0 source st → source_le0 source (relax st u v w).
Proof.
  intros H.
  destruct (relax_cases st u v w) as [->|(a & b & Hu & Hv & Hlt & ->)]; [done|].
  intros b'. simpl. destruct (decide (v = source)) as [->|Hne].
  - rewrite lookup_insert_eq. intros [= <-]. destruct (H b Hv) as (b0 & -> & Hb0).
    exists (a + w). split; [done|]. simpl in Hlt. lia.
  - rewrite lookup_insert_ne by done. apply H.
Qed.

(** The walk from a node of finite distance, in a state whose links are
    exact, is a route from the source of that weight. *)
Lemma walk_route st f x b acc p :
  keys_ok ids st → linked arc st → root_ok source st →
  (∀ a, st_dist st !! source = Some (Fin a) → a = 0) →
  st_dist st !! x = Some (Fin b) →
  walk f (st_prev st) (JStr x) acc = Some p →
  ∃ steps, p = JStr source :: map (λ s, JStr s.1) steps ++ acc
           ∧ lwalk arc source steps ∧ endv source steps = x
           ∧ steps_cost steps = b.
Proof.
  intros Hkeys Hlink Hroot Hzero. revert x b acc.
  induction f as [|f IH]; intros x b acc Hb Hw; [done|].
  assert (is_Some (st_prev st !! x)) as [[q|] Hq].
  { apply elem_of_dom. destruct Hkeys as [Hd ->]. rewrite <- Hd.
    apply elem_of_dom. by eexists. }
  - simpl in Hw. unfold prev_get in Hw. simpl in Hw. rewrite Hq in Hw.
    destruct (Hlink x q Hq) as (a & w & Ha & Harc & Hx).
    rewrite Hb in Hx. injection Hx as ->.
    destruct (IH q a (JStr x :: acc) Ha Hw) as (steps & -> & Hlw & Hend & Hcost).
    exists (steps ++ [(x, w)]). split; [|split; [|split]].
    + rewrite map_app. simpl. by rewrite <- app_assoc.
    + apply lwalk_app. split; [done|]. simpl. rewrite Hend. by split.
    + by rewrite endv_app.
    + rewrite steps_cost_app. unfold steps_cost at 2. simpl. lia.
  - simpl in Hw. unfold prev_get in Hw. simpl in Hw. rewrite Hq in Hw.
    assert (walk f (st_prev st) JNull (JStr x :: acc) = Some (JStr x :: acc)) as E
      by by destruct f.
    rewrite E in Hw. injection Hw as <-.
    pose proof (Hroot x b Hb Hq) as ->. rewrite (Hzero b Hb).
    by exists [].
Qed.


Lemma row_route st f row :
  keys_ok ids st → linked arc st → root_ok source st →
  (∀ a, st_dist st !! source = Some (Fin a) → a = 0) →
  destination row ≠ source →
  st_dist st !! destination row = Some (cost row) → is_fin (cost row) = true →
  walk f (st_prev st) (JStr (destination row)) [] = Some (path row) →
  nextHop row = next_hop (path row) (destination row) →
  hops row = Z.of_nat (length (path row)) - 1 →
  row_is_route arc source row.
Proof.
  intros Hkeys Hlink Hroot Hzero Hne Hd Hfin Hw Hnh Hhops.
  destruct (cost row) as [a|] eqn:Ec; [|done].
  destruct (walk_route st f _ a [] _ Hkeys Hlink Hroot Hzero Hd Hw)
    as (steps & Hp & Hlw & Hend & Hcost).
  rewrite app_nil_r in Hp.
  destruct steps as [|[nh w] rest]; [simpl in Hend; congruence|].
  exists nh, w, rest, a. split_and!; try done.
  - rewrite Hhops, Hp. cbn [length map]. rewrite length_map. lia.
  - by rewrite Hnh, Hp.
Qed.

End Routes.

(** *** Bellman-Ford *)

Section BellmanFordRoutes.
Variable nodes : list Node.
Variable edges : list Edge.
Variable source : string.

Lemma init_tight arc : tight arc (init_state nodes source).
Proof. intros x p. rewrite init_state_prev. by destruct (decide (x ∈ node_ids nodes)). Qed.

Lemma init_source_le0 : source_le0 source (init_state nodes source).
Proof.
  intros b. rewrite init_state_dist. destruct (decide (source ∈ node_ids nodes)); [|done].
  rewrite decide_True by done. intros [= <-]. by exists 0.
Qed.

Lemma bf_tight k :
  tight (edge_arc nodes edges) (k_passes k edges (init_state nodes source)).
Proof.
  pose (P := λ st, keys_ok (node_ids nodes) st ∧ tight (edge_arc nodes edges) st).
  enough (P (k_passes k edges (init_state nodes source))) as [_ H] by done.
  apply k_passes_invariant; [|split; [apply init_state_keys|apply init_tight]].
  intros e st upd u v He Hj [Hkeys Ht]. rewrite relax_dir_fst. split.
  - exact (relax_keys _ (edge_arc nodes edges) st u v _ Hkeys).
  - apply (relax_tight (node_ids nodes)); [done..|]. by apply joined_edge_arc.
Qed.

Lemma bf_source_le0 k :
  source_le0 source (k_passes k edges (init_state nodes source)).
Proof.
  apply k_passes_invariant; [|apply init_source_le0].
  intros e st upd u v _ _ Hst. rewrite relax_dir_fst. by apply relax_source_le0.
Qed.

(** In a state that the final scan accepts, a walk of weight [c] bounds
    the distance of its end by the distance of the source plus [c]. *)
Lemma scan_clean_bound st s x n c :
  keys_ok (node_ids nodes) st →
  BellmanFordAlgorithm.negative_cycle edges st = false →
  st_dist st !! source = Some (Fin s) →
  wpath (node_ids nodes) (edge_arc nodes edges) source x n c →
  ∃ a, st_dist st !! x = Some (Fin a) ∧ a ≤ s + c.
Proof.
  intros Hkeys Hclean Hs Hpath.
  induction Hpath as [_|u v w n c Hpath (a & Ha & Hle) Harc].
  - exists s. split; [done|lia].
  - destruct Harc as (Hu & Hv & e & He & <- & Hj).
    pose proof (negative_cycle_false edges st e u v Hclean He Hj) as Hno.
    destruct (keys_ok_dist (node_ids nodes) st v Hkeys Hv) as [b Hb].
    unfold BellmanFordAlgorithm.can_relax in Hno. rewrite Ha, Hb in Hno.
    destruct b as [b|]; [|done]. exists b. split; [done|]. simpl in Hno. lia.
Qed.

(** What holds of the state that Bellman-Ford reconstructs its result
    from. *)
Lemma bf_final_state k :
  let st := k_passes k edges (init_state nodes source) in
  BellmanFordAlgorithm.negative_cycle edges st = false →
  source_zero (node_ids nodes) source st
  ∧ (∀ a, st_dist st !! source = Some (Fin a) → a = 0)
  ∧ linked (edge_arc nodes edges) st.
Proof.
  intros st Hclean.
  pose proof (k_passes_keys nodes edges source k) as Hkeys. fold st in Hkeys.
  pose proof (bf_inv nodes edges source k) as Hinv. fold st in Hinv.
  assert (∀ a, st_dist st !! source = Some (Fin a) → a = 0) as Hzero.
  { intros a Ha. destruct (bf_source_le0 k _ Ha) as (a' & [= <-] & Hle).
    destruct (inv_witnessed _ _ _ _ Hinv source a Ha) as [n Hn].
    destruct (scan_clean_bound st a source n a Hkeys Hclean Ha Hn) as (a' & Ha' & Hle').
    rewrite Ha in Ha'. injection Ha' as <-. lia. }
  split; [|split; [done|]].
  - intros Hs. destruct (keys_ok_dist _ st source Hkeys Hs) as [b Hb].
    destruct (bf_source_le0 k _ Hb) as (a & -> & _). by rewrite (Hzero a Hb) in Hb.
  - intros x p Hp. destruct (bf_tight k x p Hp) as (a & b & w & Ha & Hb & Harc & Hle).
    fold st in Ha, Hb.
    exists a, w. split; [done|]. split; [done|]. rewrite Hb. do 2 f_equal.
    destruct Harc as (Hu & Hv & e & He & <- & Hj).
    pose proof (negative_cycle_false edges st e p x Hclean He Hj) as Hno.
    unfold BellmanFordAlgorithm.can_relax in Hno.
    rewrite Ha, Hb in Hno. simpl in Hno. lia.
Qed.

(** A returned result is reconstructed from the state after some passes
    that the final scan accepts. *)
Lemma bf_returned fuel dest r :
  BellmanFordAlgorithm.execute fuel nodes edges source dest = Returned r →
  ∃ k, (k ≤ length nodes - 1)%nat
       ∧ BellmanFordAlgorithm.negative_cycle edges
           (k_passes k edges (init_state nodes source)) = false
       ∧ reconstruct fuel nodes (k_passes k edges (init_state nodes source))
           source dest k = Returned r.
Proof.
  unfold BellmanFordAlgorithm.execute.
  destruct (passes_spec (length nodes - 1) edges (init_state nodes source) 0)
    as (k & Hk & -> & _).
  destruct (BellmanFordAlgorithm.negative_cycle edges _) eqn:E; [done|].
  intros H. exists k. by rewrite Nat.add_0_l in H.
Qed.

End BellmanFordRoutes.

Section ResultRoutes.

Lemma reconstruct_rows fuel nodes st source dest iters r :
  reconstruct fuel nodes st source dest iters = Returned r →
  Forall (λ row, destination row ≠ source
                 ∧ st_dist st !! destination row = Some (cost row)
                 ∧ is_fin (cost row) = true
                 ∧ walk fuel (st_prev st) (JStr (destination row)) [] = Some (path row)
                 ∧ nextHop row = next_hop (path row) (destination row)
                 ∧ hops row = Z.of_nat (length (path row)) - 1) (routingTable r).
Proof.
  unfold reconstruct, routing_table.
  destruct (walk fuel (st_prev st) (JStr dest) []) as [p|] eqn:Ew; [|done].
  destruct (fold_left _ nodes (Some [])) as [t|] eqn:Et; [|done].
  intros [= <-]. simpl.
  destruct (table_fold_spec fuel st source nodes [] t Et) as (rows & -> & Hd & Hrows).
  simpl. apply Forall_forall. intros row Hrow.
  rewrite Forall_forall in Hrows. split; [|by apply Hrows].
  assert (destination row ∈ map destination rows) as Hin
    by (apply list_elem_of_fmap; by exists row).
  rewrite Hd in Hin. apply list_elem_of_fmap in Hin as (n & -> & Hn).
  by apply list_elem_of_filter in Hn as [[Hne _] _].
Qed.

Lemma lwalk_mono (arc arc' : string → string → Z → Prop) a steps :
  (∀ u v w, arc u v w → arc' u v w) → lwalk arc a steps → lwalk arc' a steps.
Proof.
  intros Hsub. revert a. induction steps as [|[v w] r IH]; intros a; simpl; [done|].
  intros [H1 H2]. split; [by apply Hsub|by apply IH].
Qed.

Lemma is_route_mono (arc arc' : string → string → Z → Prop) source x p a :
  (∀ u v w, arc u v w → arc' u v w) →
  is_route arc source x p a → is_route arc' source x p a.
Proof.
  intros Hsub (steps & Hp & Hlw & Hend & Hcost). exists steps.
  split_and!; try done. by apply (lwalk_mono arc).
Qed.

Lemma row_is_route_mono (arc arc' : string → string → Z → Prop) source row :
  (∀ u v w, arc u v w → arc' u v w) →
  row_is_route arc source row → row_is_route arc' source row.
Proof.
  intros Hsub (nh & w & rest & a & Hp & Hlw & H). exists nh, w, rest, a.
  split; [done|]. split; [by apply (lwalk_mono arc)|done].
Qed.

(** What reconstruction returns from a state whose links are exact. *)
Lemma reconstruct_routes ids arc source st fuel nodes dest iters r :
  sp_inv ids arc source st → linked arc st → root_ok source st →
  source_zero ids source st →
  dest ∈ ids →
  reconstruct fuel nodes st source dest iters = Returned r →
  (res_path r ≠ [] ↔ ∃ a, distances r !! dest = Some (Fin a))
  ∧ (∀ a, distances r !! dest = Some (Fin a) → is_route arc source dest (res_path r) a)
  ∧ Forall (row_is_route arc source) (routingTable r).
Proof.
  intros Hinv Hlink Hroot Hsrc Hdest Hr.
  pose proof (inv_keys _ _ _ _ Hinv) as Hkeys.
  assert (∀ a, st_dist st !! source = Some (Fin a) → a = 0) as Hzero.
  { intros a Ha. rewrite Hsrc in Ha; [by injection Ha|].
    by apply (keys_ok_dist_inv ids st source (Fin a)). }
  pose proof (reconstruct_rows _ _ _ _ _ _ _ Hr) as Hrows.
  destruct (reconstruct_spec _ _ _ _ _ _ _ Hr) as (p & Hw & Hp & Hne & Hd & _).
  rewrite Hd.
  assert (∀ a, st_dist st !! dest = Some (Fin a) → is_route arc source dest (res_path r) a)
    as Hroute.
  { intros a Ha.
    destruct (walk_route ids arc source st fuel dest a [] p Hkeys Hlink Hroot Hzero Ha Hw)
      as (steps & E & Hlw & Hend & Hcost).
    rewrite app_nil_r in E. rewrite Hp, decide_True; [by exists steps|].
    rewrite E. by left. }
  split; [|split; [done|]].
  - split.
    + intros Hnonempty.
      destruct (keys_ok_dist ids st dest Hkeys Hdest) as [[b|] Hb]; [by exists b|].
      exfalso. apply Hnonempty. rewrite Hp.
      destruct (decide (JStr source ∈ p)) as [Hin|]; [|done]. exfalso.
      assert (st_prev st !! dest = Some None) as Hnone.
      { assert (is_Some (st_prev st !! dest)) as [[q|] Hq]; [|exfalso|done].
        { apply elem_of_dom. by destruct Hkeys as [_ ->]. }
        destruct (inv_pred _ _ _ _ Hinv dest q Hq) as [_ [c Hc]]. congruence. }
      destruct fuel as [|f]; [done|]. rewrite (walk_no_pred _ _ _ Hnone) in Hw.
      injection Hw as <-. apply list_elem_of_singleton in Hin. injection Hin as ->.
      rewrite (Hsrc Hdest) in Hb. done.
    + intros [a Ha]. destruct (Hroute a Ha) as (steps & E & _). by rewrite E.
  - eapply Forall_impl; [exact Hrows|]. intros row (H1 & H2 & H3 & H4 & H5 & H6).
    by apply (row_route ids arc source st fuel).
Qed.

End ResultRoutes.

(** *** Dijkstra *)

Section DijkstraRoutes.
Import DijkstraAlgorithm.

Lemma fold_neighbors_pred cur adj visited keys st x p :
  st_prev (fold_left (relax_neighbor cur adj visited) keys st) !! x = Some (Some p) →
  p = cur ∨ st_prev st !! x = Some (Some p).
Proof.
  revert st. induction keys as [|k ks IH]; intros st; [by right|].
  simpl. intros H. destruct (IH _ H) as [->|H']; [by left|].
  rewrite relax_neighbor_eq in H'.
  destruct (decide (k ∈ visited)); [by right|].
  destruct (obj_get adj k) as [w|]; [|by right].
  destruct (relax_cases st cur k w) as [E|(a & b & _ & _ & _ & E)]; rewrite E in H';
    [by right|].
  simpl in H'. destruct (decide (k = x)) as [->|Hne].
  - rewrite lookup_insert_eq in H'. injection H' as <-. by left.
  - rewrite lookup_insert_ne in H' by done. by right.
Qed.

(** Every predecessor is a visited node. *)
Lemma loop_pred_visited n g dest s :
  (∀ x p, st_prev (d_st s) !! x = Some (Some p) → p ∈ d_visited s) →
  ∀ x p, st_prev (d_st (loop n g dest s)) !! x = Some (Some p) →
         p ∈ d_visited (loop n g dest s).
Proof.
  revert s. induction n as [|n IH]; intros s Hs; [done|].
  simpl. destruct (d_unvisited s) as [|first rest]; [done|].
  set (cur := fold_left (pick_min (st_dist (d_st s))) rest first).
  assert (∀ x p,
            st_prev (fold_left (relax_neighbor cur (default [] (g !! cur)) (d_visited s))
                               (obj_keys (default [] (g !! cur))) (d_st s)) !! x
            = Some (Some p) → p ∈ ({[cur]} ∪ d_visited s : gset string)) as Hstep.
  { intros x p H. apply fold_neighbors_pred in H as [->|H]; [set_solver|].
    apply elem_of_union_r. by apply (Hs x). }
  destruct (st_dist (d_st s) !! cur) as [[a|]|]; try done;
    (destruct (decide (cur = dest)); [done|by apply IH]).
Qed.

Lemma dijkstra_tight nodes edges source dest g n s0 :
  build_graph nodes edges = Some g →
  d_st s0 = init_state nodes source →
  tight (graph_arc g) (d_st (loop n g dest s0)).
Proof.
  intros Hg Hs0.
  pose (P := λ st, keys_ok (node_ids nodes) st ∧ tight (graph_arc g) st).
  enough (P (d_st (loop n g dest s0))) as [_ H] by done.
  apply loop_invariant.
  - intros st cur nb w [Hkeys Ht] Harc. split.
    + exact (relax_keys _ (graph_arc g) st cur nb w Hkeys).
    + by apply (relax_tight (node_ids nodes)).
  - rewrite Hs0. split; [apply init_state_keys|apply init_tight].
Qed.

Variable nodes : list Node.
Variable edges : list Edge.
Variable source dest : string.
Variable g : gmap string (list (string * Z)).
Hypothesis Hg : build_graph nodes edges = Some g.
Hypothesis Hnn : weights_nonneg edges.

Lemma dijkstra_linked :
  linked (graph_arc g)
    (d_st (loop (length (new_set (map n_id nodes))) g dest
             (mkD (init_state nodes source) ∅ (new_set (map n_id nodes)) 0))).
Proof.
  destruct (dijkstra_final nodes edges source dest g Hg Hnn) as [Hinv _].
  set (s0 := mkD (init_state nodes source) ∅ (new_set (map n_id nodes)) 0) in *.
  set (sd := loop _ g dest s0) in *.
  intros x p Hp.
  assert (p ∈ d_visited sd) as Hvis.
  { apply (loop_pred_visited _ g dest s0) with (x := x); [|done].
    intros y q. simpl. rewrite init_state_prev. by destruct (decide (y ∈ node_ids nodes)). }
  destruct (dijkstra_tight nodes edges source dest g _ s0 Hg eq_refl x p Hp)
    as (a & b & w & Ha & Hb & Harc & Hle).
  fold sd in Ha, Hb.
  destruct (li_closed _ _ _ _ Hinv p x w a Hvis Harc Ha) as (b' & Hb' & Hle').
  exists a, w. split; [done|]. split; [done|]. rewrite Hb. do 2 f_equal.
  rewrite Hb in Hb'. injection Hb' as <-. lia.
Qed.

End DijkstraRoutes.

(** *** Concrete inputs: checking the conventions by computation *)

Section Checks.

Lemma weights_nonneg_check edges :
  forallb (λ e, 0 <=? e_weight e) edges = true → weights_nonneg edges.
Proof.
  intros H e He. rewrite forallb_forall in H.
  apply Z.leb_le, H. by apply list_elem_of_In.
Qed.

Lemma endpoints_exist_check nodes edges :
  forallb (λ e, bool_decide (e_source e ∈ map n_id nodes)
                && bool_decide (e_target e ∈ map n_id nodes)) edges = true →
  endpoints_exist nodes edges.
Proof.
  intros H e He. rewrite forallb_forall in H.
  specialize (H e (proj1 (list_elem_of_In _ _) He)).
  apply andb_true_iff in H as [H1 H2].
  apply bool_decide_eq_true in H1, H2. by rewrite !elem_of_node_ids.
Qed.

Lemma node_ids_check nodes x :
  bool_decide (x ∈ map n_id nodes) = true → x ∈ node_ids nodes.
Proof. intros H. apply bool_decide_eq_true in H. by apply elem_of_node_ids. Qed.

Lemma observe_returned dest o v :
  observe dest o = Some v → ∃ r, o = Returned r.
Proof. destruct o as [r| |]; [|done..]. by exists r. Qed.

Lemma line_bellman_ford :
  observe "C" (BellmanFordAlgorithm.execute 3 line_nodes line_edges "A" "C")
  = Some (Some (Fin 2), [JStr "A"; JStr "B"; JStr "C"]).
Proof. vm_compute. reflexivity. Qed.

Lemma line_dijkstra :
  observe "C" (DijkstraAlgorithm.execute 3 line_nodes line_edges "A" "C")
  = Some (Some (Fin 2), [JStr "A"; JStr "B"; JStr "C"]).
Proof. vm_compute. reflexivity. Qed.

End Checks.

Section EngineRoutes.





End EngineRoutes.

(** ** Bellman-Ford: what a returned result says, whatever the weights *)

Section BellmanFordExact.

Lemma island_bellman_ford :
  observe "B" (BellmanFordAlgorithm.execute 2 island_nodes island_edges "A" "B")
  = Some (Some (Fin 1), [JStr "A"; JStr "B"]).
Proof. vm_compute. reflexivity. Qed.

(** The distances of a returned result are the least weights of walks. *)
Lemma bf_returned_exact (fuel : nat) (nodes : list Node) (edges : list Edge)
    (source dest : string) (r : AlgorithmResult) (x : string) :
  BellmanFordAlgorithm.execute fuel nodes edges source dest = Returned r →
  x ∈ node_ids nodes →
  (∀ a, distances r !! x = Some (Fin a)
        ↔ shortest (node_ids nodes) (edge_arc nodes edges) source x a)
  ∧ (distances r !! x = Some Inf
     ↔ ¬ reachable (node_ids nodes) (edge_arc nodes edges) source x).
Proof.
  intros (k & _ & Hclean & Hr)%bf_returned Hx.
  apply reconstruct_returned in Hr as (-> & _).
  set (st := k_passes k edges (init_state nodes source)) in *.
  destruct (bf_final_state nodes edges source k Hclean) as (Hsrc & _ & _). fold st in Hsrc.
  destruct (bf_inv nodes edges source k) as [Hkeys Hwit _]. fold st in Hkeys, Hwit.
  assert (∀ n c, wpath (node_ids nodes) (edge_arc nodes edges) source x n c →
                 ∃ a, st_dist st !! x = Some (Fin a) ∧ a ≤ c) as Hlow
    by (intros n c; by apply scan_clean_lower_bound).
  destruct (keys_ok_dist (node_ids nodes) st x Hkeys Hx) as [d Hd]. split.
  - intros a. split.
    + intros Ha. split; [by apply Hwit|].
      intros n c Hpath. destruct (Hlow n c Hpath) as (a' & Ha' & Hle). congruence.
    + intros [[n Hn] Hmin]. destruct (Hlow n a Hn) as (a' & Ha' & Hle).
      destruct (Hwit x a' Ha') as [n' Hn']. specialize (Hmin n' a' Hn').
      rewrite Ha'. do 2 f_equal. lia.
  - split.
    + intros Hinf (n & c & Hpath). destruct (Hlow n c Hpath) as (a & Ha & _). congruence.
    + intros Hun. destruct d as [a|]; [|done]. exfalso. apply Hun.
      destruct (Hwit x a Hd) as [n Hn]. by exists n, a.
Qed.



End BellmanFordExact.

(** ** Links to nodes that are not listed *)

Section Dangling.
Import BellmanFordAlgorithm.

Lemma can_relax_unlisted ids st from to w :
  keys_ok ids st → from ∉ ids ∨ to ∉ ids → can_relax (st_dist st) from to w = false.
Proof.
  intros [Hd _] H. unfold can_relax.
  destruct (st_dist st !! from) as [[a|]|] eqn:Ef; try done.
  destruct (st_dist st !! to) as [b|] eqn:Et; [|done].
  exfalso. destruct H as [H|H]; apply H; rewrite <- Hd; apply elem_of_dom; by eexists.
Qed.

Lemma relax_dir_unlisted ids st upd from to w :
  keys_ok ids st → from ∉ ids ∨ to ∉ ids → relax_dir w (st, upd) from to = (st, upd).
Proof.
  intros Hkeys H. unfold relax_dir.
  rewrite (can_relax_unlisted ids st from to w Hkeys H).
  by destruct (st_dist st !! from) as [[a|]|].
Qed.

Lemma relax_edge_unlisted ids st upd e :
  keys_ok ids st → e_source e ∉ ids ∨ e_target e ∉ ids →
  relax_edge (st, upd) e = (st, upd).
Proof.
  intros Hkeys H. unfold relax_edge.
  rewrite (relax_dir_unlisted ids) by done.
  apply (relax_dir_unlisted ids); [done|tauto].
Qed.

Lemma relax_edge_keys ids acc e : keys_ok ids acc.1 → keys_ok ids (relax_edge acc e).1.
Proof.
  destruct acc as [st upd]. intros Hkeys. unfold relax_edge.
  destruct (relax_dir (e_weight e) (st, upd) (e_source e) (e_target e)) as [st1 upd1] eqn:E.
  apply relax_dir_keys. change st1 with (st1, upd1).1. rewrite <- E.
  by apply relax_dir_keys.
Qed.

Lemma fold_relax_listed nodes edges acc :
  keys_ok (node_ids nodes) acc.1 →
  fold_left relax_edge edges acc = fold_left relax_edge (listed_edges nodes edges) acc.
Proof.
  unfold listed_edges. revert acc. induction edges as [|e es IH]; intros acc Hkeys; [done|].
  rewrite filter_cons. cbn [fold_left].
  destruct (decide (e_source e ∈ node_ids nodes ∧ e_target e ∈ node_ids nodes)) as [Hin|Hout].
  - cbn [fold_left]. apply IH. by apply relax_edge_keys.
  - destruct acc as [st upd].
    rewrite (relax_edge_unlisted (node_ids nodes)); [by apply IH|done|].
    destruct (decide (e_source e ∈ node_ids nodes)); [right|left]; tauto.
Qed.

Lemma passes_listed nodes edges n st i :
  keys_ok (node_ids nodes) st →
  passes n edges st i = passes n (listed_edges nodes edges) st i.
Proof.
  revert st i. induction n as [|n IH]; intros st i Hkeys; [done|].
  simpl. unfold pass. rewrite (fold_relax_listed nodes edges) by done.
  destruct (fold_left relax_edge (listed_edges nodes edges) (st, false)) as [st' upd] eqn:E.
  destruct upd; [|done]. apply IH.
  change st' with (st', true).1. rewrite <- E.
  apply (fold_relax_invariant (keys_ok (node_ids nodes)) (listed_edges nodes edges));
    [|done|done].
  intros e s u from to _ _ Hs. by apply relax_dir_keys.
Qed.

Lemma negative_cycle_listed nodes edges st :
  keys_ok (node_ids nodes) st →
  negative_cycle edges st = negative_cycle (listed_edges nodes edges) st.
Proof.
  intros Hkeys. unfold negative_cycle, listed_edges.
  induction edges as [|e es IH]; [done|].
  rewrite filter_cons. cbn [existsb].
  destruct (decide (e_source e ∈ node_ids nodes ∧ e_target e ∈ node_ids nodes)) as [Hin|Hout].
  - cbn [existsb]. by rewrite IH.
  - rewrite <- IH. unfold edge_relaxable.
    assert (e_source e ∉ node_ids nodes ∨ e_target e ∉ node_ids nodes) as H
      by (destruct (decide (e_source e ∈ node_ids nodes)); [right|left]; tauto).
    rewrite (can_relax_unlisted (node_ids nodes) st _ _ _ Hkeys H).
    rewrite (can_relax_unlisted (node_ids nodes) st (e_target e) (e_source e)); [done..|tauto].
Qed.

(** X4. Bellman-Ford takes no notice of a link one of whose endpoints is
    not a listed node: such a link relaxes nothing and the final scan never
    reports it, so the outcome is that of the run on the links between
    listed nodes. *)
Theorem X4_bellman_ford_ignores_unlisted (fuel : nat) (nodes : list Node)
    (edges : list Edge) (source dest : string) :
  execute fuel nodes edges source dest
  = execute fuel nodes (listed_edges nodes edges) source dest.
Proof.
  unfold execute.
  rewrite (passes_listed nodes edges) by apply init_state_keys.
  destruct (passes_spec (length nodes - 1) (listed_edges nodes edges)
              (init_state nodes source) 0) as (k & _ & E & _).
  rewrite E.
  rewrite (negative_cycle_listed nodes edges); [done|].
  apply k_passes_keys.
Qed.

End Dangling.

Section DanglingDijkstra.


End DanglingDijkstra.

(** ** Queries about nodes that are not listed *)

Section UnlistedQueries.

Lemma node_ids_check_not nodes x :
  bool_decide (x ∈ map n_id nodes) = false → x ∉ node_ids nodes.
Proof. intros H. apply bool_decide_eq_false in H. by rewrite elem_of_node_ids. Qed.

Lemma reconstruct_unlisted_destination fuel nodes st source dest iters :
  keys_ok (node_ids nodes) st →
  dest ∉ node_ids nodes → "undefined" ∉ node_ids nodes →
  reconstruct fuel nodes st source dest iters = OutOfFuel.
Proof.
  intros [_ Hp] Hdest Hundef. unfold reconstruct.
  rewrite walk_unknown_destination; [done| |]; apply not_elem_of_dom; by rewrite Hp.
Qed.



End UnlistedQueries.

Section UnlistedSource.

(** A state in which no distance is finite and no node has a predecessor:
    the initial state when the source is not listed. *)
Lemma init_state_blank nodes source x :
  source ∉ node_ids nodes → x ∈ node_ids nodes →
  st_dist (init_state nodes source) !! x = Some Inf
  ∧ st_prev (init_state nodes source) !! x = Some None.
Proof.
  intros Hs Hx. rewrite init_state_dist, init_state_prev.
  rewrite decide_True by done. split; [|by rewrite decide_True].
  rewrite decide_False; [done|]. by intros ->.
Qed.

Lemma pass_blank edges st :
  (∀ x a, st_dist st !! x ≠ Some (Fin a)) →
  BellmanFordAlgorithm.pass edges st = (st, false).
Proof.
  intros Hinf. unfold BellmanFordAlgorithm.pass. induction edges as [|e es IH] using rev_ind;
    [done|].
  rewrite fold_left_app, IH. cbn [fold_left].
  unfold BellmanFordAlgorithm.relax_edge, BellmanFordAlgorithm.relax_dir.
  destruct (st_dist st !! e_source e) as [[a|]|] eqn:E1; [by destruct (Hinf _ _ E1)|..];
    (destruct (st_dist st !! e_target e) as [[b|]|] eqn:E2; [by destruct (Hinf _ _ E2)|..]);
    done.
Qed.

Lemma negative_cycle_blank edges st :
  (∀ x a, st_dist st !! x ≠ Some (Fin a)) →
  BellmanFordAlgorithm.negative_cycle edges st = false.
Proof.
  intros Hinf. unfold BellmanFordAlgorithm.negative_cycle.
  induction edges as [|e es IH]; [done|]. cbn [existsb]. rewrite IH, orb_false_r.
  unfold BellmanFordAlgorithm.edge_relaxable, BellmanFordAlgorithm.can_relax.
  destruct (st_dist st !! e_source e) as [[a|]|] eqn:E1; [by destruct (Hinf _ _ E1)|..];
    (destruct (st_dist st !! e_target e) as [[b|]|] eqn:E2; [by destruct (Hinf _ _ E2)|..]);
    done.
Qed.

Lemma passes_blank n edges st i :
  (∀ x a, st_dist st !! x ≠ Some (Fin a)) →
  ∃ k, (k ≤ 1)%nat ∧ BellmanFordAlgorithm.passes n edges st i = (st, (i + k)%nat).
Proof.
  intros Hinf. destruct n as [|n].
  - exists O. split; [lia|]. simpl. by rewrite Nat.add_0_r.
  - exists 1%nat. split; [lia|]. simpl. rewrite pass_blank by done.
    by rewrite Nat.add_1_r.
Qed.

Lemma table_blank fuel nodes st source t :
  (∀ x a, st_dist st !! x ≠ Some (Fin a)) →
  fold_left (table_step fuel st source) nodes (Some t) = Some t.
Proof.
  intros Hinf. induction nodes as [|n ns IH]; [done|].
  cbn [fold_left]. unfold table_step at 2.
  destruct (decide (n_id n = source)); [done|].
  destruct (st_dist st !! n_id n) as [[c|]|] eqn:E; [by destruct (Hinf _ _ E)|done..].
Qed.

Lemma reconstruct_blank fuel nodes st source dest iters :
  (∀ x a, st_dist st !! x ≠ Some (Fin a)) →
  st_prev st !! dest = Some None → source ≠ dest →
  reconstruct (S fuel) nodes st source dest iters
  = Returned {| distances := st_dist st; previous := st_prev st; res_path := [];
                routingTable := []; iterations := iters |}.
Proof.
  intros Hinf Hdest Hne. unfold reconstruct, routing_table.
  rewrite (walk_no_pred _ _ _ Hdest), table_blank by done.
  unfold final_path. rewrite decide_False; [done|].
  intros H. apply list_elem_of_singleton in H. congruence.
Qed.

Lemma loop_blank n g dest s :
  (∀ x, x ∈ DijkstraAlgorithm.d_unvisited s →
        st_dist (DijkstraAlgorithm.d_st s) !! x = Some Inf) →
  DijkstraAlgorithm.d_st (DijkstraAlgorithm.loop n g dest s) = DijkstraAlgorithm.d_st s
  ∧ (DijkstraAlgorithm.d_iters (DijkstraAlgorithm.loop n g dest s)
     ≤ S (DijkstraAlgorithm.d_iters s))%nat.
Proof.
  intros Hinf. destruct n as [|n]; [simpl; split; [done|lia]|].
  simpl. destruct (DijkstraAlgorithm.d_unvisited s) as [|first rest] eqn:E;
    [split; [done|lia]|].
  rewrite (Hinf (fold_left _ rest first)); [simpl; split; [done|lia]|].
  rewrite <- E in *. rewrite E. apply pick_min_in.
Qed.



End UnlistedSource.

(** ** The iteration counters *)

Section Iterations.
Import DijkstraAlgorithm.

Lemma loop_iters_upper n g dest s :
  (d_iters (loop n g dest s) ≤ d_iters s + length (d_unvisited s))%nat.
Proof.
  revert s. induction n as [|n IH]; intros s; [simpl; lia|].
  simpl. destruct (d_unvisited s) as [|first rest] eqn:E; [lia|].
  set (cur := fold_left (pick_min (st_dist (d_st s))) rest first).
  pose proof (pick_min_in (st_dist (d_st s)) rest first) as Hcur. fold cur in Hcur.
  pose proof (length_filter_ne (first :: rest) cur Hcur) as Hlen.
  destruct (st_dist (d_st s) !! cur) as [[a|]|]; simpl; try lia;
    (destruct (decide (cur = dest)); [simpl in *; lia|]);
    (etrans; [apply IH|]); simpl in *; lia.
Qed.

Lemma loop_iters_lower n g dest s :
  (d_iters s ≤ d_iters (loop n g dest s))%nat
  ∧ (d_unvisited s ≠ [] → (d_iters (loop (S n) g dest s) = S (d_iters s)
                            ∨ S (d_iters s) ≤ d_iters (loop (S n) g dest s))%nat).
Proof.
  assert (∀ n s, (d_iters s ≤ d_iters (loop n g dest s))%nat) as Hmono.
  { clear. intros n. induction n as [|n IH]; intros s; [done|].
    simpl. destruct (d_unvisited s) as [|first rest]; [done|].
    destruct (st_dist (d_st s) !! _) as [[a|]|]; simpl; try lia;
      (destruct (decide (_ = dest)); [simpl; lia|]);
      (etrans; [|apply IH]); simpl; lia. }
  split; [apply Hmono|]. intros Hne. right.
  simpl. destruct (d_unvisited s) as [|first rest]; [done|].
  destruct (st_dist (d_st s) !! _) as [[a|]|]; simpl; try lia;
    (destruct (decide (_ = dest)); [simpl; lia|]);
    (etrans; [|apply Hmono]); simpl; lia.
Qed.

Lemma length_new_set l : length (new_set l) = size (list_to_set l : gset string).
Proof.
  destruct (new_set_spec l) as [Hnd Hel].
  rewrite <- (size_list_to_set (C := gset string) (new_set l)) by done.
  f_equal. apply set_eq. intros x. rewrite !elem_of_list_to_set. apply Hel.
Qed.

Lemma line_iterations :
  (match DijkstraAlgorithm.execute 3 line_nodes line_edges "A" "C" with
   | Returned r => Some (iterations r) | _ => None end,
   match BellmanFordAlgorithm.execute 3 line_nodes line_edges "A" "C" with
   | Returned r => Some (iterations r) | _ => None end)
  = (Some 3%nat, Some 2%nat).
Proof. vm_compute. reflexivity. Qed.

(** X9. The iteration counter of a returned result is bounded by the
    input: Dijkstra counts at most as many passes as there are distinct
    node ids, and at least one when there is a node; Bellman-Ford counts at
    most [nodes.length - 1] passes, and at least one when there are two
    nodes or more. *)
Theorem X9_iteration_bounds (fuel : nat) (nodes : list Node) (edges : list Edge)
    (source dest : string) (r : AlgorithmResult) :
  (DijkstraAlgorithm.execute fuel nodes edges source dest = Returned r →
   (iterations r ≤ size (node_ids nodes))%nat
   ∧ (nodes ≠ [] → (1 ≤ iterations r)%nat))
  ∧ (BellmanFordAlgorithm.execute fuel nodes edges source dest = Returned r →
     (iterations r ≤ length nodes - 1)%nat
     ∧ ((2 ≤ length nodes)%nat → (1 ≤ iterations r)%nat)).
Proof.
  split.
  - unfold DijkstraAlgorithm.execute.
    destruct (build_graph nodes edges) as [g|]; [|done].
    intros (_ & _ & ->)%reconstruct_returned.
    set (s0 := mkD (init_state nodes source) ∅ (new_set (map n_id nodes)) 0).
    split.
    + pose proof (loop_iters_upper (length (new_set (map n_id nodes))) g dest s0) as H.
      simpl in H. unfold node_ids. by rewrite <- length_new_set.
    + intros Hne.
      assert (d_unvisited s0 ≠ []) as Hun.
      { simpl. destruct nodes as [|n ns]; [done|]. intros E.
        assert (n_id n ∈ new_set (map n_id (n :: ns))) as Hin
          by (apply (proj2 (proj2 (new_set_spec _) _)); simpl; by left).
        rewrite E in Hin. by apply elem_of_nil in Hin. }
      destruct (length (new_set (map n_id nodes))) as [|m] eqn:El.
      { exfalso. apply Hun. simpl. by apply nil_length_inv. }
      destruct (loop_iters_lower m g dest s0) as [_ H].
      destruct (H Hun) as [->|H']; simpl in *; lia.
  - unfold BellmanFordAlgorithm.execute.
    destruct (passes_spec (length nodes - 1) edges (init_state nodes source) 0)
      as (k & Hk & E & Hstop).
    rewrite E. destruct (BellmanFordAlgorithm.negative_cycle _ _); [done|].
    intros (_ & _ & ->)%reconstruct_returned. split; [lia|].
    intros Hlen. destruct (decide (k < length nodes - 1)%nat) as [Hlt|]; [|lia].
    destruct (Hstop Hlt) as (j & -> & _). lia.
Qed.

Lemma X9_iteration_bounds_witness :
  ∃ rd rb,
    DijkstraAlgorithm.execute 3 line_nodes line_edges "A" "C" = Returned rd
    ∧ BellmanFordAlgorithm.execute 3 line_nodes line_edges "A" "C" = Returned rb
    ∧ (iterations rd ≤ size (node_ids line_nodes))%nat
    ∧ (iterations rb ≤ length line_nodes - 1)%nat.
Proof.
  destruct (observe_returned _ _ _ line_dijkstra) as [rd Hd].
  destruct (observe_returned _ _ _ line_bellman_ford) as [rb Hb].
  exists rd, rb. split; [exact Hd|]. split; [exact Hb|].
  split.
  - exact (proj1 (proj1 (X9_iteration_bounds 3 line_nodes line_edges "A" "C" rd) Hd)).
  - exact (proj1 (proj2 (X9_iteration_bounds 3 line_nodes line_edges "A" "C" rb) Hb)).
Defined.

End Iterations.

(** ** A query whose destination is the source *)

Section SourceIsDestination.

Lemma relax_source_root ids arc source st u v w :
  sp_inv_nonneg ids arc source st → 0 ≤ w → source ∈ ids →
  st_prev st !! source = Some None →
  st_prev (relax st u v w) !! source = Some None.
Proof.
  intros Hinv Hw Hs Hp.
  destruct (relax_cases st u v w) as [->|(a & b & Hu & Hv & Hlt & ->)]; [done|].
  simpl. destruct (decide (v = source)) as [->|Hne].
  - exfalso. rewrite (inv_source _ _ _ _ Hinv Hs) in Hv. injection Hv as <-.
    pose proof (inv_nonneg _ _ _ _ Hinv u a Hu). simpl in Hlt. lia.
  - by rewrite lookup_insert_ne.
Qed.

Lemma bf_source_root nodes edges source k :
  weights_nonneg edges → source ∈ node_ids nodes →
  st_prev (k_passes k edges (init_state nodes source)) !! source = Some None.
Proof.
  intros Hnn Hs.
  pose (P := λ st, sp_inv_nonneg (node_ids nodes) (edge_arc nodes edges) source st
                   ∧ st_prev st !! source = Some None).
  enough (P (k_passes k edges (init_state nodes source))) as [_ H] by done.
  apply k_passes_invariant.
  - intros e st upd u v He Hj [Hinv Hp]. rewrite relax_dir_fst. split.
    + apply relax_inv_nonneg; [done|by apply joined_edge_arc|by apply Hnn].
    + apply (relax_source_root (node_ids nodes) (edge_arc nodes edges)); try done.
      by apply Hnn.
  - split; [apply init_inv_nonneg|]. rewrite init_state_prev. by rewrite decide_True.
Qed.

Lemma dijkstra_source_root nodes edges source dest g n s0 :
  DijkstraAlgorithm.build_graph nodes edges = Some g → weights_nonneg edges →
  source ∈ node_ids nodes →
  DijkstraAlgorithm.d_st s0 = init_state nodes source →
  st_prev (DijkstraAlgorithm.d_st (DijkstraAlgorithm.loop n g dest s0)) !! source
  = Some None.
Proof.
  intros Hg Hnn Hs Hs0.
  pose (P := λ st, sp_inv_nonneg (node_ids nodes) (graph_arc g) source st
                   ∧ st_prev st !! source = Some None).
  enough (P (DijkstraAlgorithm.d_st (DijkstraAlgorithm.loop n g dest s0))) as [_ H] by done.
  assert (∀ u v w, graph_arc g u v w → 0 ≤ w) as Hw.
  { intros u v w Harc.
    destruct (build_graph_spec nodes edges g Hg) as (_ & _ & Hsound & _).
    destruct (Hsound u v w Harc) as (_ & _ & e & He & <- & _). by apply Hnn. }
  apply loop_invariant.
  - intros st cur nb w [Hinv Hp] Harc. split.
    + apply relax_inv_nonneg; [done|done|by apply (Hw cur nb)].
    + apply (relax_source_root (node_ids nodes) (graph_arc g)); try done.
      by apply (Hw cur nb).
  - rewrite Hs0. split; [apply init_inv_nonneg|]. rewrite init_state_prev.
    by rewrite decide_True.
Qed.

(** The first node that Dijkstra picks is the source. *)
Lemma pick_min_source nodes source first rest :
  source ∈ first :: rest →
  (∀ y, y ∈ first :: rest → y ∈ node_ids nodes) →
  fold_left (DijkstraAlgorithm.pick_min (st_dist (init_state nodes source))) rest first
  = source.
Proof.
  intros Hs Hin.
  destruct (pick_min_fold (st_dist (init_state nodes source)) rest first) as [Hcur Hmin].
  { intros y Hy. rewrite init_state_dist, decide_True by by apply Hin. by eexists. }
  set (cur := fold_left _ rest first) in *.
  destruct (decide (cur = source)) as [|Hne]; [done|]. exfalso.
  specialize (Hmin source Inf (Fin 0) Hs).
  apply (num_le_inf_fin 0), Hmin; rewrite init_state_dist.
  - rewrite decide_True by by apply Hin. by rewrite decide_False.
  - rewrite decide_True by by apply Hin. by rewrite decide_True.
Qed.

Lemma dijkstra_one_pass nodes source g :
  source ∈ node_ids nodes →
  DijkstraAlgorithm.d_iters
    (DijkstraAlgorithm.loop (length (DijkstraAlgorithm.new_set (map n_id nodes))) g source
       (DijkstraAlgorithm.mkD (init_state nodes source) ∅
          (DijkstraAlgorithm.new_set (map n_id nodes)) 0)) = 1%nat.
Proof.
  intros Hs. destruct (new_set_spec (map n_id nodes)) as [_ Hel].
  destruct (DijkstraAlgorithm.new_set (map n_id nodes)) as [|first rest] eqn:E.
  { exfalso. apply elem_of_node_ids, Hel in Hs. by apply elem_of_nil in Hs. }
  cbn [length DijkstraAlgorithm.loop DijkstraAlgorithm.d_unvisited
       DijkstraAlgorithm.d_st DijkstraAlgorithm.d_iters DijkstraAlgorithm.d_visited].
  rewrite (pick_min_source nodes source first rest).
  - rewrite init_state_dist, decide_True by done. rewrite decide_True by done.
    by rewrite decide_True.
  - by apply Hel, elem_of_node_ids.
  - intros y Hy. by apply elem_of_node_ids, Hel.
Qed.



End SourceIsDestination.

(** ** The policy selector: which paths it enumerates *)

Section Enumeration.
Import BGPPathSelection.

Lemma neighbor_of_joined e u v : neighbor_of e u = Some v ↔ joined e u v.
Proof.
  unfold neighbor_of, joined.
  destruct (decide (e_source e = u)) as [Hs|Hs].
  - split; [intros [= <-]; by left|]. intros [[_ <-]|[Ht <-]]; [done|]. congruence.
  - destruct (decide (e_target e = u)) as [Ht|Ht].
    + split; [intros [= <-]; by right|]. intros [[? _]|[_ <-]]; done.
    + split; [done|]. intros [[? _]|[? _]]; done.
Qed.

(** What [dfs] returns: the extensions of [path] by the simple routes from
    [current] to the end that fit the budget and avoid the visited nodes. *)
Lemma dfs_spec budget edges end_ current pth visited q :
  q ∈ dfs budget edges end_ current pth visited ↔
  ∃ rest, q = pth ++ current :: rest
          ∧ (length rest < budget)%nat
          ∧ last (current :: rest) = Some end_
          ∧ NoDup (current :: rest)
          ∧ chained edges (current :: rest)
          ∧ ("" ∉ rest)
          ∧ (∀ x, x ∈ rest → x ∉ visited)
          ∧ (rest ≠ [] → current ∉ visited).
Proof.
  revert current pth visited q. induction budget as [|b IH]; intros current pth visited q.
  { simpl. split; [by intros ?%elem_of_nil|]. intros (rest & _ & ? & _). lia. }
  simpl. destruct (decide (current = end_)) as [->|Hne].
  { rewrite list_elem_of_singleton. split.
    - intros ->. exists []. split_and!; try done; [simpl; lia|apply NoDup_singleton|..].
      + by intros ?%elem_of_nil.
      + by intros x ?%elem_of_nil.
    - intros (rest & -> & _ & Hlast & Hnd & _).
      destruct rest as [|y r]; [done|]. exfalso.
      apply NoDup_cons in Hnd as [Hnin _]. apply Hnin.
      change (last (end_ :: y :: r)) with (last (y :: r)) in Hlast.
      by apply last_Some_elem_of. }
  destruct (decide (current ∈ visited)) as [Hvis|Hvis].
  { split; [by intros ?%elem_of_nil|].
    intros (rest & -> & _ & Hlast & _ & _ & _ & _ & Hcur).
    destruct rest as [|y r]; [simpl in Hlast; congruence|]. by destruct Hcur. }
  rewrite list_elem_of_In, in_flat_map. split.
  - intros (e & He & Hq). apply list_elem_of_In in He.
    destruct (neighbor_of e current) as [nb|] eqn:Enb; [|done].
    destruct (decide (nb = "")) as [|Hnb]; [done|].
    destruct (decide (nb ∈ {[current]} ∪ visited)) as [|Hnv]; [done|].
    apply list_elem_of_In, IH in Hq
      as (rest & -> & Hlen & Hlast & Hnd & Hch & Hempty & Hrest & _).
    exists (nb :: rest). split; [by rewrite <- app_assoc|].
    split; [simpl; lia|]. split; [done|]. split.
    { apply NoDup_cons. split; [|done]. intros Hin.
      apply elem_of_cons in Hin as [->|Hin]; [set_solver|].
      apply (Hrest current Hin). set_solver. }
    split.
    { split; [|done]. exists e. split; [done|]. by apply neighbor_of_joined. }
    split.
    { intros Hin. apply elem_of_cons in Hin as [?|?]; [congruence|done]. }
    split; [|done].
    intros x Hx. apply elem_of_cons in Hx as [->|Hx]; [set_solver|].
    specialize (Hrest x Hx). set_solver.
  - intros (rest & -> & Hlen & Hlast & Hnd & Hch & Hempty & Hrest & _).
    destruct rest as [|nb rest]; [simpl in Hlast; congruence|].
    destruct Hch as [(e & He & Hj) Hch].
    exists e. split; [by apply list_elem_of_In|].
    apply neighbor_of_joined in Hj. rewrite Hj.
    apply NoDup_cons in Hnd as [Hcur Hnd].
    rewrite decide_False by (intros ->; apply Hempty; by left).
    rewrite decide_False.
    2:{ intros [Hin|Hin]%elem_of_union.
        - apply elem_of_singleton in Hin as ->. apply Hcur. by left.
        - apply (Hrest nb); [by left|done]. }
    apply list_elem_of_In, IH. exists rest.
    split; [by rewrite <- app_assoc|].
    split; [simpl in Hlen; lia|]. split; [done|]. split; [done|]. split; [done|].
    split; [intros Hin; apply Hempty; by right|].
    split.
    + intros x Hx [Hin|Hin]%elem_of_union.
      * apply elem_of_singleton in Hin as ->. apply Hcur. by right.
      * apply (Hrest x); [by right|done].
    + intros _ [Hin|Hin]%elem_of_union.
      * apply elem_of_singleton in Hin as ->. apply Hcur. by left.
      * apply (Hrest nb); [by left|done].
Qed.

End Enumeration.

(** ** The policy selector: the maps and the path of a result *)

Section PolicyResult.
Import BGPPathSelection.

Lemma findAllPaths_spec nodes edges start end_ p :
  p ∈ findAllPaths nodes edges start end_
  ↔ simple_route edges start end_ p ∧ (length p ≤ S maxDepth_default)%nat.
Proof.
  unfold findAllPaths, simple_route. rewrite dfs_spec. split.
  - intros (rest & -> & Hlen & Hlast & Hnd & Hch & Hempty & _). simpl in *.
    split_and!; (done || lia).
  - intros [(Hhead & Hlast & Hnd & Hch & Hempty) Hlen].
    destruct p as [|x rest]; [done|]. injection Hhead as ->.
    exists rest. simpl in *. split_and!; try done; try lia; set_solver.
Qed.

(** X10. The paths that [findAllPaths] enumerates are exactly the simple
    routes from the start to the end of at most [maxDepth] = 10 links:
    lists of distinct nodes that begin at the start, end at the end, whose
    consecutive nodes are joined by a link of the list, and that enter no
    node whose id is the empty string. *)
Theorem X10_findAllPaths_simple_routes (nodes : list Node) (edges : list Edge)
    (start end_ : string) (p : list string) :
  p ∈ findAllPaths nodes edges start end_
  ↔ simple_route edges start end_ p ∧ (length p ≤ S maxDepth_default)%nat.
Proof. apply findAllPaths_spec. Qed.

Lemma seed_prev_off_path w i before p st x :
  x ∉ p → st_prev (seed w i before p st) !! x = st_prev st !! x.
Proof.
  revert i before st. induction p as [|y p IH]; intros i before st Hx; [done|].
  simpl. rewrite IH by (intros ?; apply Hx; by right). simpl.
  destruct i as [|i]; [done|]. destruct before as [b|]; [|done].
  rewrite lookup_insert_ne; [done|]. intros ->. apply Hx. by left.
Qed.

(** The nodes that [forEach] visits after the first get the weight of the
    whole path as distance, and the node before them as predecessor. *)
Lemma seed_tail w i a rest st :
  NoDup rest →
  let st' := seed w (S i) (Some a) rest st in
  (∀ x, x ∈ rest → st_dist st' !! x = Some (Fin w))
  ∧ (∀ j u v, (a :: rest) !! j = Some u → (a :: rest) !! S j = Some v →
              st_prev st' !! v = Some (Some u)).
Proof.
  revert i a st. induction rest as [|b rest IH]; intros i a st Hnd; simpl.
  { split; [by intros x ?%elem_of_nil|]. intros j u v _ H. by destruct j. }
  apply NoDup_cons in Hnd as [Hb Hnd].
  destruct (IH (S i) b
              {| st_dist := <[b:=Fin w]> (st_dist st);
                 st_prev := <[b:=Some a]> (st_prev st) |} Hnd) as [IH1 IH2].
  split.
  - intros x Hx. apply elem_of_cons in Hx as [->|Hx]; [|by apply IH1].
    rewrite seed_dist_off_path by done. simpl. by rewrite lookup_insert_eq.
  - intros j u v Hu Hv. destruct j as [|j].
    + simpl in Hu, Hv. injection Hu as <-. injection Hv as <-.
      rewrite seed_prev_off_path by done. simpl. by rewrite lookup_insert_eq.
    + by apply (IH2 j).
Qed.

Lemma seed_spec w a rest st :
  NoDup (a :: rest) →
  let st' := seed w O None (a :: rest) st in
  st_dist st' !! a = Some (Fin 0)
  ∧ (∀ x, x ∈ rest → st_dist st' !! x = Some (Fin w))
  ∧ (∀ j u v, (a :: rest) !! j = Some u → (a :: rest) !! S j = Some v →
              st_prev st' !! v = Some (Some u)).
Proof.
  intros [Ha Hnd]%NoDup_cons. simpl.
  destruct (seed_tail w O a rest
              {| st_dist := <[a:=Fin 0]> (st_dist st); st_prev := st_prev st |} Hnd)
    as [H1 H2].
  split; [|split; [done|done]].
  rewrite seed_dist_off_path by done. simpl. by rewrite lookup_insert_eq.
Qed.

Lemma bgp_elected rng nodes edges source dest :
  findAllPaths nodes edges source dest ≠ [] →
  ∃ best table,
    bp_path best ∈ findAllPaths nodes edges source dest
    ∧ weight best = calculatePathWeight (bp_path best) edges
    ∧ execute rng nodes edges source dest
      = {| distances := st_dist (seed (weight best) O None (bp_path best)
                                   (fold_left blank_step nodes (mkSt ∅ ∅)));
           previous := st_prev (seed (weight best) O None (bp_path best)
                                  (fold_left blank_step nodes (mkSt ∅ ∅)));
           res_path := map JStr (bp_path best);
           routingTable := table;
           iterations := length (findAllPaths nodes edges source dest) |}.
Proof.
  intros Hne. unfold execute.
  destruct (findAllPaths nodes edges source dest) as [|p0 r0] eqn:E; [done|].
  pose proof (assign_spec edges rng O (p0 :: r0)) as (Hpaths & _ & Hattr).
  pose proof (assign_nonempty edges rng O (p0 :: r0) Hne) as Hne'.
  destruct (assign edges rng 0 (p0 :: r0)) as [bgpPaths k]. simpl in Hpaths, Hattr, Hne'.
  destruct (selectBestPath_is_Some bgpPaths Hne') as [best Hbest]. rewrite Hbest.
  pose proof (selectBestPath_elem _ _ Hbest) as Hin.
  destruct (fold_left _ nodes ([], k)) as [table k'].
  exists best, table. split; [|split; [by apply Hattr|done]].
  rewrite <- Hpaths. apply list_elem_of_fmap. by exists best.
Qed.



End PolicyResult.

(** ** The policy selector: the weight of a path *)

Section PathWeight.
Import BGPPathSelection.

Lemma weight_loop_shift p edges total :
  weight_loop p edges total = total + weight_loop p edges 0.
Proof.
  revert total. induction p as [|a p IH]; intros total; [simpl; lia|].
  destruct p as [|b r]; [simpl; lia|]. rewrite !weight_loop_cons.
  rewrite IH. rewrite (IH (match find (joins a b) edges with
                           | Some edge => 0 + e_weight edge | None => 0 end)).
  destruct (find (joins a b) edges); lia.
Qed.

Lemma weight_concat p a q edges :
  calculatePathWeight (p ++ a :: q) edges
  = calculatePathWeight (p ++ [a]) edges + calculatePathWeight (a :: q) edges.
Proof.
  unfold calculatePathWeight. induction p as [|x p IH]; [simpl; lia|].
  destruct p as [|y p].
  - simpl app. rewrite !weight_loop_cons.
    rewrite weight_loop_shift. rewrite (weight_loop_shift [a]). simpl (weight_loop [a] _ _).
    destruct (find (joins x a) edges); lia.
  - change ((x :: y :: p) ++ a :: q) with (x :: y :: (p ++ a :: q)).
    change ((x :: y :: p) ++ [a]) with (x :: y :: (p ++ [a])).
    rewrite !weight_loop_cons.
    rewrite weight_loop_shift. rewrite (weight_loop_shift (y :: p ++ [a])).
    change (y :: p ++ a :: q) with ((y :: p) ++ a :: q).
    change (y :: p ++ [a]) with ((y :: p) ++ [a]). rewrite IH.
    destruct (find (joins x y) edges); lia.
Qed.

Lemma find_joins_sym a b edges : find (joins a b) edges = find (joins b a) edges.
Proof.
  induction edges as [|e es IH]; [done|]. simpl. rewrite IH.
  assert (joins a b e = joins b a e) as ->; [|done].
  unfold joins. apply bool_decide_ext. tauto.
Qed.

Lemma weight_rev p edges :
  calculatePathWeight (rev p) edges = calculatePathWeight p edges.
Proof.
  induction p as [|a p IH]; [done|]. destruct p as [|b r]; [done|].
  change (rev (a :: b :: r)) with (rev (b :: r) ++ [a]).
  change (rev (b :: r)) with (rev r ++ [b]) at 1. rewrite <- app_assoc.
  change ([b] ++ [a]) with (b :: [a]). rewrite weight_concat.
  change (rev r ++ [b]) with (rev (b :: r)). rewrite IH.
  unfold calculatePathWeight. rewrite (weight_loop_cons a b r).
  rewrite (weight_loop_cons b a []). rewrite (find_joins_sym b a).
  simpl (weight_loop [a] _ _).
  rewrite (weight_loop_shift (b :: r) edges (match find (joins a b) edges with
                                             | Some edge => 0 + e_weight edge
                                             | None => 0 end)).
  destruct (find (joins a b) edges); lia.
Qed.


End PathWeight.

(** ** The policy selector against the shortest distance *)

Section PolicyCost.
Import BGPPathSelection.

Lemma find_joins_Some a b edges :
  (∃ e, e ∈ edges ∧ joined e a b) →
  ∃ e, find (joins a b) edges = Some e ∧ e ∈ edges ∧ joined e a b.
Proof.
  intros (e0 & He0 & Hj0). induction edges as [|e es IH]; [by apply elem_of_nil in He0|].
  simpl. destruct (joins a b e) eqn:Ej.
  - exists e. split; [done|]. split; [by left|]. by apply bool_decide_eq_true in Ej.
  - apply elem_of_cons in He0 as [->|He0].
    + apply bool_decide_eq_false in Ej. by destruct Ej.
    + destruct (IH He0) as (e' & Hf & He' & Hj'). exists e'. split; [done|].
      split; [by right|done].
Qed.

(** A chained list of nodes is a walk, and [calculatePathWeight] is its
    weight. *)
Lemma chained_walk nodes edges source a rest n c :
  endpoints_exist nodes edges → chained edges (a :: rest) →
  wpath (node_ids nodes) (edge_arc nodes edges) source a n c →
  a ∈ node_ids nodes →
  ∃ x n', last (a :: rest) = Some x
          ∧ wpath (node_ids nodes) (edge_arc nodes edges) source x n'
              (c + calculatePathWeight (a :: rest) edges).
Proof.
  intros Hends. unfold calculatePathWeight.
  revert a n c. induction rest as [|b r IH]; intros a n c Hch Hw Ha.
  { exists a, n. split; [done|]. simpl. by rewrite Z.add_0_r. }
  destruct Hch as [Hex Hch].
  destruct (find_joins_Some a b edges Hex) as (e & Hf & He & Hj).
  assert (b ∈ node_ids nodes) as Hb.
  { destruct (Hends e He) as [H1 H2]. destruct Hj as [[_ <-]|[_ <-]]; done. }
  destruct (IH b (S n) (c + e_weight e) Hch) as (x & n' & Hlast & Hpath); [|done|].
  { econstructor; [exact Hw|]. split; [done|]. split; [done|]. by exists e. }
  exists x, n'. split; [done|].
  rewrite weight_loop_cons, Hf, weight_loop_shift.
  replace (c + (0 + e_weight e + weight_loop (b :: r) edges 0))
    with (c + e_weight e + weight_loop (b :: r) edges 0) by lia.
  done.
Qed.

Lemma tri_bellman_ford :
  observe "B" (BellmanFordAlgorithm.execute 3 tri_nodes tri_edges "A" "B")
  = Some (Some (Fin 2), [JStr "A"; JStr "C"; JStr "B"]).
Proof. vm_compute. reflexivity. Qed.



End PolicyCost.

(** ** The single-engine page against the engine *)

Section RouterSimulationFacts.
Import RouterSimulation.

Lemma graph_keys_elem nodes x : x ∈ graph_keys nodes ↔ x ∈ node_ids nodes.
Proof.
  unfold graph_keys. rewrite obj_keys_elem, map_map. simpl. rewrite map_id.
  rewrite (proj2 (new_set_spec (map n_id nodes)) x). by rewrite elem_of_node_ids.
Qed.

Lemma key_nodes_ids keys : map n_id (map key_node keys) = keys.
Proof. rewrite map_map. simpl. apply map_id. Qed.

Lemma node_ids_keys nodes : node_ids (map key_node (graph_keys nodes)) = node_ids nodes.
Proof.
  apply set_eq. intros x. rewrite elem_of_node_ids, key_nodes_ids. apply graph_keys_elem.
Qed.

Lemma init_keys_state source keys st :
  fold_left (init_key source) keys st = fold_left (init_step source) (map key_node keys) st.
Proof. revert st. induction keys as [|k ks IH]; intros st; [done|]. simpl. apply IH. Qed.

Lemma init_ids_state source nodes st :
  fold_left (init_key source) (map n_id nodes) st = fold_left (init_step source) nodes st.
Proof. revert st. induction nodes as [|n ns IH]; intros st; [done|]. simpl. apply IH. Qed.

Lemma empty_graph_ids nodes nodes' :
  node_ids nodes' = node_ids nodes →
  DijkstraAlgorithm.empty_graph nodes' = DijkstraAlgorithm.empty_graph nodes.
Proof.
  intros H. apply map_eq. intros x. rewrite !empty_graph_lookup, H. done.
Qed.

Lemma build_graph_keys nodes edges :
  DijkstraAlgorithm.build_graph (map key_node (graph_keys nodes)) edges
  = DijkstraAlgorithm.build_graph nodes edges.
Proof.
  unfold DijkstraAlgorithm.build_graph.
  by rewrite (empty_graph_ids nodes (map key_node (graph_keys nodes)) (node_ids_keys nodes)).
Qed.

(** The state in which [runDijkstra] leaves its loop is the state in which
    the engine leaves it on the node list that [Object.keys] gives. *)
Lemma runDijkstra_state fuel nodes edges source dest prev g :
  source ≠ "" → dest ≠ "" → source ≠ dest →
  DijkstraAlgorithm.build_graph nodes edges = Some g →
  let nodes' := map key_node (graph_keys nodes) in
  let sd := DijkstraAlgorithm.loop
              (length (DijkstraAlgorithm.new_set (map n_id nodes'))) g dest
              (DijkstraAlgorithm.mkD (init_state nodes' source) ∅
                 (DijkstraAlgorithm.new_set (map n_id nodes')) 0) in
  runDijkstra fuel nodes edges source dest prev
  = match walk fuel (st_prev (DijkstraAlgorithm.d_st sd)) (JStr dest) [] with
    | None => OutOfFuel
    | Some p => Returned {| ds_distances := st_dist (DijkstraAlgorithm.d_st sd);
                            ds_previous := st_prev (DijkstraAlgorithm.d_st sd);
                            ds_visited := DijkstraAlgorithm.d_visited sd;
                            ds_path := p; isRunning := false; currentNode := None |}
    end.
Proof.
  intros Hs Hd Hne Hg nodes' sd. unfold runDijkstra.
  rewrite decide_False by tauto. rewrite Hg.
  subst sd nodes'. rewrite key_nodes_ids. unfold init_state.
  by rewrite <- init_keys_state.
Qed.

Lemma scenario_keys : graph_keys scenario_nodes = map n_id scenario_nodes.
Proof. vm_compute. reflexivity. Qed.



End RouterSimulationFacts.

(** ** Adding a link from the page *)

Section AddEdge.
Import RouterSimulation.

Lemma random_weight_bounds (r : Q) :
  (0 <= r)%Q → (r < 1)%Q → 1 ≤ Qfloor (r * 8) + 1 ≤ 8.
Proof.
  intros H0 H1.
  assert (0 ≤ Qfloor (r * 8)) as Hlo.
  { change 0 with (Qfloor 0). apply Qfloor_resp_le.
    apply Qmult_le_0_compat; [done|]. by compute. }
  assert (Qfloor (r * 8) < 8) as Hhi.
  { rewrite Zlt_Qlt. eapply Qle_lt_trans; [apply Qfloor_le|].
    change (inject_Z 8) with (1 * 8)%Q. apply Qmult_lt_r; [by compute|done]. }
  lia.
Qed.

Lemma linked_check edges s t :
  existsb (λ e, bool_decide ((e_source e = s ∧ e_target e = t)
                             ∨ (e_source e = t ∧ e_target e = s))) edges = true
  ↔ ∃ e, e ∈ edges ∧ joined e s t.
Proof.
  rewrite existsb_exists. unfold joined. split.
  - intros (e & He & Hj). apply bool_decide_eq_true in Hj. exists e.
    split; [by apply list_elem_of_In|tauto].
  - intros (e & He & Hj). exists e. split; [by apply list_elem_of_In|].
    apply bool_decide_eq_true. tauto.
Qed.

Lemma joined_sym e u v : joined e u v → joined e v u.
Proof. unfold joined. tauto. Qed.

Lemma joined_ends e u v u' v' :
  joined e u v → joined e u' v' → (u' = u ∧ v' = v) ∨ (u' = v ∧ v' = u).
Proof. unfold joined. intros [[<- <-]|[<- <-]] [[<- <-]|[<- <-]]; tauto. Qed.

Lemma single_links_one_weight edges : single_links edges → one_weight_per_link edges.
Proof.
  intros H e1 e2 u v He1 He2 Hj1 Hj2.
  apply list_elem_of_lookup in He1 as [i Hi]. apply list_elem_of_lookup in He2 as [j Hj].
  pose proof (H i j e1 e2 u v Hi Hj Hj1 Hj2) as ->. congruence.
Qed.

Lemma single_links_snoc edges e :
  single_links edges →
  (¬ ∃ e', e' ∈ edges ∧ joined e' (e_source e) (e_target e)) →
  single_links (edges ++ [e]).
Proof.
  intros Hsingle Hnew i j e1 e2 u v Hi Hj Hj1 Hj2.
  assert (∀ k e', (edges ++ [e]) !! k = Some e' →
            (k < length edges)%nat ∧ edges !! k = Some e'
            ∨ k = length edges ∧ e' = e) as Hcases.
  { intros k e' Hk. apply lookup_app_Some in Hk as [Hk|[Hlen Hk]].
    - left. split; [by apply lookup_lt_Some in Hk|done].
    - right. apply list_lookup_singleton_Some in Hk as [Hz ->]. split; [lia|done]. }
  assert (∀ e' u v, e' ∈ edges → joined e' u v → joined e u v → False) as Hclash.
  { intros e' u' v' He' Hj' Hje. apply Hnew. exists e'. split; [done|].
    destruct (joined_ends e u' v' (e_source e) (e_target e) Hje) as [[-> ->]|[-> ->]];
      [by left|done|by apply joined_sym]. }
  destruct (Hcases i e1 Hi) as [[_ Hi']|[-> ->]], (Hcases j e2 Hj) as [[_ Hj']|[-> ->]].
  - by apply (Hsingle i j e1 e2 u v).
  - exfalso. apply (Hclash e1 u v); [by apply list_elem_of_lookup_2 in Hi'|done..].
  - exfalso. apply (Hclash e2 u v); [by apply list_elem_of_lookup_2 in Hj'|done..].
  - done.
Qed.

(** A check of [single_links] by computation: every link is compared with
    those before it. *)
Lemma single_links_check edges :
  (fold_left (λ acc e,
      (acc.1 ++ [e],
       acc.2 && negb (existsb (λ e', bool_decide
                        ((e_source e' = e_source e ∧ e_target e' = e_target e)
                         ∨ (e_source e' = e_target e ∧ e_target e' = e_source e)))
                        acc.1))) edges ([], true)).2 = true →
  single_links edges.
Proof.
  set (f := λ (acc : list Edge * bool) (e : Edge), _).
  assert (∀ l pre ok, (fold_left f l (pre, ok)).2 = true →
            ok = true ∧ (single_links pre → single_links (pre ++ l))) as H.
  { induction l as [|e l IH]; intros pre ok Hf; simpl in Hf.
    - split; [done|]. by rewrite app_nil_r.
    - destruct (IH _ _ Hf) as [Hok Hl]. apply andb_true_iff in Hok as [Hok Hnew].
      split; [done|]. intros Hpre.
      replace (pre ++ e :: l) with ((pre ++ [e]) ++ l) by by rewrite <- app_assoc.
      apply Hl, single_links_snoc; [done|].
      intros Hex. apply linked_check in Hex. apply negb_true_iff in Hnew. congruence. }
  intros Hf. destruct (H edges [] true Hf) as [_ Hs]. apply Hs.
  intros i j e1 e2 u v Hi. done.
Qed.

Lemma scenario_single_links : single_links scenario_edges.
Proof. apply single_links_check. reflexivity. Qed.

(** X15. Adding a link from the page keeps the topology within the
    conventions under which the engines agree.  When [Math.random()] is in
    [0, 1), the callback sees the current list of links, the links join
    listed nodes, have non-negative weights and no two of them join the
    same two nodes, and the two ends are listed nodes, the new list has
    the same properties.  It is the old list when a link already joins the
    two ends, in either direction; otherwise it is the old list followed
    by one link between them of a weight from 1 to 8. *)
Theorem X15_onAddEdge_keeps_conventions (r : Q) (nodes : list Node) (edges : list Edge)
    (s t : string) :
  (0 <= r)%Q → (r < 1)%Q →
  s ∈ node_ids nodes → t ∈ node_ids nodes →
  endpoints_exist nodes edges → weights_nonneg edges → single_links edges →
  let edges' := onAddEdge r edges edges s t in
  endpoints_exist nodes edges' ∧ weights_nonneg edges' ∧ single_links edges'
  ∧ one_weight_per_link edges'
  ∧ ((∃ e, e ∈ edges ∧ joined e s t) → edges' = edges)
  ∧ ((¬ ∃ e, e ∈ edges ∧ joined e s t) →
     ∃ w, 1 ≤ w ≤ 8
          ∧ edges' = edges ++ [mkEdge (String.append s (String.append "-" t)) s t w
                                      ESDefault]).
Proof.
  intros H0 H1 Hs Ht Hends Hnn Hsingle edges'. subst edges'. unfold onAddEdge.
  pose proof (random_weight_bounds r H0 H1) as Hw.
  destruct (existsb _ edges) eqn:E.
  - apply linked_check in E.
    split; [done|]. split; [done|]. split; [done|].
    split; [by apply single_links_one_weight|]. split; [done|]. by intros [].
  - assert (¬ ∃ e, e ∈ edges ∧ joined e s t) as Hnone.
    { intros H. apply linked_check in H. congruence. }
    set (e := mkEdge _ s t _ ESDefault).
    assert (single_links (edges ++ [e])) as Hsingle'
      by by apply single_links_snoc.
    split.
    { intros e' He'. apply elem_of_app in He' as [He'|He']; [by apply Hends|].
      apply list_elem_of_singleton in He' as ->. done. }
    split.
    { intros e' He'. apply elem_of_app in He' as [He'|He']; [by apply Hnn|].
      apply list_elem_of_singleton in He' as ->. unfold e. cbn [e_weight]. lia. }
    split; [done|]. split; [by apply single_links_one_weight|].
    split; [by intros H|]. intros _. by eexists.
Qed.

Lemma X15_onAddEdge_witness :
  (0 <= 7 # 8)%Q ∧ (7 # 8 < 1)%Q
  ∧ "A" ∈ node_ids scenario_nodes ∧ "C" ∈ node_ids scenario_nodes
  ∧ endpoints_exist scenario_nodes scenario_edges ∧ weights_nonneg scenario_edges
  ∧ single_links scenario_edges
  ∧ one_weight_per_link (onAddEdge (7 # 8) scenario_edges scenario_edges "A" "C").
Proof.
  assert ("A" ∈ node_ids scenario_nodes) as H1 by (apply node_ids_check; reflexivity).
  assert ("C" ∈ node_ids scenario_nodes) as H2 by (apply node_ids_check; reflexivity).
  assert (endpoints_exist scenario_nodes scenario_edges) as H3
    by (apply endpoints_exist_check; reflexivity).
  assert (weights_nonneg scenario_edges) as H4 by (apply weights_nonneg_check; reflexivity).
  assert (0 <= 7 # 8)%Q as Hr0 by (unfold Qle; simpl; lia).
  assert (7 # 8 < 1)%Q as Hr1 by (unfold Qlt; simpl; lia).
  split; [exact Hr0|]. split; [exact Hr1|].
  split; [exact H1|]. split; [exact H2|]. split; [exact H3|]. split; [exact H4|].
  split; [exact scenario_single_links|].
  destruct (X15_onAddEdge_keeps_conventions (7 # 8) scenario_nodes scenario_edges "A" "C")
    as (_ & _ & _ & H & _); try done.
  exact scenario_single_links.
Defined.

End AddEdge.

(** ** The selection after a change of topology *)

Section TopologyChange.

Lemma found_id (newNodes : list Node) id :
  existsb (λ n, bool_decide (n_id n = id)) newNodes = true ↔ id ∈ node_ids newNodes.
Proof.
  rewrite existsb_exists, elem_of_node_ids, list_elem_of_fmap. split.
  - intros (n & Hn & Hid). apply bool_decide_eq_true in Hid. exists n.
    split; [done|]. by apply list_elem_of_In.
  - intros (n & -> & Hn). exists n. split; [by apply list_elem_of_In|].
    by apply bool_decide_eq_true.
Qed.

(** X16. After [onTopologyChange] with a node list that is not empty, the
    source and the destination of the page are ids of listed nodes: a
    selection that is still a listed node is kept, a source that is not
    becomes the first node, and a destination that is not becomes the last
    node (the first, when the id of the last is the empty string).  With
    an empty node list the selection is left as it was. *)
Theorem X16_onTopologyChange_selection (newNodes : list Node) (newEdges : list Edge)
    (s : EnhancedRouterSimulation.PageState) :
  let s' := EnhancedRouterSimulation.onTopologyChange newNodes newEdges s in
  EnhancedRouterSimulation.nodes s' = newNodes
  ∧ EnhancedRouterSimulation.edges s' = newEdges
  ∧ (newNodes ≠ [] →
     EnhancedRouterSimulation.sourceNode s' ∈ node_ids newNodes
     ∧ EnhancedRouterSimulation.destinationNode s' ∈ node_ids newNodes
     ∧ (EnhancedRouterSimulation.sourceNode s ∈ node_ids newNodes →
        EnhancedRouterSimulation.sourceNode s' = EnhancedRouterSimulation.sourceNode s)
     ∧ (EnhancedRouterSimulation.destinationNode s ∈ node_ids newNodes →
        EnhancedRouterSimulation.destinationNode s'
        = EnhancedRouterSimulation.destinationNode s))
  ∧ (newNodes = [] →
     EnhancedRouterSimulation.sourceNode s' = EnhancedRouterSimulation.sourceNode s
     ∧ EnhancedRouterSimulation.destinationNode s'
       = EnhancedRouterSimulation.destinationNode s).
Proof.
  intros s'. subst s'. unfold EnhancedRouterSimulation.onTopologyChange.
  destruct newNodes as [|first rest] eqn:E; [by split_and!|]. rewrite <- E.
  assert (n_id first ∈ node_ids newNodes) as Hfirst.
  { rewrite E. apply elem_of_node_ids. by left. }
  simpl. split; [done|]. split; [done|]. split; [|by rewrite E]. intros _.
  split_and!.
  - destruct (existsb _ newNodes) eqn:Ef; [by apply found_id|done].
  - destruct (existsb (λ n, bool_decide (n_id n = EnhancedRouterSimulation.destinationNode s))
                newNodes) eqn:Ef; [by apply found_id|].
    destruct (last newNodes) as [l|] eqn:El; [|done].
    destruct (decide (n_id l = "")); [done|].
    apply elem_of_node_ids, list_elem_of_fmap. exists l. split; [done|].
    by apply last_Some_elem_of.
  - intros H. apply found_id in H. by rewrite H.
  - intros H. apply found_id in H. by rewrite H.
Qed.

Lemma X16_onTopologyChange_witness :
  line_nodes ≠ []
  ∧ EnhancedRouterSimulation.destinationNode
      (EnhancedRouterSimulation.onTopologyChange line_nodes line_edges
         (EnhancedRouterSimulation.mkPage scenario_nodes scenario_edges "A" "E"))
    ∈ node_ids line_nodes.
Proof.
  assert (line_nodes ≠ []) as H by discriminate.
  split; [exact H|].
  destruct (X16_onTopologyChange_selection line_nodes line_edges
              (EnhancedRouterSimulation.mkPage scenario_nodes scenario_edges "A" "E"))
    as (_ & _ & H1 & _).
  exact (proj1 (proj2 (H1 H))).
Defined.

End TopologyChange.

(** ** The comparison panel *)

Section Comparison.
Import AlgorithmComparison.

(** What the loop of [runAllAlgorithms] leaves for two outcomes of the
    shortest-path engines. *)
Lemma runAll_unfold fuel nodes edges s d results :
  s ≠ d →
  runAllAlgorithms fuel nodes edges s d results
  = match DijkstraAlgorithm.execute fuel nodes edges s d with
    | OutOfFuel => OutOfFuel
    | od =>
      match BellmanFordAlgorithm.execute fuel nodes edges s d with
      | OutOfFuel => OutOfFuel
      | ob =>
        Returned
          (match ob with Returned rb => <["Bellman-Ford" := rb]> | _ => id end
             (match od with Returned rd => <["Dijkstra" := rd]> ∅ | _ => ∅ end))
      end
    end.
Proof.
  intros Hne. unfold runAllAlgorithms. rewrite decide_False by done.
  unfold algorithms. cbn [fold_left]. unfold run_step at 3. cbn [call name].
  destruct (DijkstraAlgorithm.execute fuel nodes edges s d) as [rd|e|];
    unfold run_step at 2; cbn [call name];
    destruct (BellmanFordAlgorithm.execute fuel nodes edges s d) as [rb|e'|];
    unfold run_step; cbn [call name]; done.
Qed.

(** X17. [runAllAlgorithms] absorbs the errors of the engines.  With equal
    source and destination it leaves the results as they were.  Otherwise,
    when it ends, the new results hold the result of Dijkstra exactly if
    Dijkstra returned one, the result of Bellman-Ford exactly if
    Bellman-Ford returned one (an engine that threw is left out, and the
    engines after it still run), and never a result of the policy
    selector, whose method is called on the entry of the array
    [algorithms] and fails at [this.findAllPaths]; what the results held
    before is dropped. *)
Theorem X17_runAllAlgorithms_results (fuel : nat) (nodes : list Node)
    (edges : list Edge) (s d : string) (results res : gmap string AlgorithmResult) :
  (s = d → runAllAlgorithms fuel nodes edges s d results = Returned results)
  ∧ (s ≠ d → runAllAlgorithms fuel nodes edges s d results = Returned res →
     (∀ r, res !! "Dijkstra" = Some r
           ↔ DijkstraAlgorithm.execute fuel nodes edges s d = Returned r)
     ∧ (∀ r, res !! "Bellman-Ford" = Some r
             ↔ BellmanFordAlgorithm.execute fuel nodes edges s d = Returned r)
     ∧ res !! "BGP" = None
     ∧ dom res ⊆ {["Dijkstra"; "Bellman-Ford"]}).
Proof.
  split.
  { intros ->. unfold runAllAlgorithms. by rewrite decide_True. }
  intros Hne. rewrite runAll_unfold by done.
  destruct (DijkstraAlgorithm.execute fuel nodes edges s d) as [rd|e|];
    destruct (BellmanFordAlgorithm.execute fuel nodes edges s d) as [rb|e'|];
    try done; intros [= <-]; simpl.
  all: split_and!;
    [intros r; rewrite ?lookup_insert_ne, ?lookup_insert_eq, ?lookup_empty by done;
     split; congruence
    |intros r; rewrite ?lookup_insert_eq, ?lookup_insert_ne, ?lookup_empty by done;
     split; congruence
    |by rewrite ?lookup_insert_ne, ?lookup_empty by done
    |rewrite ?dom_insert_L, ?dom_empty_L; set_solver].
Qed.

Lemma pair_bellman_ford :
  BellmanFordAlgorithm.execute 2 pair_nodes [pair_edge] "A" "B"
  = Thrown BellmanFordAlgorithm.negative_cycle_error.
Proof. vm_compute. reflexivity. Qed.

Lemma pair_dijkstra :
  observe "B" (DijkstraAlgorithm.execute 2 pair_nodes [pair_edge] "A" "B")
  = Some (Some (Fin (-1)), [JStr "A"; JStr "B"]).
Proof. vm_compute. reflexivity. Qed.

Lemma X17_runAllAlgorithms_witness :
  "A" ≠ "B"
  ∧ ∃ res, runAllAlgorithms 2 pair_nodes [pair_edge] "A" "B" ∅ = Returned res
           ∧ res !! "Bellman-Ford" = None ∧ is_Some (res !! "Dijkstra")
           ∧ res !! "BGP" = None.
Proof.
  assert ("A" ≠ "B") as Hne by discriminate.
  split; [exact Hne|].
  pose proof pair_bellman_ford as Hb. pose proof pair_dijkstra as Hd.
  destruct (observe_returned _ _ _ Hd) as [rd Hrd].
  assert (runAllAlgorithms 2 pair_nodes [pair_edge] "A" "B" ∅
          = Returned (<["Dijkstra" := rd]> ∅)) as Hrun.
  { rewrite runAll_unfold by done. by rewrite Hrd, Hb. }
  exists (<["Dijkstra" := rd]> ∅). split; [exact Hrun|].
  destruct (proj2 (X17_runAllAlgorithms_results 2 pair_nodes [pair_edge] "A" "B" ∅
                     (<["Dijkstra" := rd]> ∅)) Hne Hrun) as (H1 & H2 & H3 & _).
  split.
  - destruct (<["Dijkstra" := rd]> (∅ : gmap string AlgorithmResult) !! "Bellman-Ford")
      as [r|] eqn:E; [|done].
    pose proof (proj1 (H2 r) eq_refl) as E'. congruence.
  - split; [|exact H3]. exists rd. by apply H1.
Defined.

End Comparison.

Section ClearedTopology.
Import AlgorithmComparison.

Lemma empty_topology_diverges fuel s d :
  DijkstraAlgorithm.execute fuel [] [] s d = OutOfFuel
  ∧ BellmanFordAlgorithm.execute fuel [] [] s d = OutOfFuel.
Proof.
  assert (∀ iters, reconstruct fuel [] (mkSt ∅ ∅) s d iters = OutOfFuel) as H.
  { intros iters. unfold reconstruct. by rewrite walk_unknown_destination. }
  split; [exact (H O)|exact (H O)].
Qed.

(** X18. Clearing the canvas of the builder hands the page an empty node
    list, which leaves its source and its destination as they were; a
    comparison run for them, or a single run of Dijkstra or of
    Bellman-Ford, then never completes: no node being listed,
    [previous[destination]] is [undefined] and the predecessor walk of the
    engine does not end (the model runs out of fuel, whatever the fuel). *)
Theorem X18_cleared_topology_never_completes (fuel : nat)
    (s : EnhancedRouterSimulation.PageState) (results : gmap string AlgorithmResult) :
  EnhancedRouterSimulation.sourceNode s ≠ EnhancedRouterSimulation.destinationNode s →
  let s' := EnhancedRouterSimulation.onTopologyChange [] [] s in
  runAllAlgorithms fuel (EnhancedRouterSimulation.nodes s')
    (EnhancedRouterSimulation.edges s') (EnhancedRouterSimulation.sourceNode s')
    (EnhancedRouterSimulation.destinationNode s') results = OutOfFuel
  ∧ runSingleAlgorithm fuel "Dijkstra" (EnhancedRouterSimulation.nodes s')
      (EnhancedRouterSimulation.edges s') (EnhancedRouterSimulation.sourceNode s')
      (EnhancedRouterSimulation.destinationNode s') results = OutOfFuel
  ∧ runSingleAlgorithm fuel "Bellman-Ford" (EnhancedRouterSimulation.nodes s')
      (EnhancedRouterSimulation.edges s') (EnhancedRouterSimulation.sourceNode s')
      (EnhancedRouterSimulation.destinationNode s') results = OutOfFuel.
Proof.
  intros Hne s'. subst s'. simpl.
  destruct (empty_topology_diverges fuel (EnhancedRouterSimulation.sourceNode s)
              (EnhancedRouterSimulation.destinationNode s)) as [HD HB].
  split; [|split].
  - rewrite runAll_unfold by done. by rewrite HD.
  - unfold runSingleAlgorithm. rewrite decide_False by done.
    cbn [find algorithms name]. rewrite bool_decide_eq_true_2 by done.
    cbn [call]. by rewrite HD.
  - unfold runSingleAlgorithm. rewrite decide_False by done.
    cbn [find algorithms name]. rewrite bool_decide_eq_false_2 by done.
    rewrite bool_decide_eq_true_2 by done. cbn [call]. by rewrite HB.
Qed.

Lemma X18_cleared_topology_witness :
  "A" ≠ "E"
  ∧ runAllAlgorithms 1000 [] [] "A" "E" ∅ = OutOfFuel.
Proof.
  assert ("A" ≠ "E") as Hne by discriminate.
  split; [exact Hne|].
  exact (proj1 (X18_cleared_topology_never_completes 1000
                  (EnhancedRouterSimulation.mkPage scenario_nodes scenario_edges "A" "E")
                  ∅ Hne)).
Defined.

End ClearedTopology.

(** ** Checking a topology *)

Section Validation.
Import TopologyManager.

Lemma filter_nil_iff {A} (P : A → Prop) `{∀ x, Decision (P x)} (l : list A) :
  filter P l = [] ↔ ∀ x, x ∈ l → ¬ P x.
Proof.
  split.
  - intros Hnil x Hx HP. by apply (filter_nil_not_elem_of P l x).
  - intros Hall. induction l as [|y l IH]; [done|].
    rewrite filter_cons, decide_False by (apply Hall; by left).
    apply IH. intros x Hx. apply Hall. by right.
Qed.

Lemma flat_map_nil_iff {A B} (f : A → list B) (l : list A) :
  flat_map f l = [] ↔ ∀ x, x ∈ l → f x = [].
Proof.
  induction l as [|y l IH]; simpl.
  - split; [by intros _ x ?%elem_of_nil|done].
  - split.
    + intros [Hy Hl]%app_eq_nil x [->|Hx]%elem_of_cons; [done|by apply IH].
    + intros Hall. rewrite (Hall y) by by left. apply IH.
      intros x Hx. apply Hall. by right.
Qed.

(** No node repeats an id exactly when [duplicateNodes] is empty. *)
Lemma duplicateNodes_nil nodes : duplicateNodes nodes = [] ↔ NoDup (map n_id nodes).
Proof.
  unfold duplicateNodes.
  assert (∀ l : list (nat * Node), map snd l = [] ↔ l = []) as Hmap
    by (intros l; split; [apply map_eq_nil|by intros ->]).
  rewrite Hmap, filter_nil_iff, NoDup_alt. split.
  - intros Hfirst i j x Hi Hj.
    apply list_lookup_fmap_Some in Hi as (n & -> & Hi).
    apply list_lookup_fmap_Some in Hj as (m & Hid & Hj).
    assert (∀ k n', nodes !! k = Some n' → findIndex (n_id n') nodes = Some k) as Hk.
    { intros k n' Hn'.
      destruct (decide (findIndex (n_id n') nodes = Some k)) as [|Hne]; [done|].
      exfalso. apply (Hfirst (k, n')); [|done].
      apply elem_of_lookup_imap. by exists k, n'. }
    pose proof (Hk i n Hi) as H1. pose proof (Hk j m Hj) as H2.
    rewrite <- Hid in H2. congruence.
  - intros Hnd [k n] Hin Hne. apply Hne. simpl.
    apply elem_of_lookup_imap in Hin as (k' & n' & [= <- <-] & Hk).
    unfold findIndex.
    destruct (list_find (λ m, n_id m = n_id n) nodes) as [[i m]|] eqn:Ef.
    + apply list_find_Some in Ef as (Hi & Hid & _). simpl. f_equal.
      apply (Hnd i k (n_id n)); rewrite list_lookup_fmap; [by rewrite Hi, <- Hid|by rewrite Hk].
    + exfalso. apply list_find_None in Ef. rewrite Forall_forall in Ef.
      apply (Ef n); [by apply list_elem_of_lookup_2 in Hk|done].
Qed.

Lemma edge_errors_nil ids e :
  edge_errors ids e = [] ↔ e_source e ∈ ids ∧ e_target e ∈ ids ∧ 0 < e_weight e.
Proof.
  unfold edge_errors.
  destruct (decide (e_source e ∈ ids)), (decide (e_target e ∈ ids)),
           (decide (e_weight e ≤ 0)); simpl;
    (split; [intros H; try done; split_and!; (done || lia)
            |intros (? & ? & ?); try done; lia]).
Qed.

Lemma validateTopology_nil nodes edges :
  validateTopology nodes edges = []
  ↔ NoDup (map n_id nodes)
    ∧ endpoints_exist nodes edges
    ∧ (∀ e, e ∈ edges → 0 < e_weight e)
    ∧ (∀ n, n ∈ nodes → ∃ e, e ∈ edges ∧ (e_source e = n_id n ∨ e_target e = n_id n)).
Proof.
  unfold validateTopology. fold (node_ids nodes).
  set (connected := list_to_set (flat_map (λ edge, [e_source edge; e_target edge]) edges)
                    : gset string).
  assert (∀ x, x ∈ connected ↔ ∃ e, e ∈ edges ∧ (e_source e = x ∨ e_target e = x)) as Hconn.
  { intros x. unfold connected. rewrite elem_of_list_to_set, list_elem_of_In, in_flat_map.
    split.
    - intros (e & He & Hx). exists e. split; [by apply list_elem_of_In|].
      simpl in Hx. destruct Hx as [<-|[<-|[]]]; tauto.
    - intros (e & He & Hx). exists e. split; [by apply list_elem_of_In|].
      simpl. tauto. }
  assert (filter (λ node, n_id node ∉ connected) nodes = []
          ↔ ∀ n, n ∈ nodes → ∃ e, e ∈ edges ∧ (e_source e = n_id n ∨ e_target e = n_id n))
    as Hiso.
  { rewrite filter_nil_iff. split.
    - intros H n Hn. apply Hconn. specialize (H n Hn).
      by destruct (decide (n_id n ∈ connected)).
    - intros H n Hn Hout. apply Hout, Hconn. by apply H. }
  assert (flat_map (edge_errors (node_ids nodes)) edges = []
          ↔ endpoints_exist nodes edges ∧ ∀ e, e ∈ edges → 0 < e_weight e) as Hedges.
  { rewrite flat_map_nil_iff. split.
    - intros H. split; intros e He; specialize (H e He); apply edge_errors_nil in H; tauto.
    - intros [H1 H2] e He. apply edge_errors_nil. destruct (H1 e He). split_and!; auto. }
  rewrite <- duplicateNodes_nil, <- Hiso.
  destruct (filter (λ node, n_id node ∉ connected) nodes) as [|x0 l0].
  - destruct (duplicateNodes nodes) as [|y0 m0]; simpl.
    + rewrite Hedges. tauto.
    + split; [done|]. by intros [? _].
  - split; [|by intros (_ & _ & _ & ?)].
    intros H. apply app_eq_nil in H as [_ H]. done.
Qed.

(** X19. [validateTopology] reports no error exactly when no two nodes
    have the same id, every link joins listed nodes, every weight is
    positive and every node is an end of some link. *)
Theorem X19_validateTopology_accepts (nodes : list Node) (edges : list Edge) :
  validateTopology nodes edges = []
  ↔ NoDup (map n_id nodes)
    ∧ endpoints_exist nodes edges
    ∧ (∀ e, e ∈ edges → 0 < e_weight e)
    ∧ (∀ n, n ∈ nodes → ∃ e, e ∈ edges ∧ (e_source e = n_id n ∨ e_target e = n_id n)).
Proof. apply validateTopology_nil. Qed.

End Validation.

Section ValidatedRuns.
Import TopologyManager.

(** When the links join listed nodes and have non-negative weights, both
    shortest-path engines answer a query for a listed destination. *)
Lemma engines_return nodes edges source dest :
  endpoints_exist nodes edges → weights_nonneg edges → dest ∈ node_ids nodes →
  ∃ F, ∀ fuel, (F ≤ fuel)%nat →
    ∃ rd rb,
      DijkstraAlgorithm.execute fuel nodes edges source dest = Returned rd
      ∧ BellmanFordAlgorithm.execute fuel nodes edges source dest = Returned rb.
Proof.
  intros Hends Hnn Hdest.
  destruct (build_graph_total nodes edges Hends) as [g Hg].
  set (s0 := DijkstraAlgorithm.mkD (init_state nodes source) ∅
               (DijkstraAlgorithm.new_set (map n_id nodes)) 0).
  set (sd := DijkstraAlgorithm.loop (length (DijkstraAlgorithm.new_set (map n_id nodes)))
               g dest s0).
  pose proof (dijkstra_inv_nonneg nodes edges source dest g
                (length (DijkstraAlgorithm.new_set (map n_id nodes))) s0 Hg Hnn eq_refl)
    as Hinvd. fold sd in Hinvd.
  destruct (reconstruct_total (node_ids nodes) (DijkstraAlgorithm.d_st sd)
              (inv_keys _ _ _ _ (inv_any _ _ _ _ Hinvd))
              (inv_pred _ _ _ _ (inv_any _ _ _ _ Hinvd)) (inv_ranked _ _ _ _ Hinvd)
              nodes source dest (DijkstraAlgorithm.d_iters sd) (node_in_ids nodes) Hdest)
    as [Fd HFd].
  pose proof (bf_converges nodes edges source Hnn) as Hclean.
  destruct (passes_spec (length nodes - 1) edges (init_state nodes source) 0)
    as (k & _ & Hrun & _).
  rewrite Hrun in Hclean. simpl in Hclean.
  set (sb := k_passes k edges (init_state nodes source)) in *.
  pose proof (bf_inv_nonneg nodes edges source k Hnn) as Hinvb. fold sb in Hinvb.
  destruct (reconstruct_total (node_ids nodes) sb
              (inv_keys _ _ _ _ (inv_any _ _ _ _ Hinvb))
              (inv_pred _ _ _ _ (inv_any _ _ _ _ Hinvb)) (inv_ranked _ _ _ _ Hinvb)
              nodes source dest (0 + k)%nat (node_in_ids nodes) Hdest)
    as [Fb HFb].
  exists (Fd `max` Fb)%nat. intros fuel Hfuel.
  destruct (HFd fuel) as [rd Hrd]; [lia|]. destruct (HFb fuel) as [rb Hrb]; [lia|].
  exists rd, rb.
  split; [unfold DijkstraAlgorithm.execute; by rewrite Hg|].
  unfold BellmanFordAlgorithm.execute. rewrite Hrun. fold sb. by rewrite Hclean.
Qed.

Lemma sample_valid : validateTopology sample_nodes sample_edges = [].
Proof. vm_compute. reflexivity. Qed.



End ValidatedRuns.

(** ** The routing tables: which nodes have a row *)

Section TableRows.



End TableRows.

Section PolicyTable.
Import BGPPathSelection.

(** The next hop of a row is the second node of the path of the row. *)
Lemma row_step_next edges rng source allPaths acc n :
  Forall (λ row, ∀ h, path row !! 1%nat = Some h → nextHop row = h) acc.1 →
  Forall (λ row, ∀ h, path row !! 1%nat = Some h → nextHop row = h)
         (row_step edges rng source allPaths acc n).1.
Proof.
  intros Hacc. unfold row_step. destruct acc as [table k]. simpl in Hacc.
  destruct (decide (n_id n = source)); [done|].
  destruct (filter _ allPaths) as [|p0 r0]; [done|].
  destruct (assign edges rng k (p0 :: r0)) as [cands k'].
  destruct (selectBestPath cands) as [best|]; [|done]. simpl.
  apply Forall_app. split; [done|]. constructor; [|constructor]. simpl.
  intros h Hh. destruct (bp_path best) as [|a [|b r]]; simpl in Hh; try done.
  by injection Hh as <-.
Qed.

Lemma row_fold_next edges rng source allPaths nodes acc :
  Forall (λ row, ∀ h, path row !! 1%nat = Some h → nextHop row = h) acc.1 →
  Forall (λ row, ∀ h, path row !! 1%nat = Some h → nextHop row = h)
         (fold_left (row_step edges rng source allPaths) nodes acc).1.
Proof.
  revert acc. induction nodes as [|n ns IH]; intros acc Hacc; [done|].
  cbn [fold_left]. apply IH. by apply row_step_next.
Qed.

Lemma bgp_table_next rng nodes edges source dest row h :
  row ∈ routingTable (execute rng nodes edges source dest) →
  path row !! 1%nat = Some h → nextHop row = h.
Proof.
  unfold execute.
  destruct (findAllPaths nodes edges source dest) as [|p0 r0] eqn:E.
  { simpl. intros Hrow. by apply elem_of_nil in Hrow. }
  destruct (assign edges rng 0 (p0 :: r0)) as [bgpPaths k].
  pose proof (row_fold_next edges rng source (p0 :: r0) nodes ([], k)) as Hall.
  destruct (fold_left _ nodes ([], k)) as [table k'] eqn:Ef. simpl in *.
  intros Hrow. specialize (Hall (Forall_nil_2 _)).
  rewrite Forall_forall in Hall. by apply Hall.
Qed.

(** The nodes that get a row are the places of the queried destination. *)
Lemma has_row_dest nodes edges source dest n :
  has_row source (findAllPaths nodes edges source dest) n
  = bool_decide (source ≠ dest ∧ findAllPaths nodes edges source dest ≠ []
                 ∧ n_id n = dest).
Proof.
  unfold has_row. apply bool_decide_ext. split.
  - intros [Hs Hne].
    destruct (filter _ (findAllPaths nodes edges source dest)) as [|p r] eqn:E; [done|].
    assert (p ∈ filter (λ p, last p = Some (n_id n))
                       (findAllPaths nodes edges source dest)) as Hp
      by (rewrite E; left).
    apply list_elem_of_filter in Hp as [Hlast Hp].
    pose proof (findAllPaths_last _ _ _ _ _ Hp) as Hl.
    assert (n_id n = dest) as Hd by congruence.
    split; [congruence|]. split; [|done]. intros Hnil. rewrite Hnil in Hp.
    by apply elem_of_nil in Hp.
  - intros (Hs & Hne & Hd). split; [congruence|].
    destruct (findAllPaths nodes edges source dest) as [|p r] eqn:E; [done|].
    assert (p ∈ findAllPaths nodes edges source dest) as Hp by (rewrite E; left).
    pose proof (findAllPaths_last _ _ _ _ _ Hp) as Hl.
    rewrite filter_cons, decide_True by congruence. done.
Qed.

Lemma filter_dest_rows nodes edges source dest :
  map n_id (List.filter (has_row source (findAllPaths nodes edges source dest)) nodes)
  = if decide (source ≠ dest ∧ findAllPaths nodes edges source dest ≠ [])
    then filter (λ x, x = dest) (map n_id nodes) else [].
Proof.
  induction nodes as [|n ns IH].
  { simpl. by destruct (decide _). }
  assert (findAllPaths (n :: ns) edges source dest = findAllPaths ns edges source dest)
    as Hsame by done.
  cbn [List.filter map]. rewrite filter_cons.
  rewrite has_row_dest. rewrite Hsame in *.
  destruct (decide (source ≠ dest ∧ findAllPaths ns edges source dest ≠ [])) as [[H1 H2]|Hno].
  - destruct (decide (n_id n = dest)) as [Hd|Hd].
    + rewrite bool_decide_eq_true_2 by done. simpl. f_equal. exact IH.
    + rewrite bool_decide_eq_false_2 by tauto. exact IH.
  - rewrite bool_decide_eq_false_2 by tauto. exact IH.
Qed.

(** X22. The routing table of the policy selector holds rows for the queried
    destination only: one row for each place of the destination in the
    node list when it differs from the source and some path was
    enumerated, and no row otherwise.  The path of a row is one of the
    enumerated paths, so a loop-free route from the source to the
    destination; its cost is the link-weight sum of that path, its hop
    count the number of links, and its next hop the second node of the
    path. *)
Theorem X22_bgp_table_rows (rng : nat → Q) (nodes : list Node) (edges : list Edge)
    (source dest : string) :
  let allPaths := findAllPaths nodes edges source dest in
  let table := routingTable (execute rng nodes edges source dest) in
  map destination table
  = (if decide (source ≠ dest ∧ allPaths ≠ [])
     then filter (λ x, x = dest) (map n_id nodes) else [])
  ∧ ∀ row, row ∈ table →
      ∃ h rest,
        source :: h :: rest ∈ allPaths
        ∧ simple_route edges source dest (source :: h :: rest)
        ∧ path row = map JStr (source :: h :: rest)
        ∧ cost row = Fin (calculatePathWeight (source :: h :: rest) edges)
        ∧ hops row = Z.of_nat (length (h :: rest))
        ∧ nextHop row = JStr h.
Proof.
  intros allPaths table. subst allPaths table.
  pose proof (bgp_table_spec rng nodes edges source dest) as Hspec.
  cbv zeta in Hspec. destruct Hspec as [Hdest Hall]. split.
  { rewrite Hdest. apply filter_dest_rows. }
  intros row Hrow.
  assert (source ≠ dest) as Hsd.
  { intros ->.
    assert (destination row
            ∈ map destination (routingTable (execute rng nodes edges dest dest))) as Hin
      by (apply list_elem_of_fmap; by exists row).
    rewrite Hdest, filter_dest_rows in Hin. rewrite decide_False in Hin by tauto.
    by apply elem_of_nil in Hin. }
  rewrite Forall_forall in Hall.
  destruct (Hall row Hrow) as (p & Hp & Hlast & Hpath & Hcost & Hhops).
  pose proof (proj1 (findAllPaths_spec _ _ _ _ _) Hp) as [Hroute _].
  pose proof Hroute as (Hhead & Hl & _).
  destruct p as [|a [|h rest]]; [done| |].
  { simpl in Hhead, Hl. congruence. }
  simpl in Hhead. injection Hhead as ->.
  exists h, rest. split; [done|]. split; [done|]. split; [done|]. split; [done|].
  split; [rewrite Hhops; simpl length; lia|].
  apply (bgp_table_next rng nodes edges source dest); [done|]. by rewrite Hpath.
Qed.

End PolicyTable.

(** ** The graph view: what clicking and dragging can do to the topology *)

Section GraphView.
Import NetworkGraph.

Lemma onNodeDrag_ids nodeId x y prev :
  map n_id (onNodeDrag nodeId x y prev) = map n_id prev.
Proof.
  unfold onNodeDrag. rewrite map_map. apply map_ext. intros n.
  by destruct (decide _).
Qed.

Lemma same_ids_node_ids nodes nodes' :
  map n_id nodes' = map n_id nodes → node_ids nodes' = node_ids nodes.
Proof. unfold node_ids. by intros ->. Qed.

Lemma well_formed_ids nodes nodes' edges :
  map n_id nodes' = map n_id nodes → well_formed nodes edges → well_formed nodes' edges.
Proof.
  intros Hids (H1 & H2 & H3 & H4). unfold well_formed. split; [|done].
  intros e He. rewrite (same_ids_node_ids _ _ Hids). by apply H1.
Qed.

Lemma find_listed nodes nodeId node :
  find (λ n, bool_decide (n_id n = nodeId)) nodes = Some node →
  nodeId ∈ node_ids nodes.
Proof.
  intros H. apply find_some in H as [Hin Hb]. apply bool_decide_eq_true in Hb as <-.
  apply node_in_ids. by apply list_elem_of_In.
Qed.

(** A new link between two different listed nodes. *)
Lemma onAddEdge_well_formed r nodes edges s t :
  (0 <= r)%Q → (r < 1)%Q → s ∈ node_ids nodes → t ∈ node_ids nodes → s ≠ t →
  well_formed nodes edges →
  well_formed nodes (RouterSimulation.onAddEdge r edges edges s t)
  ∧ ∃ added, RouterSimulation.onAddEdge r edges edges s t = edges ++ added
             ∧ Forall (λ e, 1 ≤ e_weight e ≤ 8) added.
Proof.
  intros H0 H1 Hs Ht Hst (Hends & Hnn & Hsingle & Hloop).
  unfold RouterSimulation.onAddEdge.
  pose proof (random_weight_bounds r H0 H1) as Hw.
  destruct (existsb _ edges) eqn:E.
  { split; [done|]. exists []. by rewrite app_nil_r. }
  assert (¬ ∃ e, e ∈ edges ∧ joined e s t) as Hnone.
  { intros H. apply linked_check in H. congruence. }
  set (e := mkEdge _ s t _ ESDefault).
  split; [|exists [e]; split; [done|by constructor]].
  unfold well_formed. split; [|split; [|split]].
  - intros e' He'. apply elem_of_app in He' as [He'|He']; [by apply Hends|].
    apply list_elem_of_singleton in He' as ->. done.
  - intros e' He'. apply elem_of_app in He' as [He'|He']; [by apply Hnn|].
    apply list_elem_of_singleton in He' as ->. unfold e. cbn [e_weight]. lia.
  - by apply single_links_snoc.
  - intros e' He'. apply elem_of_app in He' as [He'|He']; [by apply Hloop|].
    apply list_elem_of_singleton in He' as ->. done.
Qed.

(** What one event keeps. *)
Lemma step_keeps s ev :
  (∀ r nodeId e, ev = MouseDown r nodeId e → (0 <= r)%Q ∧ (r < 1)%Q) →
  well_formed (v_nodes s) (v_edges s) →
  (∀ c, connecting s = Some c → c ∈ node_ids (v_nodes s)) →
  map n_id (v_nodes (step s ev)) = map n_id (v_nodes s)
  ∧ well_formed (v_nodes (step s ev)) (v_edges (step s ev))
  ∧ (∀ c, connecting (step s ev) = Some c → c ∈ node_ids (v_nodes (step s ev)))
  ∧ ∃ added, v_edges (step s ev) = v_edges s ++ added
             ∧ Forall (λ e, 1 ≤ e_weight e ≤ 8) added.
Proof.
  intros Hr Hwf Hc.
  assert (∃ added, v_edges s = v_edges s ++ added
                   ∧ Forall (λ e, 1 ≤ e_weight e ≤ 8) added) as Hsame
    by (exists []; by rewrite app_nil_r).
  destruct ev as [r nodeId e|e rect|]; simpl.
  - unfold handleMouseDown.
    destruct (find _ (v_nodes s)) as [node|] eqn:Ef; [|done].
    apply find_listed in Ef.
    destruct (shiftKey e); [|done].
    destruct (connecting s) as [c|] eqn:Ec; simpl.
    + destruct (decide (c = "")); simpl.
      { split; [done|]. split; [done|]. split; [|done]. by intros ? [= <-]. }
      destruct (decide (c ≠ nodeId)) as [Hne|_]; simpl.
      * destruct (Hr r nodeId e eq_refl) as [H0 H1].
        destruct (onAddEdge_well_formed r (v_nodes s) (v_edges s) c nodeId
                    H0 H1 (Hc c eq_refl) Ef Hne Hwf) as [Hwf' Hadd].
        split; [done|]. split; [done|]. split; [done|]. done.
      * split; [done|]. split; [done|]. split; [done|]. done.
    + split; [done|]. split; [done|]. split; [|done]. by intros ? [= <-].
  - unfold handleMouseMove. destruct (dragging s) as [d|]; [|done].
    destruct (decide (d = "")); [done|]. simpl.
    pose proof (onNodeDrag_ids d
      (30 `max` ((clientX e - r_left rect - (dragOffset s).1) `min` (r_width rect - 30)))
      (30 `max` ((clientY e - r_top rect - (dragOffset s).2) `min` (r_height rect - 30)))
      (v_nodes s)) as Hids.
    split; [done|]. split; [by apply (well_formed_ids (v_nodes s))|].
    split; [|done]. intros c Hcs. rewrite (same_ids_node_ids _ _ Hids). by apply Hc.
  - done.
Qed.

(** X23. Whatever the user does on the graph view, pressing the button on
    nodes with or without the shift key, moving the pointer and releasing,
    a well-formed topology stays well-formed: the nodes keep their ids,
    in their order; the links present stay, and the links added each
    carry a weight from 1 to 8; every link joins listed nodes, no weight
    is negative, no two links join the same two nodes and no link joins a
    node to itself. *)
Theorem X23_graph_view_keeps_topology (evs : list event) (s : ViewState) :
  draws_ok evs →
  well_formed (v_nodes s) (v_edges s) →
  (∀ c, connecting s = Some c → c ∈ node_ids (v_nodes s)) →
  map n_id (v_nodes (run s evs)) = map n_id (v_nodes s)
  ∧ well_formed (v_nodes (run s evs)) (v_edges (run s evs))
  ∧ ∃ added, v_edges (run s evs) = v_edges s ++ added
             ∧ Forall (λ e, 1 ≤ e_weight e ≤ 8) added.
Proof.
  revert s. induction evs as [|ev evs IH]; intros s Hr Hwf Hc.
  { simpl. split; [done|]. split; [done|]. exists []. by rewrite app_nil_r. }
  destruct (step_keeps s ev) as (Hids & Hwf' & Hc' & added & Hadd & Hall); try done.
  { intros r nodeId e ->. apply (Hr r nodeId e). left. }
  destruct (IH (step s ev)) as (Hids2 & Hwf2 & added2 & Hadd2 & Hall2); try done.
  { intros r nodeId e Hin. apply (Hr r nodeId e). by right. }
  unfold run in *. cbn [fold_left].
  split; [by rewrite Hids2|]. split; [done|].
  exists (added ++ added2). rewrite Hadd2, Hadd, <- app_assoc. split; [done|].
  by apply Forall_app.
Qed.

Lemma X23_graph_view_witness :
  let s0 := mkView scenario_nodes scenario_edges None (0, 0) None in
  draws_ok some_clicks
  ∧ well_formed scenario_nodes scenario_edges
  ∧ well_formed (v_nodes (run s0 some_clicks)) (v_edges (run s0 some_clicks))
  ∧ map e_id (v_edges (run s0 some_clicks)) = map e_id scenario_edges ++ ["A-C"].
Proof.
  intros s0.
  assert (draws_ok some_clicks) as Hdraws.
  { intros r nodeId e H. unfold some_clicks in H.
    repeat (apply elem_of_cons in H as [H|H];
            [first [discriminate H
                   |injection H as -> _ _; split; [unfold Qle|unfold Qlt]; simpl; lia]|]).
    by apply elem_of_nil in H. }
  assert (well_formed scenario_nodes scenario_edges) as Hwf.
  { split; [apply endpoints_exist_check; reflexivity|].
    split; [apply weights_nonneg_check; reflexivity|].
    split; [exact scenario_single_links|].
    intros e He. unfold scenario_edges in He.
    repeat (apply elem_of_cons in He as [->|He]; [done|]).
    by apply elem_of_nil in He. }
  split; [exact Hdraws|]. split; [exact Hwf|].
  split; [|vm_compute; reflexivity].
  apply (X23_graph_view_keeps_topology some_clicks s0 Hdraws Hwf). done.
Defined.

End GraphView.

(** ** The summary of a comparison run *)

Section Summary.
Import AlgorithmComparison.

(** The two facts about the destination that the summary rests on. *)
Lemma bf_result_dest fuel nodes edges source dest r :
  dest ∈ node_ids nodes →
  BellmanFordAlgorithm.execute fuel nodes edges source dest = Returned r →
  is_Some (distances r !! dest)
  ∧ (res_path r ≠ [] ↔ ∃ a, distances r !! dest = Some (Fin a))
  ∧ (∀ a, distances r !! dest = Some (Fin a)
          ↔ shortest (node_ids nodes) (edge_arc nodes edges) source dest a)
  ∧ (distances r !! dest = Some Inf
     ↔ ¬ reachable (node_ids nodes) (edge_arc nodes edges) source dest).
Proof.
  intros Hdest Hr.
  destruct (bf_returned_exact fuel nodes edges source dest r dest Hr Hdest) as [H2 H3].
  apply bf_returned in Hr as (k & _ & Hclean & Hr).
  split.
  { apply reconstruct_returned in Hr as (-> & _).
    apply (keys_ok_dist (node_ids nodes) _ dest (k_passes_keys nodes edges source k) Hdest). }
  split; [|done].
  destruct (bf_final_state nodes edges source k Hclean) as (Hsrc & _ & Hlink).
  apply (reconstruct_routes (node_ids nodes) (edge_arc nodes edges) source _ _ _ _ _ _
           (bf_inv nodes edges source k) Hlink (bf_root_ok nodes edges source k)
           Hsrc Hdest Hr).
Qed.

Lemma dijkstra_result_dest fuel nodes edges source dest r :
  weights_nonneg edges → one_weight_per_link edges → dest ∈ node_ids nodes →
  DijkstraAlgorithm.execute fuel nodes edges source dest = Returned r →
  is_Some (distances r !! dest)
  ∧ (res_path r ≠ [] ↔ ∃ a, distances r !! dest = Some (Fin a))
  ∧ (∀ a, distances r !! dest = Some (Fin a)
          ↔ shortest (node_ids nodes) (edge_arc nodes edges) source dest a)
  ∧ (distances r !! dest = Some Inf
     ↔ ¬ reachable (node_ids nodes) (edge_arc nodes edges) source dest).
Proof.
  intros Hnn Hone Hdest. unfold DijkstraAlgorithm.execute.
  destruct (DijkstraAlgorithm.build_graph nodes edges) as [g|] eqn:Hg; [|done].
  intros Hr.
  set (s0 := DijkstraAlgorithm.mkD (init_state nodes source) ∅
               (DijkstraAlgorithm.new_set (map n_id nodes)) 0) in *.
  pose proof (dijkstra_inv_nonneg nodes edges source dest g
                (length (DijkstraAlgorithm.new_set (map n_id nodes))) s0 Hg Hnn eq_refl)
    as Hinv.
  pose proof (dijkstra_linked nodes edges source dest g Hg Hnn) as Hlink.
  pose proof (dijkstra_root_ok nodes source g dest
                (length (DijkstraAlgorithm.new_set (map n_id nodes))) s0 eq_refl) as Hroot.
  destruct (reconstruct_routes (node_ids nodes) (graph_arc g) source _ _ _ _ _ _
              (inv_any _ _ _ _ Hinv) Hlink Hroot (inv_source _ _ _ _ Hinv) Hdest Hr)
    as (H1 & _ & _).
  pose proof (build_graph_arcs nodes edges g Hg Hone) as Harcs.
  destruct (dijkstra_dest nodes edges source dest g Hg Hnn Hdest) as [Hfin Hinf].
  fold s0 in Hfin, Hinf.
  apply reconstruct_returned in Hr as (Hd & _).
  split.
  { rewrite Hd.
    apply (keys_ok_dist (node_ids nodes) _ dest
             (inv_keys _ _ _ _ (inv_any _ _ _ _ Hinv)) Hdest). }
  split; [done|]. rewrite Hd.
  split.
  - intros a. rewrite Hfin. by apply shortest_ext.
  - rewrite Hinf. by rewrite (reachable_ext _ _ _ _ _ Harcs).
Qed.

(** What the summary shows for a result whose path is empty exactly when
    the distance of the destination is not finite. *)
Lemma summary_of_result results d name r sm :
  results !! name = Some r →
  (res_path r ≠ [] ↔ ∃ a, distances r !! d = Some (Fin a)) →
  is_Some (distances r !! d) →
  getResultSummary results d name = Some sm →
  sm_totalCost sm = distances r !! d
  ∧ (sm_pathLength sm = 0%nat ↔ distances r !! d = Some Inf).
Proof.
  intros Hres Hpath [v Hv]. unfold getResultSummary. rewrite Hres. intros [= <-]. simpl.
  destruct (res_path r) as [|x p] eqn:Ep; simpl.
  - destruct v as [a|]; [|by rewrite Hv].
    exfalso. by apply (proj2 Hpath); [exists a|].
  - destruct (proj1 Hpath) as [a Ha]; [done|]. rewrite Ha. split; [done|]. split; done.
Qed.



End Summary.

(** ** What the graph shows after a result is visualised *)

Section Visualisation.

Lemma isPathEdge_on_path path edge : isPathEdge path edge = true ↔ on_path path edge.
Proof.
  induction path as [|a [|b rest] IH].
  - split; [done|]. by intros (i & ? & ? & Hi & _).
  - split; [done|]. intros (i & ? & ? & _ & Hi & _). by destruct i.
  - change (isPathEdge (a :: b :: rest) edge) with
      (bool_decide ((JStr (e_source edge) = a ∧ JStr (e_target edge) = b)
                    ∨ (JStr (e_target edge) = a ∧ JStr (e_source edge) = b))
       || isPathEdge (b :: rest) edge).
    rewrite orb_true_iff, bool_decide_eq_true, IH. split.
    + intros [H|(i & x & y & Hi & Hj & H)].
      * by exists 0%nat, a, b.
      * by exists (S i), x, y.
    + intros (i & x & y & Hi & Hj & H). destruct i as [|i].
      * left. simpl in Hi, Hj. by injection Hi as <-; injection Hj as <-.
      * right. by exists i, x, y.
Qed.

Lemma isPathEdge_status path st edge :
  isPathEdge path (set_edge_status st edge) = isPathEdge path edge.
Proof.
  induction path as [|a [|b rest] IH]; [done..|].
  change (isPathEdge (a :: b :: rest) (set_edge_status st edge)) with
    (bool_decide ((JStr (e_source edge) = a ∧ JStr (e_target edge) = b)
                  ∨ (JStr (e_target edge) = a ∧ JStr (e_source edge) = b))
     || isPathEdge (b :: rest) (set_edge_status st edge)).
  by rewrite IH.
Qed.

(** The loop over the visited nodes, in closed form. *)
Lemma visit_fold s d visited nodes :
  fold_left (visit_step s d) visited nodes
  = match visited with
    | [] => nodes
    | _ => map (λ node, set_status
                          (mark_ends s d node
                             (if decide (n_id node ∈ visited) then NSVisited
                              else n_status node)) node) nodes
    end.
Proof.
  revert nodes. induction visited as [|v vs IH]; intros nodes; [done|].
  cbn [fold_left]. rewrite IH. unfold visit_step.
  destruct vs as [|v' vs'].
  - apply map_ext. intros n. unfold set_status, mark_ends. f_equal.
    destruct (decide (n_id n = s)); [done|].
    destruct (decide (n_id n = d)); [done|].
    destruct (decide (n_id n = v)) as [Heq|Hne].
    + rewrite decide_True; [done|]. rewrite Heq. left.
    + rewrite decide_False; [done|]. by intros ?%list_elem_of_singleton.
  - rewrite map_map. apply map_ext. intros n. unfold set_status, mark_ends. simpl.
    f_equal. destruct (decide (n_id n = s)); [done|].
    destruct (decide (n_id n = d)); [done|].
    destruct (decide (n_id n = v)) as [Heq|Hne].
    + rewrite (decide_True (P := n_id n ∈ v :: v' :: vs')) by (rewrite Heq; left).
      by destruct (decide _).
    + destruct (decide (n_id n ∈ v' :: vs')) as [Hin|Hout].
      * by rewrite decide_True by by right.
      * rewrite decide_False; [done|].
        intros [?|?]%elem_of_cons; done.
Qed.

(** The statuses that a call leaves, node by node and link by link. *)
Lemma onVisualizePath_spec keys s d result nodes edges :
  (∀ k, k ∈ keys ↔ is_Some (distances result !! k)) →
  let shown := res_path result ≠ [] ∧ JStr s ∈ res_path result in
  onVisualizePath keys s d result nodes edges
  = (map (λ node, set_status
            (if decide shown
             then (if decide (JStr (n_id node) ∈ res_path result) then NSPath
                   else mark_ends s d node NSVisited)
             else mark_ends s d node
                    match distances result !! n_id node with
                    | Some (Fin _) => NSVisited
                    | _ => NSDefault
                    end) node) nodes,
     map (λ edge, set_edge_status
            (if decide shown
             then (if isPathEdge (res_path result) edge then ESPath else ESVisited)
             else ESDefault) edge) edges).
Proof.
  intros Hkeys shown. unfold onVisualizePath.
  set (visited := filter _ keys).
  assert (∀ n, n_id n ≠ s → n_id n ≠ d →
            (n_id n ∈ visited ↔ ∃ a, distances result !! n_id n = Some (Fin a))) as Hvis.
  { intros n Hs Hd. unfold visited. rewrite list_elem_of_filter, Hkeys. split.
    - intros [(Hinf & _ & _) [v Hv]]. destruct v as [a|]; [by exists a|done].
    - intros [a Ha]. rewrite Ha. split; [|done]. split; [done|]. done. }
  assert (fold_left (visit_step s d) visited
            (map (λ node, set_status (mark_ends s d node NSDefault) node)
               (map (set_status NSDefault) nodes))
          = map (λ node, set_status
                   (mark_ends s d node
                      match distances result !! n_id node with
                      | Some (Fin _) => NSVisited
                      | _ => NSDefault
                      end) node) nodes) as Hloop.
  { rewrite visit_fold. rewrite !map_map.
    destruct visited as [|v vs] eqn:Ev.
    - apply map_ext. intros n. unfold set_status, mark_ends. simpl. f_equal.
      destruct (decide (n_id n = s)); [done|]. destruct (decide (n_id n = d)); [done|].
      destruct (distances result !! n_id n) as [[a|]|] eqn:Ed; [|done..].
      assert (n_id n ∈ []) as Hin by (apply Hvis; [done..|by exists a]).
      by apply elem_of_nil in Hin.
    - apply map_ext. intros n. unfold set_status, mark_ends. simpl.
      f_equal. destruct (decide (n_id n = s)); [done|].
      destruct (decide (n_id n = d)); [done|].
      destruct (decide (n_id n ∈ v :: vs)) as [Hin|Hout].
      + apply Hvis in Hin as [a ->]; done.
      + destruct (distances result !! n_id n) as [[a|]|] eqn:Ed; [|done..].
        exfalso. apply Hout, Hvis; [done..|by exists a]. }
  rewrite Hloop. clear Hloop.
  destruct (decide shown) as [[Hne Hsrc]|Hno].
  - assert ((0 <? length (res_path result))%nat = true) as ->.
    { apply Nat.ltb_lt. destruct (res_path result); [done|simpl; lia]. }
    rewrite bool_decide_eq_true_2 by done. cbn [andb].
    f_equal; rewrite map_map; apply map_ext; intros x.
    + unfold set_status, mark_ends. simpl. reflexivity.
    + rewrite isPathEdge_status. unfold set_edge_status. simpl. reflexivity.
  - assert ((0 <? length (res_path result))%nat
            && bool_decide (JStr s ∈ res_path result) = false) as ->.
    { apply andb_false_iff. destruct (res_path result) as [|x p] eqn:Ep; [by left|].
      right. apply bool_decide_eq_false. intros Hin. apply Hno. unfold shown.
      rewrite ?Ep. split; done. }
    done.
Qed.

(** The two ends of a route are cells of it. *)
Lemma is_route_ends arc source x p a :
  is_route arc source x p a → JStr source ∈ p ∧ JStr x ∈ p.
Proof.
  intros (steps & -> & _ & Hend & _). split; [left|].
  rewrite <- Hend. clear. generalize source.
  induction steps as [|[v w] r IH]; intros from; [left|].
  simpl. right. apply IH.
Qed.

Lemma bf_result_routes fuel nodes edges source dest r :
  dest ∈ node_ids nodes →
  BellmanFordAlgorithm.execute fuel nodes edges source dest = Returned r →
  (res_path r ≠ [] ↔ ∃ a, distances r !! dest = Some (Fin a))
  ∧ (∀ a, distances r !! dest = Some (Fin a) →
       is_route (edge_arc nodes edges) source dest (res_path r) a).
Proof.
  intros Hdest (k & _ & Hclean & Hr)%bf_returned.
  destruct (bf_final_state nodes edges source k Hclean) as (Hsrc & _ & Hlink).
  destruct (reconstruct_routes (node_ids nodes) (edge_arc nodes edges) source _ _ _ _ _ _
              (bf_inv nodes edges source k) Hlink (bf_root_ok nodes edges source k)
              Hsrc Hdest Hr) as (H1 & H2 & _).
  done.
Qed.



End Visualisation.
